(** * ChebTools: Chebyshev expansions, their algebra and their roots

    A shallow embedding of the ChebTools sources:
    - [main.cpp]: the stand-alone [ChebyshevExpansion] class (global
      namespace) with its operators, evaluators, companion matrix and the
      two root finders;
    - [include/ChebTools/ChebTools.h]: the class [ChebTools::ChebyshevExpansion]
      (constructors, domain accessors and the inline friend [operator*]);
      the out-of-line members of that class live in [ChebTools.cpp].

    Conventions of the embedding.
    - [double] is modelled by the canonical rationals [Qc]: arithmetic is
      exact, so rounding, infinities and NaN are outside the model.
    - Sizes and indices are integers ([Z]).  A [size_t] difference that is
      handed to Eigen is converted to the signed [Eigen::Index]; for sizes
      below [2^63] the composite is the plain integer difference, so the
      wrapped value of [N - 2] at [N = 1] reads as the index [-1].  Where
      such a difference bounds a loop it is compared as a [size_t]:
      [to_size_t] gives its unsigned value.
    - Eigen checks every coefficient and block access ([eigen_assert]); a
      failed check, like a C++ [throw], ends the computation: fallible code
      lives in the [result] monad.  (With the checks compiled out the access
      is undefined behaviour; the model has no such runs.)
    - Members that write into the object return the updated object next to
      their value. *)

From Stdlib Require Import String ZArith QArith Qcanon Qcabs List Lia Bool.
Import ListNotations.

Set Implicit Arguments.

(* ================================================================== *)
(** * Numbers *)

Abbreviation double := Qc (only parsing).

Definition of_Z (z : Z) : double := Q2Qc (inject_Z z).

(** The value [n/d], for decimal literals such as [0.1 = ratio 1 10]. *)
Definition ratio (n : Z) (d : positive) : double := Q2Qc (n # d).

(** The literal [0.5]. *)
Definition half : double := Q2Qc (1 # 2).

(** [DBL_EPSILON] of [<cfloat>]: [2^-52]. *)
Definition DBL_EPSILON : double := Q2Qc (1 # 2 ^ 52).

(** [DBL_MAX] of [<cfloat>]: [(2^53 - 1) * 2^971], the largest finite
    [double]. *)
Definition DBL_MAX : double := of_Z ((2 ^ 53 - 1) * 2 ^ 971).

(** The literal [1e99]. *)
Definition sentinel_1e99 : double := of_Z (10 ^ 99).

Definition ltb (x y : double) : bool :=
  match (x ?= y)%Qc with Lt => true | _ => false end.

Definition leb (x y : double) : bool :=
  match (x ?= y)%Qc with Gt => false | _ => true end.

(** [std::min(a, b)] is [(b < a) ? b : a], [std::max(a, b)] is
    [(a < b) ? b : a]. *)
Definition std_min (a b : double) : double := if ltb b a then b else a.
Definition std_max (a b : double) : double := if ltb a b then b else a.

(** [std::signbit]: the rationals have no negative zero. *)
Definition signbit (x : double) : bool := ltb x 0%Qc.

(** [std::complex<double>]. *)
Record complex : Type := Complex { real : double; imag : double }.

(* ================================================================== *)
(** * Exceptions and results *)

Inductive exn : Type :=
| index_out_of_range                 (* eigen_assert of operator() or of a block *)
| size_mismatch                      (* eigen_assert on the sizes of two operands *)
| negative_size                      (* eigen_assert on a requested size *)
| std_exception (what : string).     (* throw std::exception(what) *)

Inductive result (A : Type) : Type :=
| Ok (a : A)
| Throw (e : exn).

Arguments Ok {A} a.
Arguments Throw {A} e.

Definition bind {A B} (r : result A) (k : A -> result B) : result B :=
  match r with
  | Ok a => k a
  | Throw e => Throw e
  end.

Declare Scope result_scope.
Delimit Scope result_scope with result.
Notation "x <- r ;; k" := (bind r (fun x => k))
  (at level 61, r at next level, right associativity) : result_scope.
Open Scope result_scope.

(** [for (i = lo; ...; ++i) body], run for [count] iterations, stopping
    at the first failure. *)
Fixpoint for_loop {S} (count : nat) (i : Z) (body : Z -> S -> result S)
  (s : S) : result S :=
  match count with
  | O => Ok s
  | Datatypes.S k => s' <- body i s ;; for_loop k (i + 1) body s'
  end.

(** The value as a [size_t] of a difference of sizes or of a [long]: a
    negative one wraps around to [z + 2^64]. *)
Definition to_size_t (z : Z) : Z := if (z <? 0)%Z then (z + 2 ^ 64)%Z else z.

(** The integers [lo, lo+1, ..., lo+count-1]. *)
Fixpoint zrange (lo : Z) (count : nat) : list Z :=
  match count with
  | O => []
  | Datatypes.S k => lo :: zrange (lo + 1) k
  end.

(* ================================================================== *)
(** * Eigen: dense vectors and matrices *)

Module Eigen.

(** ** [Eigen::VectorXd] *)

Definition VectorXd : Type := list double.

Definition size (v : VectorXd) : Z := Z.of_nat (length v).

Definition in_range (i n : Z) : bool := (0 <=? i)%Z && (i <? n)%Z.

Fixpoint update {A} (l : list A) (n : nat) (x : A) : list A :=
  match l, n with
  | [], _ => []
  | _ :: t, O => x :: t
  | h :: t, Datatypes.S k => h :: update t k x
  end.

(** [v(i)] read. *)
Definition coeff (v : VectorXd) (i : Z) : result double :=
  if in_range i (size v) then Ok (nth (Z.to_nat i) v 0%Qc)
  else Throw index_out_of_range.

(** [v(i) = x]. *)
Definition coeffRef (v : VectorXd) (i : Z) (x : double) : result VectorXd :=
  if in_range i (size v) then Ok (update v (Z.to_nat i) x)
  else Throw index_out_of_range.

(** [v.head(n)] and [v.tail(n)]. *)
Definition head (v : VectorXd) (n : Z) : result VectorXd :=
  if (0 <=? n)%Z && (n <=? size v)%Z then Ok (firstn (Z.to_nat n) v)
  else Throw index_out_of_range.

Definition tail (v : VectorXd) (n : Z) : result VectorXd :=
  if (0 <=? n)%Z && (n <=? size v)%Z then Ok (skipn (Z.to_nat (size v - n)) v)
  else Throw index_out_of_range.

(** Coefficient-wise sum [u + v]. *)
Definition plus (u v : VectorXd) : result VectorXd :=
  if (size u =? size v)%Z then Ok (map (fun p => (fst p + snd p)%Qc) (combine u v))
  else Throw size_mismatch.

(** [v * value]. *)
Definition scale (v : VectorXd) (value : double) : VectorXd :=
  map (fun c => (c * value)%Qc) v.

(** [u.dot(v)]: the products are accumulated from left to right. *)
Definition dot (u v : VectorXd) : result double :=
  if (size u =? size v)%Z
  then Ok (fold_left (fun acc p => (acc + fst p * snd p)%Qc) (combine u v) 0%Qc)
  else Throw size_mismatch.

(** [v.head(n) = w] and [v.tail(n) = w]: assignment to a block. *)
Definition set_head (v : VectorXd) (n : Z) (w : VectorXd) : result VectorXd :=
  if (0 <=? n)%Z && (n <=? size v)%Z then
    if (size w =? n)%Z then Ok (w ++ skipn (Z.to_nat n) v)
    else Throw size_mismatch
  else Throw index_out_of_range.

Definition set_tail (v : VectorXd) (n : Z) (w : VectorXd) : result VectorXd :=
  if (0 <=? n)%Z && (n <=? size v)%Z then
    if (size w =? n)%Z then Ok (firstn (Z.to_nat (size v - n)) v ++ w)
    else Throw size_mismatch
  else Throw index_out_of_range.

(** ** [Eigen::MatrixXd]: the two dimensions and the coefficients. *)

Record MatrixXd : Type := Matrix { rows : Z; cols : Z; at_ : Z -> Z -> double }.

(** The rows of a matrix, for display. *)
Definition to_rows (A : MatrixXd) : list (list double) :=
  map (fun i => map (fun j => at_ A i j) (zrange 0 (Z.to_nat (cols A))))
      (zrange 0 (Z.to_nat (rows A))).

(** [MatrixXd::Zero(r, c)]. *)
Definition Zero (r c : Z) : result MatrixXd :=
  if (0 <=? r)%Z && (0 <=? c)%Z then Ok (Matrix r c (fun _ _ => 0%Qc))
  else Throw negative_size.

(** [A(i, j)] read and [A(i, j) = x]. *)
Definition mcoeff (A : MatrixXd) (i j : Z) : result double :=
  if in_range i (rows A) && in_range j (cols A) then Ok (at_ A i j)
  else Throw index_out_of_range.

Definition mcoeffRef (A : MatrixXd) (i j : Z) (x : double) : result MatrixXd :=
  if in_range i (rows A) && in_range j (cols A) then
    Ok (Matrix (rows A) (cols A)
          (fun i' j' => if (i' =? i)%Z && (j' =? j)%Z then x else at_ A i' j'))
  else Throw index_out_of_range.

(** [A.col(j)] read, [A.col(j).fill(x)] and [A.col(j) = v]. *)
Definition col (A : MatrixXd) (j : Z) : result VectorXd :=
  if in_range j (cols A)
  then Ok (map (fun i => at_ A i j) (zrange 0 (Z.to_nat (rows A))))
  else Throw index_out_of_range.

Definition col_fill (A : MatrixXd) (j : Z) (x : double) : result MatrixXd :=
  if in_range j (cols A) then
    Ok (Matrix (rows A) (cols A)
          (fun i' j' => if (j' =? j)%Z then x else at_ A i' j'))
  else Throw index_out_of_range.

Definition col_assign (A : MatrixXd) (j : Z) (v : VectorXd) : result MatrixXd :=
  if in_range j (cols A) then
    if (size v =? rows A)%Z then
      Ok (Matrix (rows A) (cols A)
            (fun i' j' => if (j' =? j)%Z then nth (Z.to_nat i') v 0%Qc
                          else at_ A i' j'))
    else Throw size_mismatch
  else Throw index_out_of_range.

(** [A * v]: row [i] of the product is the dot product of row [i] with [v]. *)
Definition row (A : MatrixXd) (i : Z) : VectorXd :=
  map (fun j => at_ A i j) (zrange 0 (Z.to_nat (cols A))).

Definition times_vector (A : MatrixXd) (v : VectorXd) : result VectorXd :=
  if (cols A =? size v)%Z then
    Ok (map (fun i => fold_left (fun acc p => (acc + fst p * snd p)%Qc)
                        (combine (row A i) v) 0%Qc)
          (zrange 0 (Z.to_nat (rows A))))
  else Throw size_mismatch.

(** [v.resize(n)] and [A.resize(r, c)].  Nothing happens when the number of
    coefficients stays the same; otherwise the storage is reallocated and the
    old coefficients are lost: the new ones are whatever [uninitialized]
    holds at their offsets (Eigen stores a matrix column by column). *)
Definition resize (uninitialized : Z -> double) (v : VectorXd) (n : Z)
  : VectorXd :=
  if (n =? size v)%Z then v else map uninitialized (zrange 0 (Z.to_nat n)).

Definition mresize (uninitialized : Z -> double) (A : MatrixXd) (r c : Z)
  : MatrixXd :=
  if (r * c =? rows A * cols A)%Z
  then Matrix r c (fun i j => let k := (i + j * r)%Z in
                              at_ A (k mod rows A)%Z (k / rows A)%Z)
  else Matrix r c (fun i j => uninitialized (i + j * r)%Z).

(** The default-constructed (empty) vector and matrix. *)
Definition empty_vector : VectorXd := [].
Definition empty_matrix : MatrixXd := Matrix 0 0 (fun _ _ => 0%Qc).

End Eigen.

Import Eigen.

(** [Eigen::Vector3d] and [Eigen::Matrix3d] of the quadratic fit: the sizes
    are fixed by the type, the three rows of the matrix are given in order. *)
Definition Vector3d : Type := (double * double * double)%type.
Definition Matrix3d : Type := (Vector3d * Vector3d * Vector3d)%type.

(* ================================================================== *)
(** * main.cpp: the stand-alone class *)

(** From CoolProp: [is_in_closed_range(x1, x2, x)]. *)
Definition is_in_closed_range (x1 x2 x : double) : bool :=
  leb (std_min x1 x2) x && leb x (std_max x1 x2).

Record ChebyshevExpansion : Type := Build {
  m_xmin : double;
  m_xmax : double;
  m_c : VectorXd;
  m_recurrence_buffer : VectorXd;
  m_recurrence_buffer_matrix : MatrixXd
}.

Definition set_m_c (this : ChebyshevExpansion) (c : VectorXd) :=
  Build (m_xmin this) (m_xmax this) c
    (m_recurrence_buffer this) (m_recurrence_buffer_matrix this).

Definition set_m_recurrence_buffer (this : ChebyshevExpansion) (o : VectorXd) :=
  Build (m_xmin this) (m_xmax this) (m_c this)
    o (m_recurrence_buffer_matrix this).

Definition set_m_recurrence_buffer_matrix (this : ChebyshevExpansion)
  (A : MatrixXd) :=
  Build (m_xmin this) (m_xmax this) (m_c this) (m_recurrence_buffer this) A.

(** The default arguments [xmin = -1] and [xmax = 1] of the constructors. *)
Definition default_xmin : double := of_Z (-1).
Definition default_xmax : double := of_Z 1.

(** The affine maps between [[xmin, xmax]] and [[-1, 1]], as the members
    write them out. *)
Definition to_xscaled (xmin xmax x : double) : double :=
  ((of_Z 2 * x - (xmax + xmin)) / (xmax - xmin))%Qc.

Definition to_realworld (xmin xmax xscaled : double) : double :=
  (((xmax - xmin) * xscaled + (xmax + xmin)) / of_Z 2)%Qc.

Section Prototype.

(** What the class takes from outside: the contents of freshly allocated
    storage, Eigen's eigenvalue solver and rank-revealing QR solver, and
    [cos] and [sqrt] of [<cmath>]: [cos_pi k n] stands for
    [cos(k * EIGEN_PI / n)]. *)
Variable uninitialized : Z -> double.
Variable eigenvalues : MatrixXd -> list complex.
Variable cos_pi : Z -> Z -> double.
Variable sqrt : double -> double.
Variable colPivHouseholderQr_solve : Matrix3d -> Vector3d -> Vector3d.

(** [void resize()]. *)
Definition resize (this : ChebyshevExpansion) : ChebyshevExpansion :=
  set_m_recurrence_buffer this
    (Eigen.resize uninitialized (m_recurrence_buffer this) (size (m_c this))).

(** [ChebyshevExpansion(c, xmin, xmax)]: the three constructors store their
    arguments and call [resize()]. *)
Definition construct (c : VectorXd) (xmin xmax : double) : ChebyshevExpansion :=
  resize (Build xmin xmax c empty_vector empty_matrix).

Definition construct_default (c : VectorXd) : ChebyshevExpansion :=
  construct c default_xmin default_xmax.

(** [coef()]. *)
Definition coef (this : ChebyshevExpansion) : VectorXd := m_c this.

(** [operator+(ce2)]. *)
Definition operator_plus (this ce2 : ChebyshevExpansion)
  : result ChebyshevExpansion :=
  if negb (size (m_c this) =? size (coef ce2))%Z
  then Throw (std_exception "lengths not the same")
  else c <- plus (coef ce2) (m_c this) ;; Ok (construct_default c).

(** [operator+=(donor)]. *)
Definition operator_plus_assign (this donor : ChebyshevExpansion)
  : result ChebyshevExpansion :=
  let Ndonor := size (coef donor) in
  let N1 := size (m_c this) in
  let Nmin := Z.min N1 Ndonor in
  let Nmax := Z.max N1 Ndonor in
  (* The first Nmin terms overlap between the two vectors *)
  mine <- head (m_c this) Nmin ;;
  theirs <- head (coef donor) Nmin ;;
  sum <- plus mine theirs ;;
  c <- set_head (m_c this) Nmin sum ;;
  if (Ndonor >? N1)%Z then
    let c := Eigen.resize uninitialized c Ndonor in
    (* Copy the last Nmax-Nmin values from the donor *)
    last <- tail (coef donor) (Nmax - Nmin) ;;
    c <- set_tail c (Nmax - Nmin) last ;;
    Ok (set_m_c this c)
  else Ok (set_m_c this c).

(** [operator*(value)], [operator*=(value)] and the friend
    [operator*(value, ce)]. *)
Definition operator_times (this : ChebyshevExpansion) (value : double)
  : ChebyshevExpansion :=
  construct_default (scale (m_c this) value).

Definition operator_times_assign (this : ChebyshevExpansion) (value : double)
  : ChebyshevExpansion :=
  set_m_c this (scale (m_c this) value).

Definition friend_operator_times (value : double) (ce : ChebyshevExpansion)
  : ChebyshevExpansion :=
  construct_default (scale (coef ce) value).

(** [double y(const double x)]. *)
Definition y (this : ChebyshevExpansion) (x : double)
  : result (double * ChebyshevExpansion) :=
  let Norder := (size (m_c this) - 1)%Z in
  let xscaled := to_xscaled (m_xmin this) (m_xmax this) x in
  let o := m_recurrence_buffer this in
  o <- coeffRef o 0 1%Qc ;;
  o <- coeffRef o 1 xscaled ;;
  o <- for_loop (Z.to_nat (to_size_t Norder - 1)) 1
         (fun n o =>
            o_n <- coeff o n ;;
            o_n1 <- coeff o (n - 1) ;;
            coeffRef o (n + 1) (of_Z 2 * xscaled * o_n - o_n1)%Qc) o ;;
  v <- dot (m_c this) o ;;
  Ok (v, set_m_recurrence_buffer this o).

(** [vectype y_xscaled(const vectype &xscaled)]. *)
Definition y_xscaled (this : ChebyshevExpansion) (xscaled : VectorXd)
  : result (VectorXd * ChebyshevExpansion) :=
  let Norder := (size (m_c this) - 1)%Z in
  let A := mresize uninitialized (m_recurrence_buffer_matrix this)
             (size xscaled) (Norder + 1) in
  A <- col_fill A 0 1%Qc ;;
  A <- col_assign A 1 xscaled ;;
  A <- for_loop (Z.to_nat (to_size_t Norder - 1)) 1
         (fun n A =>
            A_n <- col A n ;;
            A_n1 <- col A (n - 1) ;;
            col_assign A (n + 1)
              (map (fun p => (of_Z 2 * fst (fst p) * snd (fst p) - snd p)%Qc)
                   (combine (combine xscaled A_n) A_n1))) A ;;
  v <- times_vector A (m_c this) ;;
  Ok (v, set_m_recurrence_buffer_matrix this A).

(** [vectype y(const vectype &x)]. *)
Definition y_vector (this : ChebyshevExpansion) (x : VectorXd)
  : result (VectorXd * ChebyshevExpansion) :=
  let xscaled := map (to_xscaled (m_xmin this) (m_xmax this)) x in
  y_xscaled this xscaled.

(** [Eigen::MatrixXd companion_matrix()]. *)
Definition companion_matrix (this : ChebyshevExpansion) : result MatrixXd :=
  let N := (size (m_c this) - 1)%Z in
  A <- Zero N N ;;
  (* First row *)
  A <- mcoeffRef A 0 1 1%Qc ;;
  (* Last row *)
  A <- mcoeffRef A (N - 1) (N - 2) half ;;
  A <- for_loop (Z.to_nat (to_size_t N)) 0
         (fun k A =>
            c_k <- coeff (m_c this) k ;;
            c_N <- coeff (m_c this) N ;;
            a <- mcoeff A (N - 1) k ;;
            mcoeffRef A (N - 1) k (a - c_k / (of_Z 2 * c_N))%Qc) A ;;
  (* All the other rows *)
  for_loop (Z.to_nat (to_size_t (N - 1) - 1)) 1
    (fun j A =>
       A <- mcoeffRef A j (j - 1) half ;;
       mcoeffRef A j (j + 1) half) A.

(** One turn of the loop of [real_roots] over the eigenvalues. *)
Definition real_roots_step (this : ChebyshevExpansion) (only_in_domain : bool)
  (roots : list double) (eigval : complex) : list double :=
  if ltb (Qcabs (imag eigval)) (of_Z 10 * DBL_EPSILON)%Qc then
    (* Rescale back into real-world values *)
    let x := to_realworld (m_xmin this) (m_xmax this) (real eigval) in
    (* Keep it if in the domain or if you want all real roots *)
    if negb only_in_domain || (leb x (m_xmax this) && leb (m_xmin this) x)
    then roots ++ [x]
    else roots
  else roots.

(** [std::vector<double> real_roots(bool only_in_domain = true)]. *)
Definition real_roots (this : ChebyshevExpansion) (only_in_domain : bool)
  : result (list double) :=
  A <- companion_matrix this ;;
  let eigvals := eigenvalues A in
  Ok (fold_left (real_roots_step this only_in_domain) eigvals []).

(** The two roots of [a*x^2 + b*x + c] as [real_roots_approx] computes them. *)
Definition quadratic_x1 (a b c : double) : double :=
  ((- b + sqrt (b * b - of_Z 4 * a * c)) / (of_Z 2 * a))%Qc.

Definition quadratic_x2 (a b c : double) : double :=
  ((- b - sqrt (b * b - of_Z 4 * a * c)) / (of_Z 2 * a))%Qc.

(** The choice among [x1], [x2] and the value [1e99]. *)
Definition select_root (lo hi x1 x2 : double) : double :=
  let x1_in_range := is_in_closed_range lo hi x1 in
  let x2_in_range := is_in_closed_range lo hi x2 in
  if x1_in_range && negb x2_in_range then x1
  else if x2_in_range && negb x1_in_range then x2
  else sentinel_1e99.

(** The body of the loop of [real_roots_approx] at index [i]. *)
Definition real_roots_approx_step (this : ChebyshevExpansion)
  (xpts_n11 ypts : VectorXd) (i : Z) (roots : list double)
  : result (list double) :=
  (* The change of sign guarantees at least one root between indices i and i+1 *)
  y1 <- coeff ypts i ;;
  y2 <- coeff ypts (i + 1) ;;
  let signchange := negb (Bool.eqb (signbit y1) (signbit y2)) in
  if signchange then
    let i0 := if (1 <=? i)%Z then (i - 1)%Z else i in
    r0 <- coeff ypts i0 ;;
    r1 <- coeff ypts (i0 + 1) ;;
    r2 <- coeff ypts (i0 + 2) ;;
    x_0 <- coeff xpts_n11 (i0 + 0) ;;
    x_1 <- coeff xpts_n11 (i0 + 1) ;;
    x_2 <- coeff xpts_n11 (i0 + 2) ;;
    let A : Matrix3d := ((x_0 * x_0, x_0, 1), (x_1 * x_1, x_1, 1),
                         (x_2 * x_2, x_2, 1))%Qc in
    (* abc holds the coefficients a,b,c for y = a*x^2 + b*x + c *)
    let '(a, b, c) := colPivHouseholderQr_solve A (r0, r1, r2) in
    (* Solve the quadratic and find the root you want *)
    let x1 := quadratic_x1 a b c in
    let x2 := quadratic_x2 a b c in
    lo <- coeff xpts_n11 i ;;
    hi <- coeff xpts_n11 (i + 1) ;;
    let xscaled := select_root lo hi x1 x2 in
    (* Rescale back into real-world values *)
    let x := to_realworld (m_xmin this) (m_xmax this) xscaled in
    Ok (roots ++ [x])
  else Ok roots.

(** [std::vector<double> real_roots_approx(long Npoints)]. *)
Definition real_roots_approx (this : ChebyshevExpansion) (Npoints : Z)
  : result (list double * ChebyshevExpansion) :=
  if (Npoints + 1 <? 0)%Z then Throw negative_size else
  (* Vector of values in the range [-1,1] as roots of a high-order Chebyshev *)
  let xpts_n11 := map (fun k => cos_pi k Npoints)
                      (zrange 0 (Z.to_nat (Npoints + 1))) in
  yt <- y_xscaled this xpts_n11 ;;
  let ypts := fst yt in
  (* the long [Npoints - 1] is compared with the size_t counter *)
  roots <- for_loop (Z.to_nat (to_size_t (Npoints - 1))) 0
             (real_roots_approx_step this xpts_n11 ypts) [] ;;
  Ok (roots, snd yt).

End Prototype.

(* ================================================================== *)
(** * main.cpp: the free functions *)

Section FreeFunctions.

Variable uninitialized : Z -> double.
Variable cos_pi : Z -> Z -> double.

(** [int p_i(int i, int N)]. *)
Definition p_i (i N : Z) : Z :=
  if (i =? 0)%Z || (i =? N)%Z then 2%Z else 1%Z.

(** The grid point [x_k] and the entry [L(j, k)] of
    [generate_Chebyshev_expansion], as its two loops write them out. *)
Definition grid_point (N : Z) (xmin xmax : double) (k : Z) : double :=
  ((xmax - xmin) / of_Z 2 * cos_pi k N + (xmax + xmin) / of_Z 2)%Qc.

Definition L_entry (N j k : Z) : double :=
  (of_Z 2 / of_Z (p_i j N * p_i k N * N) * cos_pi (j * k) N)%Qc.

(** [generate_Chebyshev_expansion(N, func, xmin, xmax)].  The product
    [L*f] has one column, so [rowwise().sum()] returns its coefficients. *)
Definition generate_Chebyshev_expansion (N : Z) (func : double -> double)
  (xmin xmax : double) : result ChebyshevExpansion :=
  if (N + 1 <? 0)%Z then Throw negative_size else
  let f := Eigen.resize uninitialized empty_vector (N + 1) in
  (* Step 1&2: Grid points functional values *)
  f <- for_loop (Z.to_nat (N + 1)) 0
         (fun k f => coeffRef f k (func (grid_point N xmin xmax k))) f ;;
  (* Step 3: the matrix of coefficients *)
  L <- Zero (N + 1) (N + 1) ;;
  L <- for_loop (Z.to_nat (N + 1)) 0
         (fun j L =>
            for_loop (Z.to_nat (N + 1)) 0
              (fun k L => mcoeffRef L j k (L_entry N j k)) L) L ;;
  (* Step 4: Obtain coefficients from vector - matrix product *)
  c <- times_vector L f ;;
  Ok (construct uninitialized c xmin xmax).

(** [plus_by_inplace(ce, ce2, N)] for a donor [ce2] that is another object
    than [ce]; the [int N] is compared with the [size_t] counter. *)
Definition plus_by_inplace (ce ce2 : ChebyshevExpansion) (N : Z)
  : result (double * ChebyshevExpansion) :=
  ce <- for_loop (Z.to_nat (to_size_t N)) 0
          (fun _ ce => operator_plus_assign uninitialized ce ce2) ce ;;
  c0 <- coeff (coef ce) 0 ;;
  Ok (c0, ce).

(** [plus_by_inplace(ce, ce, N)]: both references name one object, so every
    turn of the loop adds the current coefficients to themselves (the
    lengths agree, [operator+=] does not reallocate).  A [double] added to
    itself is exact until the sum passes [DBL_MAX]; beyond that the source
    holds infinities, which the rationals do not have: what is proved of
    this loop is stated within that bound.  ([main] calls the function in
    this form with [N = 10000], far beyond the bound.) *)
Definition plus_by_inplace_self (ce : ChebyshevExpansion) (N : Z)
  : result (double * ChebyshevExpansion) :=
  ce <- for_loop (Z.to_nat (to_size_t N)) 0
          (fun _ ce => operator_plus_assign uninitialized ce ce) ce ;;
  c0 <- coeff (coef ce) 0 ;;
  Ok (c0, ce).

(** [mult_by_inplace(ce, val, N)]. *)
Definition mult_by_inplace (ce : ChebyshevExpansion) (val : double) (N : Z)
  : result (double * ChebyshevExpansion) :=
  ce <- for_loop (Z.to_nat (to_size_t N)) 0
          (fun _ ce => Ok (operator_times_assign ce val)) ce ;;
  c0 <- coeff (coef ce) 0 ;;
  Ok (c0, ce).

End FreeFunctions.

(* ================================================================== *)
(** * ChebTools.h: the class of the library *)

Module ChebTools.

Record ChebyshevExpansion : Type := Build {
  m_c : VectorXd;
  m_xmin : double;
  m_xmax : double;
  m_recurrence_buffer : VectorXd;
  m_recurrence_buffer_matrix : MatrixXd
}.

Section Header.

Variable uninitialized : Z -> double.

(** [void resize()]. *)
Definition resize (this : ChebyshevExpansion) : ChebyshevExpansion :=
  Build (m_c this) (m_xmin this) (m_xmax this)
    (Eigen.resize uninitialized (m_recurrence_buffer this) (size (m_c this)))
    (m_recurrence_buffer_matrix this).

(** [ChebyshevExpansion(c, xmin, xmax)]. *)
Definition construct (c : VectorXd) (xmin xmax : double) : ChebyshevExpansion :=
  resize (Build c xmin xmax empty_vector empty_matrix).

(** [xmin()], [xmax()]. *)
Definition xmin (this : ChebyshevExpansion) : double := m_xmin this.
Definition xmax (this : ChebyshevExpansion) : double := m_xmax this.

(** Modelled from the spec: [coef()] is declared in the header and defined
    in ChebTools.cpp, which is not among the sources; the spec calls it the
    read-only view of the coefficient sequence. *)
Definition coef (this : ChebyshevExpansion) : VectorXd := m_c this.

(** The friend [operator*(value, ce)]. *)
Definition friend_operator_times (value : double) (ce : ChebyshevExpansion)
  : ChebyshevExpansion :=
  construct (scale (coef ce) value) (m_xmin ce) (m_xmax ce).

(** [c(k) += v] on the output vector of the product. *)
Definition add_at (c : VectorXd) (k : nat) (v : double) : VectorXd :=
  update c k (nth k c 0 + v)%Qc.

(** The contributions of the pair [(c1[i], c2[j])]. *)
Definition product_pair (c1_i : double) (i : nat) (c : VectorXd)
  (jc : nat * double) : VectorXd :=
  let j := fst jc in
  let v := (c1_i * snd jc / of_Z 2)%Qc in
  add_at (add_at c (i + j) v) (Nat.max i j - Nat.min i j) v.

Definition product_row (c2 : VectorXd) (c : VectorXd) (ic : nat * double)
  : VectorXd :=
  fold_left (product_pair (snd ic) (fst ic)) (combine (seq 0 (length c2)) c2) c.

Definition product_coefficients (c1 c2 : VectorXd) : VectorXd :=
  fold_left (product_row c2) (combine (seq 0 (length c1)) c1)
    (repeat 0%Qc (length c1 + length c2 - 1)).

(** Modelled from the spec: [operator*(const ChebyshevExpansion &)] is
    declared in the header and defined in ChebTools.cpp, which is not among
    the sources.  The spec: each pair of coefficients [(c1[i], c2[j])]
    contributes [c1[i]*c2[j]/2] to both output index [i+j] and output index
    [|i-j|]; the result has [len(c1)+len(c2)-1] coefficients.  The operands
    are on the same domain, which is kept. *)
Definition operator_times (this ce2 : ChebyshevExpansion) : ChebyshevExpansion :=
  construct (product_coefficients (m_c this) (coef ce2))
    (m_xmin this) (m_xmax this).

End Header.

End ChebTools.

(** ** [SumElement], [ChebyshevSummation] and [ChebyshevMixture] *)

Module Mixture.

Record SumElement : Type := {
  n_i : double;
  F : ChebTools.ChebyshevExpansion;
  G : ChebTools.ChebyshevExpansion
}.

Record ChebyshevSummation : Type := {
  TAUmat : MatrixXd;
  DELTAmat : MatrixXd;
  N : VectorXd;
  terms : list SumElement;
  givenvec : VectorXd;
  F_SPECIFIED : bool;
  matrix_indep_built : bool;
  matrix_dep_built : bool;
  m_xmin : double;
  m_xmax : double
}.

(** [get_terms()]. *)
Definition get_terms (this : ChebyshevSummation) : list SumElement := terms this.

Record ChebyshevMixture : Type := {
  interval_expansions : list (list ChebyshevSummation);
  m_roots : list double;
  A : MatrixXd;
  all_same_order : bool;
  previous_tau : double
}.

(** How [allocate()] and the constructors end. *)
Inductive outcome (T : Type) : Type :=
| Returned (t : T)
| range_error (what : string)   (* throw std::range_error(what) *)
| empty_reduction.              (* eigen_assert of maxCoeff() over no coefficient *)

Arguments Returned {T} t.
Arguments range_error {T} what.
Arguments empty_reduction {T}.

(** [maxCoeff()] and [minCoeff()] of a vector of [int]. *)
Definition maxCoeff (v : list Z) : option Z :=
  match v with
  | [] => None
  | x :: t => Some (fold_left Z.max t x)
  end.

Definition minCoeff (v : list Z) : option Z :=
  match v with
  | [] => None
  | x :: t => Some (fold_left Z.min t x)
  end.

Section Allocation.

Variable uninitialized : Z -> double.

(** The orders collected by the three nested loops of [allocate()]. *)
Definition Nrows (this : ChebyshevMixture) : list Z :=
  flat_map (fun interval =>
    flat_map (fun fluid =>
      map (fun term => size (ChebTools.coef (G term))) (get_terms fluid))
      interval)
    (interval_expansions this).

(** [void allocate()].  With at least one order collected there is a first
    interval. *)
Definition allocate (this : ChebyshevMixture) : outcome ChebyshevMixture :=
  (* Determine the maximum and minimum orders; they must be the same! *)
  match maxCoeff (Nrows this), minCoeff (Nrows this) with
  | Some Nmax, Some Nmin =>
      if negb (Nmax =? Nmin)%Z then
        range_error "All delta expansions are not of the same order"
      else
        Returned {|
          interval_expansions := interval_expansions this;
          m_roots := m_roots this;
          A := mresize uninitialized (A this) Nmax
                 (Z.of_nat (length (nth 0 (interval_expansions this) [])));
          all_same_order := all_same_order this;
          previous_tau := of_Z (10 ^ 20) |}
  | _, _ => empty_reduction
  end.

(** [ChebyshevMixture(intervals)]: the members take their initializers,
    [previous_tau] has none, and [allocate()] runs. *)
Definition construct (intervals : list (list ChebyshevSummation))
  : outcome ChebyshevMixture :=
  allocate {|
    interval_expansions := intervals;
    m_roots := [];
    A := empty_matrix;
    all_same_order := true;
    previous_tau := uninitialized 0%Z |}.

(** [get_A()]. *)
Definition get_A (this : ChebyshevMixture) : MatrixXd := A this.

End Allocation.

End Mixture.

(* ================================================================== *)
(** * pybind11_wrapper.cpp: the Clenshaw evaluators *)

(** [for (int k = hi; k >= lo; --k) body], run for [count] iterations. *)
Fixpoint for_loop_down {S} (count : nat) (k : Z) (body : Z -> S -> result S)
  (s : S) : result S :=
  match count with
  | O => Ok s
  | Datatypes.S n => s' <- body k s ;; for_loop_down n (k - 1) body s'
  end.

(** [Clenshaw1D(c, ind)]: the state of the loop is [(u_k, u_kp1, u_kp2)]. *)
Definition Clenshaw1D (c : VectorXd) (ind : double) : result double :=
  let N := (size c - 1)%Z in
  s <- for_loop_down (Z.to_nat (N + 1)) N
         (fun k s =>
            let '(u_k, u_kp1, u_kp2) := s in
            (* Do the recurrent calculation *)
            c_k <- coeff c k ;;
            let u_k := (of_Z 2 * ind * u_kp1 - u_kp2 + c_k)%Qc in
            if (k >? 0)%Z then
              (* Update the values *)
              Ok (u_k, u_k, u_kp1)
            else Ok (u_k, u_kp1, u_kp2))
         (0%Qc, 0%Qc, 0%Qc) ;;
  let '(u_k, u_kp1, u_kp2) := s in
  Ok ((u_k - u_kp2) / of_Z 2)%Qc.

(** Coefficient-wise difference of two arrays; [c.row(k)]; the array of
    [n] zeros left by [resize(n)] and [setZero()]. *)
Definition array_minus (u v : VectorXd) : result VectorXd :=
  if (size u =? size v)%Z then Ok (map (fun p => (fst p - snd p)%Qc) (combine u v))
  else Throw size_mismatch.

Definition row_block (A : MatrixXd) (i : Z) : result VectorXd :=
  if in_range i (rows A) then Ok (row A i) else Throw index_out_of_range.

Definition setZero (n : Z) : VectorXd := repeat 0%Qc (Z.to_nat n).

(** [Clenshaw1DByRow(c, ind)] for a matrix type without a fixed number of
    columns ([Cols < 0]), as the two bindings instantiate it: the three
    arrays get [c.rows()] coefficients. *)
Definition Clenshaw1DByRow (c : MatrixXd) (ind : double) : result VectorXd :=
  let N := (rows c - 1)%Z in
  let M := rows c in
  s <- for_loop_down (Z.to_nat (N + 1)) N
         (fun k s =>
            let '(u_k, u_kp1, u_kp2) := s in
            (* Do the recurrent calculation *)
            d <- array_minus (map (fun u => (of_Z 2 * ind * u)%Qc) u_kp1) u_kp2 ;;
            c_k <- row_block c k ;;
            u_k <- plus d c_k ;;
            if (k >? 0)%Z then
              (* Update the values *)
              Ok (u_k, u_k, u_kp1)
            else Ok (u_k, u_kp1, u_kp2))
         (setZero M, setZero M, setZero M) ;;
  let '(u_k, u_kp1, u_kp2) := s in
  d <- array_minus u_k u_kp2 ;;
  Ok (map (fun u => (u / of_Z 2)%Qc) d).

(** [Clenshaw2DEigen(a, x, y)]. *)
Definition Clenshaw2DEigen (a : MatrixXd) (x y : double) : result double :=
  b <- Clenshaw1DByRow a y ;;
  Clenshaw1D b x.

(* ================================================================== *)
(** * Exact stand-ins for the numerical library

    Closed instances of what the class takes from outside, used to run the
    members on concrete expansions.  The square root and the solve are exact
    where the exact answer is rational; the cosine is a table. *)

Module Exact.

(** Fresh storage holds zeros here. *)
Definition uninitialized (_ : Z) : double := 0%Qc.

(** [sqrt], exact on the squares of rationals. *)
Definition sqrt (x : double) : double :=
  Q2Qc (Z.sqrt (Qnum x) # Pos.sqrt (Qden x)).

(** [cos(k*EIGEN_PI/n)] at the angles [0], [pi/3], [pi/2], [2pi/3] and
    [pi], the only ones the runs below ask for: [1] and [-1] at [0] and
    [pi], as [<cmath>] has them; [1/2] and [-1/2] at [pi/3] and [2pi/3],
    which [<cmath>] has within two units in the last place; and at [pi/2],
    where [EIGEN_PI/2] is not the zero of the cosine and the sign of a
    sample is decided, the [double] that [<cmath>] returns,
    [6.123233995736766e-17 = 4967757600021511 / 2^106].  Other angles are
    not tabulated (the value there is [0]). *)
Definition cos_pi (k n : Z) : double :=
  if (k =? 0)%Z then of_Z 1
  else if (k =? n)%Z then of_Z (-1)
  else if (2 * k =? n)%Z then Q2Qc (4967757600021511 # 2 ^ 106)
  else if (3 * k =? n)%Z then half
  else if (3 * k =? 2 * n)%Z then (- half)%Qc
  else 0%Qc.

Definition det3 (A : Matrix3d) : double :=
  let '((a11, a12, a13), (a21, a22, a23), (a31, a32, a33)) := A in
  (a11 * (a22 * a33 - a23 * a32) - a12 * (a21 * a33 - a23 * a31)
   + a13 * (a21 * a32 - a22 * a31))%Qc.

(** The solution of [A x = r] by Cramer's rule. *)
Definition colPivHouseholderQr_solve (A : Matrix3d) (r : Vector3d) : Vector3d :=
  let '((a11, a12, a13), (a21, a22, a23), (a31, a32, a33)) := A in
  let '(r1, r2, r3) := r in
  let d := det3 A in
  ((det3 ((r1, a12, a13), (r2, a22, a23), (r3, a32, a33)) / d)%Qc,
   (det3 ((a11, r1, a13), (a21, r2, a23), (a31, r3, a33)) / d)%Qc,
   (det3 ((a11, a12, r1), (a21, a22, r2), (a31, a32, r3)) / d)%Qc).

(** The eigenvalues of a 2-by-2 matrix from its trace and determinant;
    no eigenvalue is produced for other sizes. *)
Definition eigenvalues (A : MatrixXd) : list complex :=
  if (rows A =? 2)%Z && (cols A =? 2)%Z then
    let t := (at_ A 0 0 + at_ A 1 1)%Qc in
    let d := (at_ A 0 0 * at_ A 1 1 - at_ A 0 1 * at_ A 1 0)%Qc in
    let disc := (t * t - of_Z 4 * d)%Qc in
    if ltb disc 0%Qc then
      [Complex (t / of_Z 2)%Qc (sqrt (- disc) / of_Z 2)%Qc;
       Complex (t / of_Z 2)%Qc (- (sqrt (- disc) / of_Z 2))%Qc]
    else
      [Complex ((t + sqrt disc) / of_Z 2)%Qc 0%Qc;
       Complex ((t - sqrt disc) / of_Z 2)%Qc 0%Qc]
  else [].

End Exact.

(* ================================================================== *)
(** * The quantities the specification speaks of *)

(** The Chebyshev polynomials of the first kind: [T_0 = 1], [T_1 = x],
    [T_{k+1} = 2x T_k - T_{k-1}]. *)
Fixpoint chebyshev_T (n : nat) (x : double) : double :=
  match n with
  | O => 1%Qc
  | Datatypes.S m =>
      match m with
      | O => x
      | Datatypes.S k => (of_Z 2 * x * chebyshev_T m x - chebyshev_T k x)%Qc
      end
  end.

(** The canonical-basis sum [c[0] T_0(t) + ... + c[N] T_N(t)]. *)
Definition basis_sum (c : VectorXd) (t : double) : double :=
  fold_left (fun acc p => (acc + fst p * snd p)%Qc)
    (combine c (map (fun k => chebyshev_T k t) (seq 0 (length c)))) 0%Qc.

(** The companion matrix in the words of the specification, for the
    coefficients [c[0..N]]: first row [[0,1,0,...]]; interior rows with
    [0.5] next to the diagonal on either side; last row with [0.5] at
    position [N-2] plus the correction [-c[k]/(2c[N])] at every position. *)
Definition companion_spec (c : VectorXd) (N i j : Z) : double :=
  if (i =? N - 1)%Z then
    ((if (j =? N - 2)%Z then half else 0)
     - nth (Z.to_nat j) c 0 / (of_Z 2 * nth (Z.to_nat N) c 0))%Qc
  else if (i =? 0)%Z then
    (if (j =? 1)%Z then 1%Qc else 0%Qc)
  else
    (if (j =? i - 1)%Z || (j =? i + 1)%Z then half else 0%Qc).

(** The matrix after the first two assignments and [k] turns of the loop
    over the last row. *)
Definition after_last_row (c : VectorXd) (N k i j : Z) : double :=
  if (i =? N - 1)%Z then
    (if (j <? k)%Z then companion_spec c N i j
     else if (j =? N - 2)%Z then half else 0%Qc)
  else if (i =? 0)%Z && (j =? 1)%Z then 1%Qc else 0%Qc.

(** The matrix after the rows below [r] of the last loop. *)
Definition after_rows (c : VectorXd) (N r i j : Z) : double :=
  if (1 <=? i)%Z && (i <? r)%Z then companion_spec c N i j
  else after_last_row c N N i j.

(** The roots the specification reads off a list of eigenvalues: those
    whose imaginary part is below the tolerance in absolute value, mapped
    to real-world coordinates, and, with [only_in_domain], only those in
    [[xmin, xmax]]. *)
Definition roots_of_eigenvalues (xmin xmax : double) (only_in_domain : bool)
  (eigvals : list complex) : list double :=
  filter (fun x => negb only_in_domain || (leb xmin x && leb x xmax))
    (map (fun ev => to_realworld xmin xmax (real ev))
       (filter (fun ev => ltb (Qcabs (imag ev)) (of_Z 10 * DBL_EPSILON)%Qc)
          eigvals)).

(** The product in the words of the specification: the pair
    [(c1[i], c2[j])] contributes [c1[i]*c2[j]/2] to the output index [i+j]
    and to the output index [|i-j|]; coefficient [k] of the product is the
    sum of what all pairs contribute to [k]. *)
Definition contribution (k i j : nat) (c1_i c2_j : double) : double :=
  ((if Nat.eqb k (i + j) then c1_i * c2_j / of_Z 2 else 0)
   + (if Nat.eqb k (Nat.max i j - Nat.min i j) then c1_i * c2_j / of_Z 2 else 0))%Qc.

Definition qsum (l : list double) : double := fold_right Qcplus 0%Qc l.

Definition indexed (c : VectorXd) : list (nat * double) :=
  combine (seq 0 (length c)) c.

Definition product_coefficient (c1 c2 : VectorXd) (k : nat) : double :=
  qsum (map (fun ic =>
               qsum (map (fun jc => contribution k (fst ic) (fst jc)
                                      (snd ic) (snd jc))
                       (indexed c2)))
          (indexed c1)).

(** What [real_roots_approx] pushes for a change of sign between the
    sample points [lo] and [hi]: the real-world image of a point of the
    closed interval between them, or of the value [1e99]. *)
Definition bracketed_or_sentinel (xmin xmax lo hi x : double) : Prop :=
  exists xscaled,
    x = to_realworld xmin xmax xscaled /\
    (is_in_closed_range lo hi xscaled = true \/ xscaled = sentinel_1e99).

(** The two roots of the quadratic that [real_roots_approx] fits for the
    bracket at index [i]: through the samples at [i0], [i0+1] and [i0+2],
    where [i0] is [i-1] for [i >= 1] and [i] otherwise. *)
Definition fitted_roots (sqrt : double -> double)
  (colPivHouseholderQr_solve : Matrix3d -> Vector3d -> Vector3d)
  (xpts ypts : Z -> double) (i : Z) : double * double :=
  let i0 := if (1 <=? i)%Z then (i - 1)%Z else i in
  let x_0 := xpts i0 in
  let x_1 := xpts (i0 + 1)%Z in
  let x_2 := xpts (i0 + 2)%Z in
  let A : Matrix3d := ((x_0 * x_0, x_0, 1), (x_1 * x_1, x_1, 1),
                       (x_2 * x_2, x_2, 1))%Qc in
  let '(a, b, c) :=
    colPivHouseholderQr_solve A (ypts i0, ypts (i0 + 1)%Z, ypts (i0 + 2)%Z) in
  (quadratic_x1 sqrt a b c, quadratic_x2 sqrt a b c).

(** The value of a member, without the updated object. *)
Definition value_of {A B} (r : result (A * B)) : result A :=
  match r with
  | Ok ab => Ok (fst ab)
  | Throw e => Throw e
  end.

(** Decidable equality of returned lists of numbers, to check runs. *)
Fixpoint list_eqb (l l' : list double) : bool :=
  match l, l' with
  | [], [] => true
  | x :: t, x' :: t' => Qeq_bool x x' && list_eqb t t'
  | _, _ => false
  end.

Definition roots_eqb (r r' : result (list double)) : bool :=
  match r, r' with
  | Ok l, Ok l' => list_eqb l l'
  | _, _ => false
  end.

(** Whether the expansion changes sign between the sample points [i] and
    [i+1] of [real_roots_approx]. *)
Definition sign_change (c : VectorXd) (cos_pi : Z -> Z -> double)
  (Npoints i : Z) : bool :=
  negb (Bool.eqb (signbit (basis_sum c (cos_pi i Npoints)))
                 (signbit (basis_sum c (cos_pi (i + 1)%Z Npoints)))).

(** Coefficient [j] of the generated expansion: row [j] of [L] times the
    function values at the grid points. *)
Definition generated_coefficient (cos_pi : Z -> Z -> double) (N : Z)
  (func : double -> double) (xmin xmax : double) (j : Z) : double :=
  qsum (map (fun k => (L_entry cos_pi N j k
                       * func (grid_point cos_pi N xmin xmax k))%Qc)
          (zrange 0 (Z.to_nat (N + 1)))).

(** The sum [c[0]/2 + c[1] T_1(t) + ... + c[N] T_N(t)]: the canonical-basis
    sum with the first coefficient halved. *)
Definition halved_first_sum (c : VectorXd) (t : double) : double :=
  (basis_sum c t - nth 0 c 0 / of_Z 2)%Qc.

(** Clenshaw's recurrence [b_k = 2x b_{k+1} - b_{k+2} + c_k] with
    [b_{N+1} = b_{N+2} = 0]: the pair [(b_0, b_1)] for the coefficients [l],
    and [b_k] for the coefficients from index [k] on. *)
Fixpoint clenshaw_b (l : list double) (x : double) : double * double :=
  match l with
  | [] => (0%Qc, 0%Qc)
  | c :: t => let b := clenshaw_b t x in
              ((of_Z 2 * x * fst b - snd b + c)%Qc, fst b)
  end.

Definition clenshaw_u (c : VectorXd) (x : double) (k : Z) : double :=
  fst (clenshaw_b (skipn (Z.to_nat k) c) x).

(** The sum [l[0] T_m(x) + l[1] T_{m+1}(x) + ...]. *)
Fixpoint shifted_sum (l : list double) (m : nat) (x : double) : double :=
  match l with
  | [] => 0%Qc
  | c :: t => (c * chebyshev_T m x + shifted_sum t (Datatypes.S m) x)%Qc
  end.

(** Column [j] of a matrix of coefficients. *)
Definition column (a : MatrixXd) (j : Z) : VectorXd :=
  map (fun i => at_ a i j) (zrange 0 (Z.to_nat (rows a))).

(* ================================================================== *)
(** * Basic facts: comparisons, lists, loops *)

Lemma ltb_lt (x y : double) : ltb x y = true <-> (x < y)%Qc.
Proof.
  unfold ltb. rewrite Qclt_alt.
  destruct (x ?= y)%Qc; split; intro H; try reflexivity; discriminate H.
Qed.

Lemma leb_le (x y : double) : leb x y = true <-> (x <= y)%Qc.
Proof.
  unfold leb. rewrite Qcle_alt.
  destruct (x ?= y)%Qc; split; intro H; try reflexivity;
    try discriminate H; try (intro H'; discriminate H').
  exfalso. apply H. reflexivity.
Qed.

Lemma std_min_le_l (a b : double) : (std_min a b <= a)%Qc.
Proof.
  unfold std_min. destruct (ltb b a) eqn:E.
  - apply Qclt_le_weak, ltb_lt, E.
  - apply Qcle_refl.
Qed.

Lemma std_min_le_r (a b : double) : (std_min a b <= b)%Qc.
Proof.
  unfold std_min. destruct (ltb b a) eqn:E.
  - apply Qcle_refl.
  - apply Qcnot_lt_le. intro H. apply ltb_lt in H. congruence.
Qed.

Lemma std_max_ge_l (a b : double) : (a <= std_max a b)%Qc.
Proof.
  unfold std_max. destruct (ltb a b) eqn:E.
  - apply Qclt_le_weak, ltb_lt, E.
  - apply Qcle_refl.
Qed.

Lemma std_max_ge_r (a b : double) : (b <= std_max a b)%Qc.
Proof.
  unfold std_max. destruct (ltb a b) eqn:E.
  - apply Qcle_refl.
  - apply Qcnot_lt_le. intro H. apply ltb_lt in H. congruence.
Qed.



Lemma is_in_closed_range_spec (x1 x2 x : double) :
  is_in_closed_range x1 x2 x = true <->
  (std_min x1 x2 <= x)%Qc /\ (x <= std_max x1 x2)%Qc.
Proof.
  unfold is_in_closed_range. rewrite andb_true_iff, !leb_le. tauto.
Qed.

Lemma size_nonneg (v : VectorXd) : (0 <= size v)%Z.
Proof. unfold size. lia. Qed.

Lemma length_update {A} (l : list A) (n : nat) (x : A) :
  length (update l n x) = length l.
Proof.
  revert n. induction l as [|h t IH]; intros [|n]; simpl; auto.
Qed.

Lemma nth_update {A} (l : list A) (n m : nat) (x d : A) :
  (n < length l)%nat ->
  nth m (update l n x) d = if Nat.eqb m n then x else nth m l d.
Proof.
  revert n m. induction l as [|h t IH]; intros n m Hn; simpl in Hn.
  - lia.
  - destruct n as [|n], m as [|m]; simpl; auto.
    apply IH. lia.
Qed.

Lemma update_out_of_range {A} (l : list A) (n : nat) (x : A) :
  (length l <= n)%nat -> update l n x = l.
Proof.
  revert n. induction l as [|h t IH]; intros n Hn; simpl in *.
  - reflexivity.
  - destruct n as [|n]; [lia|]. f_equal. apply IH. lia.
Qed.

Lemma size_update (v : VectorXd) (n : nat) (x : double) :
  size (update v n x) = size v.
Proof. unfold size. now rewrite length_update. Qed.

Lemma length_zrange (lo : Z) (n : nat) : length (zrange lo n) = n.
Proof. revert lo. induction n; intros; simpl; auto. Qed.

Lemma nth_zrange (lo : Z) (n k : nat) (d : Z) :
  (k < n)%nat -> nth k (zrange lo n) d = (lo + Z.of_nat k)%Z.
Proof.
  revert lo k. induction n as [|n IH]; intros lo k Hk; [lia|].
  destruct k as [|k]; simpl.
  - cbn. lia.
  - rewrite IH by lia. lia.
Qed.

Lemma in_zrange (lo : Z) (n : nat) (z : Z) :
  In z (zrange lo n) <-> (lo <= z < lo + Z.of_nat n)%Z.
Proof.
  revert lo. induction n as [|n IH]; intros lo; simpl.
  - lia.
  - rewrite IH. lia.
Qed.

Lemma in_range_true (i n : Z) : in_range i n = true <-> (0 <= i < n)%Z.
Proof. unfold in_range. rewrite andb_true_iff. lia. Qed.

Lemma in_range_false (i n : Z) : in_range i n = false <-> ~ (0 <= i < n)%Z.
Proof.
  rewrite <- in_range_true. destruct (in_range i n); split; intro H;
    try reflexivity; try discriminate; try congruence.
Qed.

(** A loop whose body keeps an invariant runs to the end. *)
Lemma for_loop_invariant {S} (P : Z -> S -> Prop) (count : nat) (lo : Z)
  (body : Z -> S -> result S) (s : S) :
  P lo s ->
  (forall i s, (lo <= i < lo + Z.of_nat count)%Z -> P i s ->
               exists s', body i s = Ok s' /\ P (i + 1)%Z s') ->
  exists s', for_loop count lo body s = Ok s' /\ P (lo + Z.of_nat count)%Z s'.
Proof.
  revert lo s. induction count as [|n IH]; intros lo s H0 Hstep.
  - exists s. split; [reflexivity|]. replace (lo + Z.of_nat 0)%Z with lo by lia.
    exact H0.
  - destruct (Hstep lo s) as [s1 [E1 P1]]; [lia | exact H0 |].
    destruct (IH (lo + 1)%Z s1 P1) as [s2 [E2 P2]].
    + intros i s' Hi. apply Hstep. lia.
    + exists s2. split.
      * simpl. rewrite E1. simpl. exact E2.
      * replace (lo + Z.of_nat (Datatypes.S n))%Z
          with (lo + 1 + Z.of_nat n)%Z by lia.
        exact P2.
Qed.

Lemma to_size_t_nonneg (z : Z) : (0 <= z)%Z -> to_size_t z = z.
Proof.
  intro H. unfold to_size_t. destruct (Z.ltb_spec z 0); [lia | reflexivity].
Qed.

(** Two rationals are told apart by their canonical forms. *)
Lemma Qc_neq (x y : Qc) : Qeq_bool x y = false -> x <> y.
Proof.
  intros H E. subst y. rewrite (proj2 (Qeq_bool_iff x x) (Qeq_refl x)) in H.
  discriminate H.
Qed.

Lemma Qc_eq (x y : Qc) : Qeq_bool x y = true -> x = y.
Proof. intro H. apply Qc_is_canon, Qeq_bool_iff, H. Qed.

Lemma list_eqb_eq (l l' : list double) : list_eqb l l' = true -> l = l'.
Proof.
  revert l'. induction l as [|x t IH]; intros [|x' t'] H; simpl in H;
    try discriminate; [reflexivity|].
  apply andb_true_iff in H. destruct H as [Hx Ht].
  f_equal; [now apply Qc_eq | now apply IH].
Qed.

Lemma list_eq (l l' : list double) : map this l = map this l' -> l = l'.
Proof.
  revert l'. induction l as [|x t IH]; intros [|x' t'] H; simpl in H;
    try discriminate; [reflexivity|].
  injection H as Hx Ht. f_equal; [|now apply IH].
  apply Qc_is_canon. now rewrite Hx.
Qed.

Lemma rows_eq (m m' : list (list double)) :
  map (map this) m = map (map this) m' -> m = m'.
Proof.
  revert m'. induction m as [|r t IH]; intros [|r' t'] H; simpl in H;
    try discriminate; [reflexivity|].
  injection H as Hr Ht. f_equal; [now apply list_eq | now apply IH].
Qed.

Lemma roots_eqb_eq (r r' : result (list double)) :
  roots_eqb r r' = true -> r = r'.
Proof.
  destruct r as [l|e], r' as [l'|e']; simpl; intro H; try discriminate.
  f_equal. now apply list_eqb_eq.
Qed.

(** ** Accesses in range *)

Lemma coeff_in_range (v : VectorXd) (i : Z) :
  (0 <= i < size v)%Z -> coeff v i = Ok (nth (Z.to_nat i) v 0%Qc).
Proof.
  intro H. unfold coeff. now rewrite (proj2 (in_range_true i (size v)) H).
Qed.

Lemma coeffRef_in_range (v : VectorXd) (i : Z) (x : double) :
  (0 <= i < size v)%Z -> coeffRef v i x = Ok (update v (Z.to_nat i) x).
Proof.
  intro H. unfold coeffRef. now rewrite (proj2 (in_range_true i (size v)) H).
Qed.

Lemma mcoeff_in_range (A : MatrixXd) (i j : Z) :
  (0 <= i < rows A)%Z -> (0 <= j < cols A)%Z -> mcoeff A i j = Ok (at_ A i j).
Proof.
  intros Hi Hj. unfold mcoeff.
  now rewrite (proj2 (in_range_true _ _) Hi), (proj2 (in_range_true _ _) Hj).
Qed.

Lemma mcoeffRef_in_range (A : MatrixXd) (i j : Z) (x : double) :
  (0 <= i < rows A)%Z -> (0 <= j < cols A)%Z ->
  mcoeffRef A i j x
  = Ok (Matrix (rows A) (cols A)
          (fun i' j' => if (i' =? i)%Z && (j' =? j)%Z then x else at_ A i' j')).
Proof.
  intros Hi Hj. unfold mcoeffRef.
  now rewrite (proj2 (in_range_true _ _) Hi), (proj2 (in_range_true _ _) Hj).
Qed.

(** Case analysis on the integer tests of a goal. *)
Ltac zcases :=
  repeat match goal with
  | |- context [(?a =? ?b)%Z] => destruct (Z.eqb_spec a b)
  | |- context [(?a <? ?b)%Z] => destruct (Z.ltb_spec a b)
  | |- context [(?a <=? ?b)%Z] => destruct (Z.leb_spec a b)
  end; cbn [andb orb negb]; try lia; try reflexivity.

Lemma col_in_range (A : MatrixXd) (j : Z) :
  (0 <= j < cols A)%Z ->
  col A j = Ok (map (fun i => at_ A i j) (zrange 0 (Z.to_nat (rows A)))).
Proof.
  intro H. unfold col. now rewrite (proj2 (in_range_true _ _) H).
Qed.

Lemma col_fill_in_range (A : MatrixXd) (j : Z) (x : double) :
  (0 <= j < cols A)%Z ->
  col_fill A j x
  = Ok (Matrix (rows A) (cols A)
          (fun i' j' => if (j' =? j)%Z then x else at_ A i' j')).
Proof.
  intro H. unfold col_fill. now rewrite (proj2 (in_range_true _ _) H).
Qed.

Lemma col_assign_in_range (A : MatrixXd) (j : Z) (v : VectorXd) :
  (0 <= j < cols A)%Z -> size v = rows A ->
  col_assign A j v
  = Ok (Matrix (rows A) (cols A)
          (fun i' j' => if (j' =? j)%Z then nth (Z.to_nat i') v 0%Qc
                        else at_ A i' j')).
Proof.
  intros H Hs. unfold col_assign.
  now rewrite (proj2 (in_range_true _ _) H), Hs, Z.eqb_refl.
Qed.

(** ** Ranges and sums over lists *)

Lemma zrange_seq (lo : Z) (n : nat) :
  zrange lo n = map (fun k => (lo + Z.of_nat k)%Z) (seq 0 n).
Proof.
  revert lo. induction n as [|n IH]; intro lo; [reflexivity|].
  simpl. f_equal; [lia|]. rewrite IH, <- seq_shift, map_map.
  apply map_ext. intro k. lia.
Qed.

Lemma nth_map_zrange (f : Z -> double) (n k : nat) :
  (k < n)%nat -> nth k (map f (zrange 0 n)) 0%Qc = f (Z.of_nat k).
Proof.
  intro H. rewrite (nth_indep _ 0%Qc (f 0%Z)) by (now rewrite length_map, length_zrange).
  rewrite map_nth, nth_zrange by exact H. reflexivity.
Qed.

Lemma nth_recurrence_column (xs a b : list double) (k : nat) :
  (k < length xs)%nat -> (k < length a)%nat -> (k < length b)%nat ->
  nth k (map (fun p => (of_Z 2 * fst (fst p) * snd (fst p) - snd p)%Qc)
           (combine (combine xs a) b)) 0%Qc
  = (of_Z 2 * nth k xs 0 * nth k a 0 - nth k b 0)%Qc.
Proof.
  revert a b k. induction xs as [|x xs IH]; intros a b k H1 H2 H3;
    simpl in H1; [lia|].
  destruct a as [|a0 a]; simpl in H2; [lia|].
  destruct b as [|b0 b]; simpl in H3; [lia|].
  destruct k as [|k]; simpl; [reflexivity|]. apply IH; lia.
Qed.

Lemma fold_dot_swap (u v : list double) (acc : double) :
  fold_left (fun acc p => (acc + fst p * snd p)%Qc) (combine u v) acc
  = fold_left (fun acc p => (acc + fst p * snd p)%Qc) (combine v u) acc.
Proof.
  revert v acc. induction u as [|a u IH]; intros [|b v] acc; simpl; auto.
  rewrite (Qcmult_comm a b). apply IH.
Qed.

Lemma map_nth_zrange (h : double -> double) (xs : list double) :
  map (fun i => h (nth (Z.to_nat i) xs 0%Qc)) (zrange 0 (length xs)) = map h xs.
Proof.
  rewrite zrange_seq, map_map.
  apply (nth_ext _ _ (h 0%Qc) (h 0%Qc)).
  - now rewrite !length_map, length_seq.
  - intros k Hk. rewrite length_map, length_seq in Hk.
    rewrite (map_nth h).
    rewrite (nth_indep _ (h 0%Qc)
               ((fun x => h (nth (Z.to_nat (0 + Z.of_nat x)) xs 0%Qc)) 0%nat))
      by (now rewrite length_map, length_seq).
    rewrite (map_nth (fun x => h (nth (Z.to_nat (0 + Z.of_nat x)) xs 0%Qc))).
    rewrite seq_nth by exact Hk. f_equal. f_equal. lia.
Qed.

(* ================================================================== *)
(** * Construction and the domain *)

Section Construction.

Variable uninitialized : Z -> double.

Lemma construct_fields (c : VectorXd) (xmin xmax : double) :
  m_xmin (construct uninitialized c xmin xmax) = xmin /\
  m_xmax (construct uninitialized c xmin xmax) = xmax /\
  m_c (construct uninitialized c xmin xmax) = c /\
  size (m_recurrence_buffer (construct uninitialized c xmin xmax)) = size c.
Proof.
  repeat split. unfold construct, resize, set_m_recurrence_buffer.
  simpl. unfold Eigen.resize. destruct (size c =? size empty_vector)%Z eqn:E.
  - apply Z.eqb_eq in E. now rewrite E.
  - unfold size at 1. rewrite length_map, length_zrange.
    pose proof (size_nonneg c). lia.
Qed.

(** C8, as the sources have it: the constructors of both classes store the
    coefficients and the two bounds as they are given, whatever the order of
    the bounds; construction does not fail. *)
Theorem construct_stores_bounds (c : VectorXd) (xmin xmax : double) :
  (m_xmin (construct uninitialized c xmin xmax) = xmin /\
   m_xmax (construct uninitialized c xmin xmax) = xmax /\
   coef (construct uninitialized c xmin xmax) = c) /\
  (ChebTools.xmin (ChebTools.construct uninitialized c xmin xmax) = xmin /\
   ChebTools.xmax (ChebTools.construct uninitialized c xmin xmax) = xmax /\
   ChebTools.coef (ChebTools.construct uninitialized c xmin xmax) = c).
Proof. repeat split. Qed.

(** The scalar products of main.cpp build their result with the default
    bounds. *)
Lemma operator_times_default_domain (this : ChebyshevExpansion) (value : double) :
  m_xmin (operator_times uninitialized this value) = default_xmin /\
  m_xmax (operator_times uninitialized this value) = default_xmax /\
  m_xmin (friend_operator_times uninitialized value this) = default_xmin /\
  m_xmax (friend_operator_times uninitialized value this) = default_xmax.
Proof. repeat split. Qed.

Lemma operator_times_coef (this : ChebyshevExpansion) (value : double) :
  coef (operator_times uninitialized this value) = scale (coef this) value /\
  coef (friend_operator_times uninitialized value this) = scale (coef this) value /\
  coef (operator_times_assign this value) = scale (coef this) value.
Proof. repeat split. Qed.

(** The in-place product and the friend of ChebTools.h keep the bounds. *)
Lemma operator_times_assign_domain (this : ChebyshevExpansion) (value : double) :
  m_xmin (operator_times_assign this value) = m_xmin this /\
  m_xmax (operator_times_assign this value) = m_xmax this.
Proof. split; reflexivity. Qed.

Lemma header_friend_operator_times_domain (value : double)
  (ce : ChebTools.ChebyshevExpansion) :
  ChebTools.xmin (ChebTools.friend_operator_times uninitialized value ce)
    = ChebTools.xmin ce /\
  ChebTools.xmax (ChebTools.friend_operator_times uninitialized value ce)
    = ChebTools.xmax ce.
Proof. split; reflexivity. Qed.

(** C9 at [A] with coefficients [1, 2] on [[0.1, 3.8]] and [s = 2]: both
    [A*s] and [s*A] of main.cpp come back on [[-1, 1]], not on the domain
    of [A]. *)
Theorem scalar_product_loses_domain :
  let A := construct uninitialized [of_Z 1; of_Z 2] (ratio 1 10) (ratio 38 10) in
  let s := of_Z 2 in
  m_xmin (operator_times uninitialized A s) = of_Z (-1) /\
  m_xmax (operator_times uninitialized A s) = of_Z 1 /\
  m_xmin (friend_operator_times uninitialized s A) = of_Z (-1) /\
  m_xmax (friend_operator_times uninitialized s A) = of_Z 1 /\
  m_xmin (operator_times uninitialized A s) <> m_xmin A /\
  m_xmax (operator_times uninitialized A s) <> m_xmax A.
Proof.
  cbv zeta. repeat split; apply Qc_neq; reflexivity.
Qed.

End Construction.

(** C8 as stated fails: built with [xmin = 1] and [xmax = -1], the expansion
    exists and its domain is inverted. *)
Lemma construct_accepts_inverted_domain :
  let e := construct Exact.uninitialized [of_Z 1] (of_Z 1) (of_Z (-1)) in
  (m_xmax e < m_xmin e)%Qc /\
  let e' := ChebTools.construct Exact.uninitialized [of_Z 1] (of_Z 1) (of_Z (-1)) in
  (ChebTools.xmax e' < ChebTools.xmin e')%Qc.
Proof. split; reflexivity. Qed.

(* ================================================================== *)
(** * Sums of expansions *)

Section Sums.

Variable uninitialized : Z -> double.

Lemma combine_firstn_l {A B} (l : list A) (l' : list B) :
  (length l' <= length l)%nat ->
  combine (firstn (length l') l) l' = combine l l'.
Proof.
  revert l. induction l' as [|b t IH]; intros l H; simpl.
  - now destruct l.
  - destruct l as [|a l]; simpl in *; [lia|]. f_equal. apply IH. lia.
Qed.

Lemma nth_map_combine_sum (u v : list double) (k : nat) :
  (k < length u)%nat -> (k < length v)%nat ->
  nth k (map (fun p => (fst p + snd p)%Qc) (combine u v)) 0%Qc
  = (nth k u 0 + nth k v 0)%Qc.
Proof.
  revert v k. induction u as [|a u IH]; intros v k Hu Hv; simpl in *; [lia|].
  destruct v as [|b v]; simpl in *; [lia|].
  destruct k as [|k]; simpl; [reflexivity|]. apply IH; lia.
Qed.

Lemma zrange_firstn (lo : Z) (n m : nat) :
  (m <= n)%nat -> firstn m (zrange lo n) = zrange lo m.
Proof.
  revert lo m. induction n as [|n IH]; intros lo m H.
  - destruct m; [reflexivity | lia].
  - destruct m as [|m]; [reflexivity|]. simpl. f_equal. apply IH. lia.
Qed.

(** The binary sum refuses operands of different lengths. *)
Lemma operator_plus_different_lengths (this ce2 : ChebyshevExpansion) :
  size (coef this) <> size (coef ce2) ->
  operator_plus uninitialized this ce2
  = Throw (std_exception "lengths not the same").
Proof.
  intro H. unfold operator_plus, coef in *.
  destruct (size (m_c this) =? size (m_c ce2))%Z eqn:E; [|reflexivity].
  apply Z.eqb_eq in E. contradiction.
Qed.

(** With equal lengths the binary sum adds coefficient by coefficient; the
    result is built with the default bounds. *)
Lemma operator_plus_same_length (this ce2 : ChebyshevExpansion) :
  size (coef this) = size (coef ce2) ->
  exists e, operator_plus uninitialized this ce2 = Ok e /\
    size (coef e) = size (coef this) /\
    (forall k, (k < length (coef this))%nat ->
       nth k (coef e) 0%Qc = (nth k (coef ce2) 0 + nth k (coef this) 0)%Qc) /\
    m_xmin e = default_xmin /\ m_xmax e = default_xmax.
Proof.
  intro H. unfold operator_plus, coef, plus in *. rewrite H, Z.eqb_refl. simpl.
  eexists. split; [reflexivity|]. simpl.
  assert (HL : length (m_c ce2) = length (m_c this)) by (unfold size in H; lia).
  repeat split.
  - unfold size. rewrite length_map, length_combine. lia.
  - intros k Hk. apply nth_map_combine_sum; lia.
Qed.

(** The in-place sum with a donor that is not longer: the first [Ndonor]
    coefficients are the sums, the others stay, the bounds stay. *)
Lemma operator_plus_assign_not_longer (this donor : ChebyshevExpansion) :
  (size (coef donor) <= size (coef this))%Z ->
  exists e, operator_plus_assign uninitialized this donor = Ok e /\
    size (coef e) = size (coef this) /\
    (forall k, (k < length (coef donor))%nat ->
       nth k (coef e) 0%Qc = (nth k (coef this) 0 + nth k (coef donor) 0)%Qc) /\
    (forall k, (length (coef donor) <= k)%nat ->
       nth k (coef e) 0%Qc = nth k (coef this) 0%Qc) /\
    m_xmin e = m_xmin this /\ m_xmax e = m_xmax this.
Proof.
  intro H. unfold operator_plus_assign, coef in *.
  set (c := m_c this) in *. set (d := m_c donor) in *.
  assert (HL : (length d <= length c)%nat) by (unfold size in H; lia).
  rewrite (Z.min_r _ _ H).
  unfold head. pose proof (size_nonneg d) as Hd.
  replace ((0 <=? size d)%Z && (size d <=? size c)%Z) with true
    by (symmetry; apply andb_true_iff; lia).
  replace ((0 <=? size d)%Z && (size d <=? size d)%Z) with true
    by (symmetry; apply andb_true_iff; lia).
  simpl. unfold plus.
  assert (Hn : Z.to_nat (size d) = length d) by (unfold size; lia).
  rewrite Hn, firstn_all.
  assert (Hf : size (firstn (length d) c) = size d).
  { unfold size. rewrite length_firstn. lia. }
  rewrite Hf, Z.eqb_refl. simpl. unfold set_head.
  replace ((0 <=? size d)%Z && (size d <=? size c)%Z) with true
    by (symmetry; apply andb_true_iff; lia).
  assert (Hs : size (map (fun p : Qc * Qc => (fst p + snd p)%Qc)
                       (combine (firstn (length d) c) d)) = size d).
  { unfold size. rewrite length_map, length_combine, length_firstn. lia. }
  rewrite Hs, Z.eqb_refl, Hn.
  replace (size d >? size c)%Z with false by (symmetry; rewrite Z.gtb_ltb; apply Z.ltb_ge; lia).
  eexists. split; [reflexivity|]. simpl.
  rewrite combine_firstn_l by exact HL.
  repeat split.
  - unfold size. rewrite length_app, length_map, length_combine, length_skipn. lia.
  - intros k Hk. rewrite app_nth1 by (rewrite length_map, length_combine; lia).
    apply nth_map_combine_sum; lia.
  - intros k Hk. rewrite app_nth2 by (rewrite length_map, length_combine; lia).
    rewrite length_map, length_combine, nth_skipn. f_equal. lia.
Qed.

(** The in-place sum with a longer donor: [m_c.resize(Ndonor)] reallocates,
    so the sums just stored are lost; only the tail copied from the donor is
    determined. *)
Lemma operator_plus_assign_longer (this donor : ChebyshevExpansion) :
  (size (coef this) < size (coef donor))%Z ->
  exists e, operator_plus_assign uninitialized this donor = Ok e /\
    size (coef e) = size (coef donor) /\
    (forall k, (k < length (coef this))%nat ->
       nth k (coef e) 0%Qc = uninitialized (Z.of_nat k)) /\
    (forall k, (length (coef this) <= k)%nat ->
       nth k (coef e) 0%Qc = nth k (coef donor) 0%Qc).
Proof.
  intro H. unfold operator_plus_assign, coef in *.
  set (c := m_c this) in *. set (d := m_c donor) in *.
  assert (HL : (length c < length d)%nat) by (unfold size in H; lia).
  rewrite (Z.min_l (size c) (size d)) by lia.
  rewrite (Z.max_r (size c) (size d)) by lia.
  unfold head. pose proof (size_nonneg c) as Hc.
  replace ((0 <=? size c)%Z && (size c <=? size c)%Z) with true
    by (symmetry; apply andb_true_iff; lia).
  replace ((0 <=? size c)%Z && (size c <=? size d)%Z) with true
    by (symmetry; apply andb_true_iff; lia).
  simpl. unfold plus.
  assert (Hn : Z.to_nat (size c) = length c) by (unfold size; lia).
  rewrite Hn, firstn_all.
  assert (Hf : size (firstn (length c) d) = size c).
  { unfold size. rewrite length_firstn. lia. }
  rewrite Hf, Z.eqb_refl. simpl. unfold set_head.
  replace ((0 <=? size c)%Z && (size c <=? size c)%Z) with true
    by (symmetry; apply andb_true_iff; lia).
  assert (Hs : size (map (fun p : Qc * Qc => (fst p + snd p)%Qc)
                       (combine c (firstn (length c) d))) = size c).
  { unfold size. rewrite length_map, length_combine, length_firstn. lia. }
  rewrite Hs, Z.eqb_refl, Hn.
  replace (size d >? size c)%Z with true by (symmetry; rewrite Z.gtb_ltb; apply Z.ltb_lt; lia).
  rewrite skipn_all, app_nil_r. cbn [bind].
  unfold Eigen.resize. rewrite Hs.
  replace (size d =? size c)%Z with false by (symmetry; apply Z.eqb_neq; lia).
  unfold tail.
  replace ((0 <=? size d - size c)%Z && (size d - size c <=? size d)%Z) with true
    by (symmetry; apply andb_true_iff; lia).
  simpl. unfold set_tail.
  assert (Hu : size (map uninitialized (zrange 0 (Z.to_nat (size d)))) = size d).
  { unfold size. rewrite length_map, length_zrange. lia. }
  rewrite Hu.
  replace ((0 <=? size d - size c)%Z && (size d - size c <=? size d)%Z) with true
    by (symmetry; apply andb_true_iff; lia).
  replace (size d - (size d - size c))%Z with (size c) by lia. rewrite Hn.
  assert (Hk : size (skipn (length c) d) = (size d - size c)%Z).
  { unfold size. rewrite length_skipn. lia. }
  rewrite Hk, Z.eqb_refl.
  eexists. split; [reflexivity|]. simpl.
  assert (Hd : Z.to_nat (size d) = length d) by (unfold size; lia).
  rewrite Hd, firstn_map, zrange_firstn by lia.
  repeat split.
  - unfold size. rewrite length_app, length_map, length_zrange, length_skipn. lia.
  - intros k Hk'. rewrite app_nth1 by (rewrite length_map, length_zrange; lia).
    rewrite (nth_indep _ 0%Qc (uninitialized 0%Z))
      by (rewrite length_map, length_zrange; lia).
    rewrite map_nth, nth_zrange by lia. f_equal.
  - intros k Hk'. rewrite app_nth2 by (rewrite length_map, length_zrange; lia).
    rewrite length_map, length_zrange, nth_skipn. f_equal. lia.
Qed.

(** C2 on the sums of the test "Sums of expansions": [1, 2, 3, 4] and
    [0.1, 0.2, 0.3] on [[0.1, 3.8]].  The binary sum throws in either order;
    the in-place sum with the longer donor keeps only the donor's last
    coefficient, the three sums are replaced by whatever the new storage
    holds. *)
Theorem sum_of_different_lengths :
  let c4 := [of_Z 1; of_Z 2; of_Z 3; of_Z 4] in
  let c3 := [ratio 1 10; ratio 2 10; ratio 3 10] in
  let long := construct uninitialized c4 (ratio 1 10) (ratio 38 10) in
  let short := construct uninitialized c3 (ratio 1 10) (ratio 38 10) in
  operator_plus uninitialized long short
    = Throw (std_exception "lengths not the same") /\
  operator_plus uninitialized short long
    = Throw (std_exception "lengths not the same") /\
  exists e, operator_plus_assign uninitialized short long = Ok e /\
    coef e = [uninitialized 0%Z; uninitialized 1%Z; uninitialized 2%Z; of_Z 4].
Proof.
  cbv zeta. split; [reflexivity|]. split; [reflexivity|].
  eexists. split; reflexivity.
Qed.

End Sums.

(* ================================================================== *)
(** * Where the members leave the range of their buffers *)

Section Degenerate.

Variable uninitialized : Z -> double.
Variable eigenvalues : MatrixXd -> list complex.

(** A constant expansion: [o(1) = xscaled] addresses the second entry of a
    buffer of one. *)
Lemma y_constant (c0 xmin xmax x : double) :
  y (construct uninitialized [c0] xmin xmax) x = Throw index_out_of_range.
Proof. reflexivity. Qed.

(** A constant expansion: [A.col(1) = xscaled] addresses the second column of
    a matrix of one column. *)
Lemma y_xscaled_constant (c0 xmin xmax : double) (xscaled : VectorXd) :
  y_xscaled uninitialized (construct uninitialized [c0] xmin xmax) xscaled
  = Throw index_out_of_range.
Proof.
  unfold y_xscaled. simpl m_c. change (size [c0] - 1 + 1)%Z with 1%Z.
  unfold mresize.
  destruct (size xscaled * 1 =?
            rows (m_recurrence_buffer_matrix (construct uninitialized [c0] xmin xmax))
            * cols (m_recurrence_buffer_matrix (construct uninitialized [c0] xmin xmax)))%Z;
    reflexivity.
Qed.

(** C6 on main.cpp: for every constant expansion, neither the scalar nor
    the batched evaluation returns [c[0]]; both leave the range of the
    length-1 buffer at the [n = 1] term. *)
Theorem constant_expansion_evaluation (c0 xmin xmax : double) :
  (forall x, y (construct uninitialized [c0] xmin xmax) x
             = Throw index_out_of_range) /\
  (forall x, y_vector uninitialized (construct uninitialized [c0] xmin xmax) x
             = Throw index_out_of_range).
Proof.
  split; intro x.
  - apply y_constant.
  - unfold y_vector. apply y_xscaled_constant.
Qed.

(** With fewer than three coefficients [A(0, 1) = 1] is outside the
    companion matrix. *)
Lemma companion_matrix_linear (c0 c1 xmin xmax : double) :
  companion_matrix (construct uninitialized [c0; c1] xmin xmax)
  = Throw index_out_of_range.
Proof. reflexivity. Qed.

Lemma companion_matrix_constant (c0 xmin xmax : double) :
  companion_matrix (construct uninitialized [c0] xmin xmax)
  = Throw index_out_of_range.
Proof. reflexivity. Qed.

Lemma companion_matrix_empty (xmin xmax : double) :
  companion_matrix (construct uninitialized [] xmin xmax)
  = Throw negative_size.
Proof. reflexivity. Qed.

(** C3 on main.cpp: for every linear expansion [real_roots] ends in the
    range check of [A(0, 1)] on the 1-by-1 companion matrix; no root is
    returned, with or without the domain filter. *)
Theorem real_roots_linear (c0 c1 xmin xmax : double) (only_in_domain : bool) :
  real_roots eigenvalues (construct uninitialized [c0; c1] xmin xmax)
    only_in_domain = Throw index_out_of_range.
Proof. reflexivity. Qed.

(** C4 on main.cpp: for the all-zero expansions of one and of two
    coefficients [real_roots] does not return the empty set: it ends in the
    range check of [A(0, 1)]. *)
Theorem real_roots_all_zero (xmin xmax : double) (only_in_domain : bool) :
  real_roots eigenvalues (construct uninitialized [0%Qc; 0%Qc] xmin xmax)
    only_in_domain = Throw index_out_of_range /\
  real_roots eigenvalues (construct uninitialized [0%Qc] xmin xmax)
    only_in_domain = Throw index_out_of_range.
Proof. split; reflexivity. Qed.

End Degenerate.

(* ================================================================== *)
(** * The companion matrix and its eigenvalues *)

Section CompanionMatrix.

Variable uninitialized : Z -> double.
Variable eigenvalues : MatrixXd -> list complex.

Lemma companion_matrix_entries (this : ChebyshevExpansion) (N : Z) :
  size (m_c this) = (N + 1)%Z -> (2 <= N)%Z ->
  exists A, companion_matrix this = Ok A /\ rows A = N /\ cols A = N /\
    forall i j, (0 <= i < N)%Z -> (0 <= j < N)%Z ->
      at_ A i j = companion_spec (m_c this) N i j.
Proof.
  intros Hsize HN. unfold companion_matrix.
  set (c := m_c this) in *.
  replace (size c - 1)%Z with N by lia.
  rewrite !to_size_t_nonneg by lia.
  unfold Zero.
  replace ((0 <=? N)%Z && (0 <=? N)%Z) with true
    by (symmetry; apply andb_true_iff; lia).
  cbn [bind].
  rewrite mcoeffRef_in_range by (simpl; lia). cbn [bind rows cols at_].
  rewrite mcoeffRef_in_range by (simpl; lia). cbn [bind rows cols at_].
  (* the loop over the last row *)
  match goal with
  | |- context [for_loop (Z.to_nat N) 0 ?body ?s] =>
      destruct (@for_loop_invariant MatrixXd
                  (fun k A => rows A = N /\ cols A = N /\
                     forall i j, (0 <= i < N)%Z -> (0 <= j < N)%Z ->
                       at_ A i j = after_last_row c N k i j)
                  (Z.to_nat N) 0%Z body s) as [A1 [E1 [R1 [K1 F1]]]]
  end.
  - simpl. repeat split. intros i j Hi Hj. unfold after_last_row. zcases.
  - intros k A Hk [RA [CA FA]].
    rewrite !coeff_in_range by lia. cbn [bind].
    rewrite mcoeff_in_range by lia. cbn [bind].
    rewrite mcoeffRef_in_range by lia.
    eexists. split; [reflexivity|]. cbn [rows cols at_].
    repeat split; try assumption.
    intros i j Hi Hj. rewrite !FA by lia.
    unfold after_last_row, companion_spec. zcases.
    all: subst; zcases.
  - rewrite E1. cbn [bind]. rewrite Z2Nat.id in F1 by lia.
    replace (N - 1 - 1)%Z with (N - 2)%Z by lia.
    (* the loop over the interior rows *)
    match goal with
    | |- context [for_loop ?n 1 ?body ?s] =>
        destruct (@for_loop_invariant MatrixXd
                    (fun r A => rows A = N /\ cols A = N /\
                       forall i j, (0 <= i < N)%Z -> (0 <= j < N)%Z ->
                         at_ A i j = after_rows c N r i j)
                    n 1%Z body s) as [A2 [E2 [R2 [K2 F2]]]]
    end.
    + repeat split; try assumption. intros i j Hi Hj.
      rewrite F1 by lia. unfold after_rows. zcases.
    + intros r A Hr [RA [CA FA]].
      rewrite mcoeffRef_in_range by lia. cbn [bind].
      rewrite mcoeffRef_in_range by (cbn [rows cols]; lia).
      eexists. split; [reflexivity|]. cbn [rows cols at_].
      repeat split; try assumption.
      intros i j Hi Hj. rewrite !FA by lia.
      unfold after_rows, after_last_row, companion_spec. zcases.
    + exists A2. split; [exact E2|]. repeat split; try assumption.
      intros i j Hi Hj. rewrite F2 by lia.
      unfold after_rows, after_last_row, companion_spec. zcases.
Qed.

(** The loop of [real_roots] keeps, in order, the eigenvalues that pass the
    two tests. *)
Lemma real_roots_loop (this : ChebyshevExpansion) (only_in_domain : bool)
  (eigvals : list complex) (roots : list double) :
  fold_left (real_roots_step this only_in_domain) eigvals roots
  = roots ++ roots_of_eigenvalues (m_xmin this) (m_xmax this) only_in_domain
               eigvals.
Proof.
  revert roots. induction eigvals as [|ev l IH]; intro roots.
  - unfold roots_of_eigenvalues. simpl. now rewrite app_nil_r.
  - simpl fold_left. rewrite IH. unfold real_roots_step, roots_of_eigenvalues.
    cbn [filter map].
    destruct (ltb (Qcabs (imag ev)) (of_Z 10 * DBL_EPSILON)%Qc);
      cbn [filter map]; [|reflexivity].
    rewrite (andb_comm (leb (m_xmin this) _) (leb _ (m_xmax this))).
    destruct (negb only_in_domain
              || leb (to_realworld (m_xmin this) (m_xmax this) (real ev))
                   (m_xmax this)
                 && leb (m_xmin this)
                      (to_realworld (m_xmin this) (m_xmax this) (real ev))).
    + now rewrite <- app_assoc.
    + reflexivity.
Qed.

Lemma real_roots_of_companion_matrix (this : ChebyshevExpansion)
  (only_in_domain : bool) (A : MatrixXd) :
  companion_matrix this = Ok A ->
  real_roots eigenvalues this only_in_domain
  = Ok (roots_of_eigenvalues (m_xmin this) (m_xmax this) only_in_domain
          (eigenvalues A)).
Proof.
  intro H. unfold real_roots. rewrite H. cbn [bind].
  now rewrite real_roots_loop.
Qed.

(** What [roots_of_eigenvalues] holds: exactly the images of the
    eigenvalues that pass the tolerance and, if asked for, lie in the
    domain. *)
Lemma in_roots_of_eigenvalues (xmin xmax x : double) (only_in_domain : bool)
  (eigvals : list complex) :
  In x (roots_of_eigenvalues xmin xmax only_in_domain eigvals) <->
  exists ev, In ev eigvals /\
    (Qcabs (imag ev) < of_Z 10 * DBL_EPSILON)%Qc /\
    x = to_realworld xmin xmax (real ev) /\
    (only_in_domain = true -> (xmin <= x)%Qc /\ (x <= xmax)%Qc).
Proof.
  unfold roots_of_eigenvalues. rewrite filter_In, in_map_iff. split.
  - intros [[ev [Hx Hev]] Hk]. apply filter_In in Hev. destruct Hev as [Hin Hre].
    exists ev. repeat split; auto.
    + now apply ltb_lt.
    + destruct only_in_domain; [|discriminate]. simpl in Hk.
      apply andb_true_iff in Hk. now apply leb_le.
    + destruct only_in_domain; [|discriminate]. simpl in Hk.
      apply andb_true_iff in Hk. now apply leb_le.
  - intros [ev [Hin [Hre [Hx Hdom]]]]. split.
    + exists ev. split; [auto|]. apply filter_In. split; [assumption|].
      now apply ltb_lt.
    + destruct only_in_domain; [|reflexivity]. simpl.
      destruct (Hdom eq_refl) as [H1 H2].
      apply andb_true_iff. split; now apply leb_le.
Qed.

(** The rows of [companion_spec], one by one. *)
Lemma companion_spec_rows (c : VectorXd) (N : Z) :
  (2 <= N)%Z ->
  (forall j, companion_spec c N 0 j = if (j =? 1)%Z then 1%Qc else 0%Qc) /\
  (forall i j, (1 <= i <= N - 2)%Z ->
     companion_spec c N i j
     = if (j =? i - 1)%Z || (j =? i + 1)%Z then half else 0%Qc) /\
  (forall k,
     companion_spec c N (N - 1) k
     = ((if (k =? N - 2)%Z then half else 0)
        - nth (Z.to_nat k) c 0 / (of_Z 2 * nth (Z.to_nat N) c 0))%Qc).
Proof.
  intro H. unfold companion_spec. repeat split.
  - intro j. zcases.
  - intros i j Hi. zcases.
  - intro k. now rewrite Z.eqb_refl.
Qed.

(** C1: for coefficients [c[0..N]] with [N >= 2], [companion_matrix]
    returns the N-by-N matrix of the specification (first row [[0,1,0,...]],
    interior rows with [0.5] on either side of the diagonal, last row with
    [0.5] at [N-2] plus [-c[k]/(2c[N])] at every [k]), and [real_roots]
    returns, in the order of the solver, exactly the eigenvalues of that
    matrix with imaginary part below [10*DBL_EPSILON] in absolute value,
    each mapped by [x = ((xmax-xmin)*lambda + (xmax+xmin))/2], and with
    [only_in_domain] only those with [xmin <= x <= xmax]. *)
Theorem companion_matrix_real_roots (c : VectorXd) (xmin xmax : double)
  (N : Z) (only_in_domain : bool) :
  size c = (N + 1)%Z -> (2 <= N)%Z ->
  exists A,
    companion_matrix (construct uninitialized c xmin xmax) = Ok A /\
    rows A = N /\ cols A = N /\
    (forall i j, (0 <= i < N)%Z -> (0 <= j < N)%Z ->
       at_ A i j = companion_spec c N i j) /\
    real_roots eigenvalues (construct uninitialized c xmin xmax) only_in_domain
    = Ok (roots_of_eigenvalues xmin xmax only_in_domain (eigenvalues A)).
Proof.
  intros Hsize HN.
  destruct (@companion_matrix_entries (construct uninitialized c xmin xmax) N)
    as [A [EA [RA [CA FA]]]]; [exact Hsize | exact HN |].
  exists A. repeat split; try assumption.
  now apply real_roots_of_companion_matrix.
Qed.

End CompanionMatrix.

(** C1 at [T_2 + 1/2 = 2x^2 - 1/2] on [[-1, 1]]: the companion matrix is
    [[0, 1], [1/4, 0]] and the roots are [1/2] and [-1/2]. *)
Lemma companion_matrix_real_roots_witness :
  let c := [ratio 1 2; of_Z 0; of_Z 1] in
  let this := construct Exact.uninitialized c (of_Z (-1)) (of_Z 1) in
  exists A,
    companion_matrix this = Ok A /\
    rows A = 2%Z /\ cols A = 2%Z /\
    (forall i j, (0 <= i < 2)%Z -> (0 <= j < 2)%Z ->
       at_ A i j = companion_spec c 2 i j) /\
    real_roots Exact.eigenvalues this true
    = Ok (roots_of_eigenvalues (of_Z (-1)) (of_Z 1) true (Exact.eigenvalues A)).
Proof.
  cbv zeta.
  apply (@companion_matrix_real_roots Exact.uninitialized Exact.eigenvalues
           [ratio 1 2; of_Z 0; of_Z 1] (of_Z (-1)) (of_Z 1) 2 true).
  - reflexivity.
  - lia.
Defined.

(** The run behind the witness: the matrix and the two roots. *)
Lemma companion_matrix_run :
  let this := construct Exact.uninitialized [ratio 1 2; of_Z 0; of_Z 1]
                (of_Z (-1)) (of_Z 1) in
  (exists A, companion_matrix this = Ok A /\
     to_rows A = [[of_Z 0; of_Z 1]; [ratio 1 4; of_Z 0]]) /\
  real_roots Exact.eigenvalues this true = Ok [ratio 1 2; ratio (-1) 2] /\
  basis_sum [ratio 1 2; of_Z 0; of_Z 1] (ratio 1 2) = of_Z 0 /\
  basis_sum [ratio 1 2; of_Z 0; of_Z 1] (ratio (-1) 2) = of_Z 0.
Proof.
  cbv zeta. split; [|split; [|split]].
  - eexists. split; [reflexivity|].
    apply rows_eq. vm_compute. reflexivity.
  - apply roots_eqb_eq. vm_compute. reflexivity.
  - apply Qc_eq. reflexivity.
  - apply Qc_eq. reflexivity.
Qed.

(* ================================================================== *)
(** * Evaluation by the three-term recurrence *)

Section Evaluation.

Variable uninitialized : Z -> double.

Lemma chebyshev_T_step (k : nat) (x : double) :
  chebyshev_T (Datatypes.S (Datatypes.S k)) x
  = (of_Z 2 * x * chebyshev_T (Datatypes.S k) x - chebyshev_T k x)%Qc.
Proof. reflexivity. Qed.

(** The buffer once the recurrence has run holds [T_0 .. T_N]. *)
Lemma recurrence_buffer_filled (o : VectorXd) (Norder : Z) (xscaled : double) :
  size o = (Norder + 1)%Z -> (1 <= Norder)%Z ->
  exists o1 o2 o',
    coeffRef o 0 1%Qc = Ok o1 /\
    coeffRef o1 1 xscaled = Ok o2 /\
    for_loop (Z.to_nat (Norder - 1)) 1
      (fun n o =>
         o_n <- coeff o n ;;
         o_n1 <- coeff o (n - 1) ;;
         coeffRef o (n + 1) (of_Z 2 * xscaled * o_n - o_n1)%Qc) o2 = Ok o' /\
    o' = map (fun k => chebyshev_T k xscaled) (seq 0 (length o)).
Proof.
  intros Hsize HN.
  exists (update o (Z.to_nat 0) 1%Qc),
         (update (update o (Z.to_nat 0) 1%Qc) (Z.to_nat 1) xscaled).
  rewrite coeffRef_in_range by lia.
  rewrite coeffRef_in_range by (rewrite size_update; lia).
  match goal with
  | |- context [for_loop ?n 1 ?body ?s] =>
      destruct (@for_loop_invariant VectorXd
                  (fun m o' => length o' = length o /\
                     forall k, (Z.of_nat k <= m)%Z ->
                       nth k o' 0%Qc = chebyshev_T k xscaled)
                  n 1%Z body s) as [o' [E [L F]]]
  end.
  - split; [now rewrite !length_update|].
    intros k Hk. assert (Hl : (2 <= length o)%nat) by (unfold size in Hsize; lia).
    rewrite nth_update by (rewrite length_update; lia).
    change (Z.to_nat 1) with 1%nat. change (Z.to_nat 0) with 0%nat.
    destruct k as [|[|k]]; try lia.
    + simpl Nat.eqb. cbv iota. rewrite nth_update by lia. reflexivity.
    + reflexivity.
  - intros n v Hn [L F].
    assert (Hv : size v = (Norder + 1)%Z) by (unfold size in *; lia).
    rewrite !coeff_in_range by lia. cbn [bind].
    rewrite coeffRef_in_range by lia.
    eexists. split; [reflexivity|]. split; [now rewrite length_update|].
    intros k Hk. rewrite nth_update by (unfold size in Hv; lia).
    destruct (Nat.eqb_spec k (Z.to_nat (n + 1))) as [Ek|Ek].
    + subst k. rewrite !F by lia.
      replace (Z.to_nat (n + 1)) with (Datatypes.S (Datatypes.S (Z.to_nat (n - 1)))) by lia.
      replace (Z.to_nat n) with (Datatypes.S (Z.to_nat (n - 1))) by lia.
      now rewrite chebyshev_T_step.
    + apply F. lia.
  - exists o'. split; [reflexivity|]. split; [reflexivity|]. split; [exact E|].
    apply (nth_ext _ _ 0%Qc (chebyshev_T 0 xscaled)).
    + now rewrite length_map, length_seq.
    + intros k Hk. rewrite (map_nth (fun k => chebyshev_T k xscaled)).
      rewrite seq_nth by lia. apply F. unfold size in Hsize. lia.
Qed.

(** With at least two coefficients the scalar evaluation is the
    canonical-basis sum at the rescaled abscissa. *)
Lemma y_basis_sum (c : VectorXd) (xmin xmax x : double) :
  (2 <= size c)%Z ->
  exists this',
    y (construct uninitialized c xmin xmax) x
    = Ok (basis_sum c (to_xscaled xmin xmax x), this') /\
    m_c this' = c /\ m_xmin this' = xmin /\ m_xmax this' = xmax.
Proof.
  intro H. unfold y.
  destruct (construct_fields uninitialized c xmin xmax) as [E1 [E2 [E3 E4]]].
  rewrite E1, E2, E3.
  set (o := m_recurrence_buffer (construct uninitialized c xmin xmax)) in *.
  rewrite to_size_t_nonneg by lia.
  destruct (@recurrence_buffer_filled o (size c - 1) (to_xscaled xmin xmax x))
    as [o1 [o2 [o' [Eo1 [Eo2 [E Ho']]]]]]; [lia | lia |].
  rewrite Eo1. cbn [bind]. rewrite Eo2. cbn [bind]. rewrite E. cbn [bind].
  unfold dot.
  assert (Hs : size o' = size c).
  { subst o'. unfold size in *. rewrite length_map, length_seq. lia. }
  rewrite Hs, Z.eqb_refl. cbn [bind].
  eexists. split.
  - unfold basis_sum. subst o'.
    replace (length o) with (length c) by (unfold size in E4; lia).
    reflexivity.
  - repeat split.
Qed.

Lemma mresize_dims (A : MatrixXd) (r c : Z) :
  rows (mresize uninitialized A r c) = r /\
  cols (mresize uninitialized A r c) = c.
Proof.
  unfold mresize. destruct (r * c =? rows A * cols A)%Z; split; reflexivity.
Qed.

(** With at least two coefficients the batched evaluation at canonical
    abscissas is the canonical-basis sum at each of them. *)
Lemma y_xscaled_basis_sum (this : ChebyshevExpansion) (xscaled : VectorXd) :
  (2 <= size (m_c this))%Z ->
  exists this',
    y_xscaled uninitialized this xscaled
    = Ok (map (basis_sum (m_c this)) xscaled, this') /\
    m_c this' = m_c this /\ m_xmin this' = m_xmin this /\
    m_xmax this' = m_xmax this.
Proof.
  intro H. unfold y_xscaled.
  set (c := m_c this) in *. set (N := (size c - 1)%Z).
  set (R := size xscaled).
  assert (HR : Z.to_nat R = length xscaled) by (unfold R, size; lia).
  destruct (mresize_dims (m_recurrence_buffer_matrix this) R (N + 1)) as [R0 C0].
  set (A0 := mresize uninitialized (m_recurrence_buffer_matrix this) R (N + 1)) in *.
  rewrite to_size_t_nonneg by (unfold N; lia).
  rewrite col_fill_in_range by lia. cbn [bind].
  rewrite col_assign_in_range by (cbn [rows cols]; unfold R in *; lia).
  cbn [bind rows cols at_].
  match goal with
  | |- context [for_loop ?n 1 ?body ?s] =>
      destruct (@for_loop_invariant MatrixXd
                  (fun m A => rows A = R /\ cols A = (N + 1)%Z /\
                     forall i k, (i < length xscaled)%nat -> (Z.of_nat k <= m)%Z ->
                       at_ A (Z.of_nat i) (Z.of_nat k)
                       = chebyshev_T k (nth i xscaled 0%Qc))
                  n 1%Z body s) as [A [E [RA [CA FA]]]]
  end.
  - cbn [rows cols at_]. repeat split; try assumption.
    intros i k Hi Hk. destruct k as [|[|k]]; try lia.
    + reflexivity.
    + change (Z.of_nat 1 =? 1)%Z with true. cbv iota.
      now rewrite Nat2Z.id.
  - intros n A Hn [RA [CA FA]].
    rewrite !col_in_range by lia. cbn [bind].
    rewrite col_assign_in_range.
    + eexists. split; [reflexivity|]. cbn [rows cols at_].
      repeat split; try assumption.
      intros i k Hi Hk.
      destruct (Z.eqb_spec (Z.of_nat k) (n + 1)) as [Ek|Ek].
      * rewrite Nat2Z.id, RA, HR.
        rewrite nth_recurrence_column
          by (rewrite ?length_map, ?length_zrange; lia).
        rewrite !nth_map_zrange by lia.
        replace n with (Z.of_nat (Datatypes.S (Z.to_nat (n - 1)))) by lia.
        rewrite FA by lia.
        replace (Z.of_nat (Datatypes.S (Z.to_nat (n - 1))) - 1)%Z
          with (Z.of_nat (Z.to_nat (n - 1))) by lia.
        rewrite FA by lia.
        replace k with (Datatypes.S (Datatypes.S (Z.to_nat (n - 1)))) by lia.
        now rewrite chebyshev_T_step.
      * apply FA; lia.
    + lia.
    + unfold size.
      rewrite length_map, !length_combine, !length_map, !length_zrange.
      unfold R, size in *. lia.
  - rewrite E. cbn [bind]. unfold times_vector.
    replace (cols A =? size c)%Z with true by (symmetry; apply Z.eqb_eq; lia).
    cbn [bind]. exists (set_m_recurrence_buffer_matrix this A).
    split; [|repeat split].
    do 2 f_equal. rewrite RA, HR.
    rewrite <- (map_nth_zrange (basis_sum c) xscaled).
    apply map_ext_in. intros i Hi. apply in_zrange in Hi.
    unfold basis_sum. rewrite fold_dot_swap. f_equal. f_equal.
    unfold row. rewrite CA.
    replace (Z.to_nat (N + 1)) with (length c) by (unfold N, size; lia).
    rewrite zrange_seq, map_map. apply map_ext_in. intros k Hk.
    apply in_seq in Hk. cbn beta.
    replace i with (Z.of_nat (Z.to_nat i)) at 1 by lia.
    replace (0 + Z.of_nat k)%Z with (Z.of_nat k) by lia.
    apply FA; unfold N, size; lia.
Qed.

(** The batched evaluation rescales each abscissa first. *)
Lemma y_vector_basis_sum (c : VectorXd) (xmin xmax : double) (x : VectorXd) :
  (2 <= size c)%Z ->
  exists this',
    y_vector uninitialized (construct uninitialized c xmin xmax) x
    = Ok (map (fun x_i => basis_sum c (to_xscaled xmin xmax x_i)) x, this') /\
    m_c this' = c /\ m_xmin this' = xmin /\ m_xmax this' = xmax.
Proof.
  intro H.
  change (y_vector uninitialized (construct uninitialized c xmin xmax) x)
    with (y_xscaled uninitialized (construct uninitialized c xmin xmax)
            (map (to_xscaled xmin xmax) x)).
  destruct (@y_xscaled_basis_sum (construct uninitialized c xmin xmax)
              (map (to_xscaled xmin xmax) x)) as [this' [E [Hc [Hmin Hmax]]]];
    [exact H|].
  exists this'. split.
  - rewrite E. now rewrite map_map.
  - repeat split; assumption.
Qed.

End Evaluation.

(* ================================================================== *)
(** * The affine map of the domain *)

Lemma of_Z_2 : of_Z 2 = (1 + 1)%Qc.
Proof. apply Qc_eq. reflexivity. Qed.

Lemma one_plus_one_neq_0 : (1 + 1)%Qc <> 0%Qc.
Proof. apply Qc_neq. reflexivity. Qed.

Lemma Qcmult_nonneg (x y : Qc) : (0 <= x -> 0 <= y -> 0 <= x * y)%Qc.
Proof.
  intros Hx Hy. replace 0%Qc with (0 * y)%Qc by ring.
  now apply Qcmult_le_compat_r.
Qed.





(** The two maps are inverse to each other on a proper domain. *)
Lemma to_xscaled_to_realworld (xmin xmax xs : double) :
  xmin <> xmax -> to_xscaled xmin xmax (to_realworld xmin xmax xs) = xs.
Proof.
  intro H.
  assert (Hd : (xmax - xmin)%Qc <> 0%Qc).
  { intro E. apply H.
    replace xmax with ((xmax - xmin) + xmin)%Qc by ring. rewrite E. ring. }
  pose proof one_plus_one_neq_0 as H2.
  unfold to_xscaled, to_realworld. rewrite of_Z_2. field.
  repeat split; assumption.
Qed.

Lemma to_realworld_to_xscaled (xmin xmax x : double) :
  xmin <> xmax -> to_realworld xmin xmax (to_xscaled xmin xmax x) = x.
Proof.
  intro H.
  assert (Hd : (xmax - xmin)%Qc <> 0%Qc).
  { intro E. apply H.
    replace xmax with ((xmax - xmin) + xmin)%Qc by ring. rewrite E. ring. }
  pose proof one_plus_one_neq_0 as H2.
  unfold to_xscaled, to_realworld. rewrite of_Z_2. field.
  repeat split; assumption.
Qed.

(* ================================================================== *)
(** * The approximate root finder *)

Section ApproximateRoots.

Variable uninitialized : Z -> double.
Variable cos_pi : Z -> Z -> double.
Variable sqrt : double -> double.
Variable colPivHouseholderQr_solve : Matrix3d -> Vector3d -> Vector3d.

(** The choice among the two roots of the quadratic: a root inside the
    bracket, or [1e99] when neither or both are inside. *)
Lemma select_root_cases (lo hi x1 x2 : double) :
  (select_root lo hi x1 x2 = x1 /\
   is_in_closed_range lo hi x1 = true /\ is_in_closed_range lo hi x2 = false) \/
  (select_root lo hi x1 x2 = x2 /\
   is_in_closed_range lo hi x2 = true /\ is_in_closed_range lo hi x1 = false) \/
  (select_root lo hi x1 x2 = sentinel_1e99 /\
   is_in_closed_range lo hi x1 = is_in_closed_range lo hi x2).
Proof.
  unfold select_root.
  destruct (is_in_closed_range lo hi x1), (is_in_closed_range lo hi x2);
    simpl; auto.
Qed.

Lemma select_root_bracketed (xmin xmax lo hi x1 x2 : double) :
  bracketed_or_sentinel xmin xmax lo hi
    (to_realworld xmin xmax (select_root lo hi x1 x2)).
Proof.
  exists (select_root lo hi x1 x2). split; [reflexivity|].
  destruct (select_root_cases lo hi x1 x2) as [[E [H _]]|[[E [H _]]|[E _]]];
    rewrite E; auto.
Qed.

(** One turn of the loop: the accesses stay in range and at most one value
    is pushed, for the bracket at [i]. *)
Lemma real_roots_approx_step_ok (this : ChebyshevExpansion)
  (xpts_n11 ypts : VectorXd) (Npoints i : Z) (roots : list double) :
  size xpts_n11 = (Npoints + 1)%Z -> size ypts = (Npoints + 1)%Z ->
  (0 <= i < Npoints - 1)%Z ->
  real_roots_approx_step sqrt colPivHouseholderQr_solve this xpts_n11 ypts i roots
    = Ok roots \/
  exists x,
    real_roots_approx_step sqrt colPivHouseholderQr_solve this xpts_n11 ypts i roots
      = Ok (roots ++ [x]) /\
    signbit (nth (Z.to_nat i) ypts 0%Qc)
      <> signbit (nth (Z.to_nat (i + 1)) ypts 0%Qc) /\
    bracketed_or_sentinel (m_xmin this) (m_xmax this)
      (nth (Z.to_nat i) xpts_n11 0%Qc) (nth (Z.to_nat (i + 1)) xpts_n11 0%Qc) x.
Proof.
  intros Hx Hy Hi. unfold real_roots_approx_step.
  rewrite !(@coeff_in_range ypts) by lia. cbn [bind].
  destruct (Bool.eqb (signbit (nth (Z.to_nat i) ypts 0%Qc))
              (signbit (nth (Z.to_nat (i + 1)) ypts 0%Qc))) eqn:Esign;
    cbn [negb]; [left; reflexivity|].
  right. apply eqb_false_iff in Esign.
  assert (H0 : (0 <= (if (1 <=? i)%Z then i - 1 else i)
                /\ (if (1 <=? i)%Z then i - 1 else i) + 2 < Npoints + 1)%Z).
  { destruct (Z.leb_spec 1 i); lia. }
  set (i0 := if (1 <=? i)%Z then (i - 1)%Z else i) in *.
  rewrite !(@coeff_in_range ypts) by lia. cbn [bind].
  rewrite !(@coeff_in_range xpts_n11) by lia. cbn [bind].
  destruct (colPivHouseholderQr_solve _ _) as [[a b] c]. cbn [bind].
  eexists. split; [reflexivity|]. split; [exact Esign|].
  apply select_root_bracketed.
Qed.





(** The branch of [1e99] is reached in exact arithmetic: for
    [-T_0 + 1.5 T_1 - 0.5 T_2 = -(x-1)(x-1/2)] with [Npoints = 2], sample
    points [1, 0, -1] and an exact square root and solve, the fitted roots
    [1/2] and [1] both lie in the bracket [[0, 1]], the second on its edge,
    and the value returned is [1e99].  The hypotheses are those of an exact
    library: with the rounded cosine and solve of a [double] build a root
    on the edge of a bracket may fall on either side of it. *)
Lemma real_roots_approx_sentinel_exact_library :
  cos_pi 0 2 = of_Z 1 -> cos_pi 1 2 = of_Z 0 -> cos_pi 2 2 = of_Z (-1) ->
  sqrt (ratio 1 4) = ratio 1 2 ->
  colPivHouseholderQr_solve
    ((of_Z 1, of_Z 1, of_Z 1), (of_Z 0, of_Z 0, of_Z 1),
     (of_Z 1, of_Z (-1), of_Z 1))
    (of_Z 0, ratio (-1) 2, of_Z (-3))
  = (of_Z (-1), ratio 3 2, ratio (-1) 2) ->
  value_of (real_roots_approx uninitialized cos_pi sqrt colPivHouseholderQr_solve
              (construct uninitialized [of_Z (-1); ratio 3 2; ratio (-1) 2]
                 (of_Z (-1)) (of_Z 1)) 2)
  = Ok [sentinel_1e99].
Proof.
  intros Hc0 Hc1 Hc2 Hsqrt Hsolve.
  unfold real_roots_approx.
  change (2 + 1 <? 0)%Z with false. cbv iota.
  change (zrange 0 (Z.to_nat (2 + 1))) with [0%Z; 1%Z; 2%Z].
  cbn [map]. rewrite Hc0, Hc1, Hc2.
  set (this := construct uninitialized _ _ _).
  destruct (@y_xscaled_basis_sum uninitialized this
              [of_Z 1; of_Z 0; of_Z (-1)]) as [this' [E _]].
  { unfold size. simpl. lia. }
  rewrite E. cbn [bind fst snd map].
  change (m_c this) with [of_Z (-1); ratio 3 2; ratio (-1) 2].
  replace (basis_sum [of_Z (-1); ratio 3 2; ratio (-1) 2] (of_Z 1))
    with (of_Z 0) by (apply Qc_eq; reflexivity).
  replace (basis_sum [of_Z (-1); ratio 3 2; ratio (-1) 2] (of_Z 0))
    with (ratio (-1) 2) by (apply Qc_eq; reflexivity).
  replace (basis_sum [of_Z (-1); ratio 3 2; ratio (-1) 2] (of_Z (-1)))
    with (of_Z (-3)) by (apply Qc_eq; reflexivity).
  change (Z.to_nat (to_size_t (2 - 1))) with 1%nat.
  cbn [for_loop]. unfold real_roots_approx_step.
  change (1 <=? 0)%Z with false. cbv iota.
  rewrite !coeff_in_range by (unfold size; simpl; lia).
  change (Z.to_nat (0 + 0)) with 0%nat. change (Z.to_nat (0 + 1)) with 1%nat.
  change (Z.to_nat (0 + 2)) with 2%nat. change (Z.to_nat 0) with 0%nat.
  cbn [bind nth].
  change (negb (Bool.eqb (signbit (of_Z 0)) (signbit (ratio (-1) 2)))) with true.
  cbv iota.
  replace (of_Z 1 * of_Z 1)%Qc with (of_Z 1) by (apply Qc_eq; reflexivity).
  replace (of_Z 0 * of_Z 0)%Qc with (of_Z 0) by (apply Qc_eq; reflexivity).
  replace (of_Z (-1) * of_Z (-1))%Qc with (of_Z 1) by (apply Qc_eq; reflexivity).
  change 1%Qc with (of_Z 1).
  rewrite Hsolve. cbn [bind]. unfold quadratic_x1, quadratic_x2.
  replace (ratio 3 2 * ratio 3 2 - of_Z 4 * of_Z (-1) * ratio (-1) 2)%Qc
    with (ratio 1 4) by (apply Qc_eq; reflexivity).
  rewrite Hsqrt.
  replace (select_root _ _ _ _) with sentinel_1e99.
  - simpl value_of. f_equal. simpl. f_equal. apply Qc_eq. reflexivity.
  - symmetry. unfold select_root.
    match goal with
    | |- (if ?b then _ else _) = _ =>
        replace b with false by (vm_compute; reflexivity)
    end.
    match goal with
    | |- (if ?b then _ else _) = _ =>
        replace b with false by (vm_compute; reflexivity)
    end.
    reflexivity.
Qed.

End ApproximateRoots.

Lemma Exact_cos_pi_range (k n : Z) :
  (of_Z (-1) <= Exact.cos_pi k n <= of_Z 1)%Qc.
Proof.
  unfold Exact.cos_pi.
  destruct (k =? 0)%Z; [split; discriminate|].
  destruct (k =? n)%Z; [split; discriminate|].
  destruct (2 * k =? n)%Z; [split; discriminate|].
  destruct (3 * k =? n)%Z; [split; discriminate|].
  destruct (3 * k =? 2 * n)%Z; split; discriminate.
Qed.


(** The run behind the witness: the samples of [2x^2 - 1/2] are [3/2],
    about [-1/2] and [3/2]; the sign changes in the first bracket, the
    fitted roots are [1/2] and [-1/2], and the one in the bracket, [1/2],
    is returned. *)
Lemma real_roots_approx_run :
  value_of (real_roots_approx Exact.uninitialized Exact.cos_pi Exact.sqrt
              Exact.colPivHouseholderQr_solve
              (construct Exact.uninitialized [ratio 1 2; of_Z 0; of_Z 1]
                 (of_Z (-1)) (of_Z 1)) 2)
  = Ok [ratio 1 2] /\
  fitted_roots Exact.sqrt Exact.colPivHouseholderQr_solve
    (fun k => Exact.cos_pi k 2)
    (fun k => basis_sum [ratio 1 2; of_Z 0; of_Z 1] (Exact.cos_pi k 2)) 0
  = (ratio 1 2, ratio (-1) 2).
Proof.
  split; [apply roots_eqb_eq; vm_compute; reflexivity|].
  apply (f_equal2 pair); apply Qc_eq; vm_compute; reflexivity.
Qed.


(* ================================================================== *)
(** * The product of two expansions *)

Section Product.

Variable uninitialized : Z -> double.

Lemma length_add_at (c : VectorXd) (m : nat) (v : double) :
  length (ChebTools.add_at c m v) = length c.
Proof. unfold ChebTools.add_at. apply length_update. Qed.

Lemma nth_add_at (c : VectorXd) (m k : nat) (v : double) :
  (m < length c)%nat ->
  nth k (ChebTools.add_at c m v) 0%Qc
  = (nth k c 0 + (if Nat.eqb k m then v else 0))%Qc.
Proof.
  intro H. unfold ChebTools.add_at. rewrite nth_update by exact H.
  destruct (Nat.eqb_spec k m) as [E|E].
  - now subst k.
  - ring.
Qed.

Lemma product_pair_spec (c1_i : double) (i : nat) (c : VectorXd)
  (jc : nat * double) (k : nat) :
  (i + fst jc < length c)%nat ->
  length (ChebTools.product_pair c1_i i c jc) = length c /\
  nth k (ChebTools.product_pair c1_i i c jc) 0%Qc
  = (nth k c 0 + contribution k i (fst jc) c1_i (snd jc))%Qc.
Proof.
  intro H. unfold ChebTools.product_pair. split.
  - now rewrite !length_add_at.
  - rewrite nth_add_at by (rewrite length_add_at; lia).
    rewrite nth_add_at by exact H.
    unfold contribution. ring.
Qed.

Lemma product_row_spec (c2 : VectorXd) (ic : nat * double) (k : nat)
  (l : list (nat * double)) (c : VectorXd) :
  (forall jc, In jc l -> (fst ic + fst jc < length c)%nat) ->
  length (fold_left (ChebTools.product_pair (snd ic) (fst ic)) l c) = length c /\
  nth k (fold_left (ChebTools.product_pair (snd ic) (fst ic)) l c) 0%Qc
  = (nth k c 0
     + qsum (map (fun jc => contribution k (fst ic) (fst jc) (snd ic) (snd jc)) l))%Qc.
Proof.
  revert c. induction l as [|jc l IH]; intros c H.
  - simpl. split; [reflexivity | ring].
  - simpl fold_left.
    destruct (@product_pair_spec (snd ic) (fst ic) c jc k) as [L N];
      [apply H; now left|].
    destruct (IH (ChebTools.product_pair (snd ic) (fst ic) c jc)) as [L' N'].
    + intros jc' Hin. rewrite L. apply H. now right.
    + split; [now rewrite L', L|].
      rewrite N', N. simpl. ring.
Qed.

Lemma in_indexed (c : VectorXd) (ic : nat * double) :
  In ic (indexed c) -> (fst ic < length c)%nat.
Proof.
  intro H. destruct ic as [i x]. apply in_combine_l in H.
  apply in_seq in H. simpl. lia.
Qed.

Lemma product_rows_spec (c2 : VectorXd) (k : nat)
  (l : list (nat * double)) (c : VectorXd) :
  (forall ic jc, In ic l -> In jc (indexed c2) ->
                 (fst ic + fst jc < length c)%nat) ->
  length (fold_left (ChebTools.product_row c2) l c) = length c /\
  nth k (fold_left (ChebTools.product_row c2) l c) 0%Qc
  = (nth k c 0
     + qsum (map (fun ic =>
                    qsum (map (fun jc => contribution k (fst ic) (fst jc)
                                           (snd ic) (snd jc))
                            (indexed c2))) l))%Qc.
Proof.
  revert c. induction l as [|ic l IH]; intros c H.
  - simpl. split; [reflexivity | ring].
  - simpl fold_left.
    change (ChebTools.product_row c2 c ic)
      with (fold_left (ChebTools.product_pair (snd ic) (fst ic)) (indexed c2) c).
    destruct (@product_row_spec c2 ic k (indexed c2) c) as [L N].
    { intros jc Hj. apply H; [now left | exact Hj]. }
    destruct (IH (fold_left (ChebTools.product_pair (snd ic) (fst ic))
                    (indexed c2) c)) as [L' N'].
    + intros ic' jc Hi Hj. rewrite L. apply H; [now right | exact Hj].
    + split; [now rewrite L', L|].
      rewrite N', N. simpl. ring.
Qed.

(** The product computes the sum of the contributions, on [len(c1)+len(c2)-1]
    coefficients. *)
Lemma product_coefficients_spec (c1 c2 : VectorXd) :
  length (ChebTools.product_coefficients c1 c2) = (length c1 + length c2 - 1)%nat /\
  forall k, nth k (ChebTools.product_coefficients c1 c2) 0%Qc
            = product_coefficient c1 c2 k.
Proof.
  unfold ChebTools.product_coefficients. fold (indexed c1).
  assert (H : forall ic jc, In ic (indexed c1) -> In jc (indexed c2) ->
            (fst ic + fst jc
             < length (repeat 0%Qc (length c1 + length c2 - 1)))%nat).
  { intros ic jc Hi Hj. apply in_indexed in Hi. apply in_indexed in Hj.
    rewrite repeat_length. lia. }
  split.
  - destruct (@product_rows_spec c2 0 (indexed c1) _ H) as [L _].
    now rewrite L, repeat_length.
  - intro k. destruct (@product_rows_spec c2 k (indexed c1) _ H) as [_ N].
    rewrite N. unfold product_coefficient.
    rewrite nth_repeat. ring.
Qed.

Lemma contribution_sym (k i j : nat) (x y : double) :
  contribution k i j x y = contribution k j i y x.
Proof.
  unfold contribution.
  rewrite (Nat.add_comm i j), (Nat.max_comm i j), (Nat.min_comm i j).
  rewrite (Qcmult_comm x y). reflexivity.
Qed.

Lemma qsum_app (l l' : list double) : qsum (l ++ l') = (qsum l + qsum l')%Qc.
Proof.
  induction l as [|x l IH]; simpl; [ring|]. rewrite IH. ring.
Qed.

Lemma qsum_map_plus {A} (f g : A -> double) (l : list A) :
  qsum (map (fun a => (f a + g a)%Qc) l) = (qsum (map f l) + qsum (map g l))%Qc.
Proof.
  induction l as [|a l IH]; simpl; [ring|]. rewrite IH. ring.
Qed.

Lemma qsum_map_zero {A} (l : list A) : qsum (map (fun _ => 0%Qc) l) = 0%Qc.
Proof. induction l as [|a l IH]; simpl; [reflexivity|]. rewrite IH. ring. Qed.

(** The order of a double sum does not matter. *)
Lemma qsum_exchange {A B} (f : A -> B -> double) (l : list A) (l' : list B) :
  qsum (map (fun a => qsum (map (fun b => f a b) l')) l)
  = qsum (map (fun b => qsum (map (fun a => f a b) l)) l').
Proof.
  induction l as [|a l IH]; simpl.
  - now rewrite qsum_map_zero.
  - rewrite IH. now rewrite <- qsum_map_plus.
Qed.

Lemma product_coefficient_comm (c1 c2 : VectorXd) (k : nat) :
  product_coefficient c1 c2 k = product_coefficient c2 c1 k.
Proof.
  unfold product_coefficient.
  rewrite (qsum_exchange
             (fun ic jc => contribution k (fst ic) (fst jc) (snd ic) (snd jc))).
  apply f_equal. apply map_ext. intro jc.
  apply f_equal. apply map_ext. intro ic. apply contribution_sym.
Qed.

Lemma product_coefficients_comm (c1 c2 : VectorXd) :
  ChebTools.product_coefficients c1 c2 = ChebTools.product_coefficients c2 c1.
Proof.
  destruct (product_coefficients_spec c1 c2) as [L N].
  destruct (product_coefficients_spec c2 c1) as [L' N'].
  apply (nth_ext _ _ 0%Qc 0%Qc).
  - rewrite L, L'. lia.
  - intros k _. rewrite N, N'. apply product_coefficient_comm.
Qed.

Local Open Scope Qc_scope.

(** ** The product identity of the Chebyshev polynomials *)

Lemma chebyshev_T_sum_difference (x : Qc) (n : nat) :
  (forall m, (n <= m)%nat ->
     of_Z 2 * chebyshev_T m x * chebyshev_T n x
     = chebyshev_T (m + n) x + chebyshev_T (m - n) x) /\
  (forall m, (Datatypes.S n <= m)%nat ->
     of_Z 2 * chebyshev_T m x * chebyshev_T (Datatypes.S n) x
     = chebyshev_T (m + Datatypes.S n) x + chebyshev_T (m - Datatypes.S n) x).
Proof.
  induction n as [|n [IH0 IH1]].
  - split; intros m Hm.
    + rewrite Nat.add_0_r, Nat.sub_0_r, of_Z_2. simpl. ring.
    + destruct m as [|m]; [lia|].
      replace (Datatypes.S m + 1)%nat with (Datatypes.S (Datatypes.S m)) by lia.
      replace (Datatypes.S m - 1)%nat with m by lia.
      rewrite chebyshev_T_step, of_Z_2. simpl. ring.
  - split; [exact IH1|]. intros m Hm.
    assert (E : exists d, m = (d + Datatypes.S (Datatypes.S n))%nat)
      by (exists (m - Datatypes.S (Datatypes.S n))%nat; lia).
    destruct E as [d ->].
    specialize (IH0 (d + Datatypes.S (Datatypes.S n))%nat ltac:(lia)).
    specialize (IH1 (d + Datatypes.S (Datatypes.S n))%nat ltac:(lia)).
    replace (d + Datatypes.S (Datatypes.S n) + Datatypes.S (Datatypes.S n))%nat
      with (Datatypes.S (Datatypes.S (d + Datatypes.S (Datatypes.S n) + n))) by lia.
    replace (d + Datatypes.S (Datatypes.S n) - Datatypes.S (Datatypes.S n))%nat
      with d by lia.
    replace (d + Datatypes.S (Datatypes.S n) + Datatypes.S n)%nat
      with (Datatypes.S (d + Datatypes.S (Datatypes.S n) + n)) in IH1 by lia.
    replace (d + Datatypes.S (Datatypes.S n) - Datatypes.S n)%nat
      with (Datatypes.S d) in IH1 by lia.
    replace (d + Datatypes.S (Datatypes.S n) - n)%nat
      with (Datatypes.S (Datatypes.S d)) in IH0 by lia.
    rewrite (chebyshev_T_step n), (chebyshev_T_step (d + Datatypes.S (Datatypes.S n) + n)).
    rewrite (chebyshev_T_step d) in IH0.
    rewrite of_Z_2 in *.
    set (Tm := chebyshev_T (d + Datatypes.S (Datatypes.S n)) x) in *.
    set (a := chebyshev_T (Datatypes.S (d + Datatypes.S (Datatypes.S n) + n)) x) in *.
    set (b := chebyshev_T (d + Datatypes.S (Datatypes.S n) + n) x) in *.
    set (p := chebyshev_T (Datatypes.S d) x) in *.
    set (q := chebyshev_T d x) in *.
    set (u := chebyshev_T (Datatypes.S n) x) in *.
    set (v := chebyshev_T n x) in *.
    (* IH0 : 2 Tm v = b + (2 x p - q);  IH1 : 2 Tm u = a + p *)
    transitivity ((1 + 1) * x * ((1 + 1) * Tm * u) - (1 + 1) * Tm * v); [ring|].
    rewrite IH0, IH1. ring.
Qed.

Lemma chebyshev_T_product (x : Qc) (i j : nat) :
  chebyshev_T i x * chebyshev_T j x
  = (chebyshev_T (i + j) x + chebyshev_T (Nat.max i j - Nat.min i j) x) / of_Z 2.
Proof.
  assert (H : forall m n, (n <= m)%nat ->
            chebyshev_T m x * chebyshev_T n x
            = (chebyshev_T (m + n) x + chebyshev_T (m - n) x) / of_Z 2).
  { intros m n Hmn.
    rewrite <- (proj1 (chebyshev_T_sum_difference x n) m Hmn).
    rewrite of_Z_2. field. exact one_plus_one_neq_0. }
  destruct (Nat.le_ge_cases j i) as [L|L].
  - rewrite Nat.max_l, Nat.min_r by exact L. now apply H.
  - rewrite Nat.max_r, Nat.min_l, (Nat.add_comm i j), Qcmult_comm by exact L.
    now apply H.
Qed.

(** ** Sums over index ranges *)

Lemma fold_left_qsum (l : list (Qc * Qc)) (acc : Qc) :
  fold_left (fun acc p => acc + fst p * snd p) l acc
  = acc + qsum (map (fun p => fst p * snd p) l).
Proof.
  revert acc. induction l as [|p l IH]; intro acc; simpl; [ring|].
  rewrite IH. ring.
Qed.

Lemma list_as_map_seq (c : list Qc) :
  c = map (fun k => nth k c 0) (seq 0 (length c)).
Proof.
  apply (nth_ext _ _ 0 0).
  - now rewrite length_map, length_seq.
  - intros k Hk. symmetry.
    rewrite (nth_indep (map (fun k => nth k c 0) (seq 0 (length c))) 0
               ((fun k => nth k c 0) 0%nat))
      by (now rewrite length_map, length_seq).
    rewrite (map_nth (fun k => nth k c 0)), seq_nth by exact Hk. reflexivity.
Qed.

Lemma combine_map_map {A B C} (f : A -> B) (g : A -> C) (l : list A) :
  combine (map f l) (map g l) = map (fun a => (f a, g a)) l.
Proof. induction l as [|a l IH]; simpl; [reflexivity|]. now rewrite IH. Qed.

Lemma basis_sum_as_qsum (c : VectorXd) (x : Qc) :
  basis_sum c x
  = qsum (map (fun k => nth k c 0 * chebyshev_T k x) (seq 0 (length c))).
Proof.
  unfold basis_sum. rewrite fold_left_qsum.
  rewrite (list_as_map_seq c) at 1. rewrite combine_map_map, map_map.
  simpl. ring.
Qed.

Lemma indexed_as_map_seq (c : VectorXd) :
  indexed c = map (fun k => (k, nth k c 0)) (seq 0 (length c)).
Proof.
  unfold indexed. rewrite (list_as_map_seq c) at 2.
  rewrite <- (map_id (seq 0 (length c))) at 1.
  apply combine_map_map.
Qed.

Lemma product_coefficient_as_qsum (c1 c2 : VectorXd) (k : nat) :
  product_coefficient c1 c2 k
  = qsum (map (fun i =>
        qsum (map (fun j => contribution k i j (nth i c1 0) (nth j c2 0))
                (seq 0 (length c2))))
      (seq 0 (length c1))).
Proof.
  unfold product_coefficient. rewrite !indexed_as_map_seq, map_map.
  apply f_equal. apply map_ext. intro i. now rewrite map_map.
Qed.

Lemma qsum_map_mult_l {A} (c : Qc) (f : A -> Qc) (l : list A) :
  qsum (map (fun a => c * f a) l) = c * qsum (map f l).
Proof. induction l as [|a l IH]; simpl; [ring|]. rewrite IH. ring. Qed.

Lemma qsum_map_mult_r {A} (c : Qc) (f : A -> Qc) (l : list A) :
  qsum (map (fun a => f a * c) l) = qsum (map f l) * c.
Proof. induction l as [|a l IH]; simpl; [ring|]. rewrite IH. ring. Qed.

Lemma qsum_map_ext_in {A} (f g : A -> Qc) (l : list A) :
  (forall a, In a l -> f a = g a) -> qsum (map f l) = qsum (map g l).
Proof. intro H. f_equal. now apply map_ext_in. Qed.

(** A sum that selects one index. *)
Lemma qsum_select (m n : nat) (v : Qc) (g : nat -> Qc) :
  (m < n)%nat ->
  qsum (map (fun k => (if Nat.eqb k m then v else 0) * g k) (seq 0 n)) = v * g m.
Proof.
  induction n as [|n IH]; intro H; [lia|].
  rewrite seq_S, map_app, qsum_app. simpl.
  destruct (Nat.eqb_spec n m) as [E|E].
  - subst m.
    rewrite (qsum_map_ext_in _ (fun _ => 0)).
    + rewrite qsum_map_zero. ring.
    + intros k Hk. apply in_seq in Hk.
      destruct (Nat.eqb_spec k n); [lia | ring].
  - rewrite IH by lia. ring.
Qed.

(** What the pair [(i, j)] adds to the value of the product. *)
Lemma contribution_value (L i j : nat) (ai bj x : Qc) :
  (i + j < L)%nat ->
  qsum (map (fun k => contribution k i j ai bj * chebyshev_T k x) (seq 0 L))
  = (ai * chebyshev_T i x) * (bj * chebyshev_T j x).
Proof.
  intro H. unfold contribution.
  rewrite (qsum_map_ext_in _
             (fun k => (if Nat.eqb k (i + j) then ai * bj / of_Z 2 else 0)
                       * chebyshev_T k x
                       + (if Nat.eqb k (Nat.max i j - Nat.min i j)
                          then ai * bj / of_Z 2 else 0) * chebyshev_T k x))
    by (intros; ring).
  rewrite qsum_map_plus, !qsum_select by lia.
  transitivity (ai * bj * (chebyshev_T i x * chebyshev_T j x)); [|ring].
  rewrite chebyshev_T_product, of_Z_2. field. exact one_plus_one_neq_0.
Qed.

(** The value of the product is the product of the values. *)
Lemma product_coefficients_value (c1 c2 : VectorXd) (x : Qc) :
  basis_sum (ChebTools.product_coefficients c1 c2) x
  = basis_sum c1 x * basis_sum c2 x.
Proof.
  destruct (product_coefficients_spec c1 c2) as [L N].
  rewrite !basis_sum_as_qsum, L.
  set (n := (length c1 + length c2 - 1)%nat).
  rewrite (qsum_map_ext_in _
     (fun k => qsum (map (fun i => qsum (map (fun j =>
          contribution k i j (nth i c1 0) (nth j c2 0) * chebyshev_T k x)
          (seq 0 (length c2)))) (seq 0 (length c1))))).
  2:{ intros k _. rewrite N, product_coefficient_as_qsum.
      rewrite <- qsum_map_mult_r. apply qsum_map_ext_in. intros i _.
      now rewrite <- qsum_map_mult_r. }
  rewrite (qsum_exchange (fun k i => qsum (map (fun j =>
          contribution k i j (nth i c1 0) (nth j c2 0) * chebyshev_T k x)
          (seq 0 (length c2))))).
  rewrite <- qsum_map_mult_r. apply qsum_map_ext_in. intros i Hi.
  apply in_seq in Hi.
  rewrite (qsum_exchange (fun k j =>
          contribution k i j (nth i c1 0) (nth j c2 0) * chebyshev_T k x)).
  rewrite <- qsum_map_mult_l. apply qsum_map_ext_in. intros j Hj.
  apply in_seq in Hj. apply contribution_value. unfold n. lia.
Qed.

Local Close Scope Qc_scope.

(** C7: the product of two expansions has [len(a)+len(b)-1] coefficients;
    coefficient [k] is the sum over all pairs [(a[i], b[j])] of
    [a[i]*b[j]/2] for [i+j = k] and of [a[i]*b[j]/2] for [|i-j| = k]; and
    [(A*B).coef()] equals [(B*A).coef()]. *)
Theorem product_of_expansions (A B : ChebTools.ChebyshevExpansion) :
  let a := ChebTools.coef A in
  let b := ChebTools.coef B in
  length (ChebTools.coef (ChebTools.operator_times uninitialized A B))
    = (length a + length b - 1)%nat /\
  (forall k, nth k (ChebTools.coef (ChebTools.operator_times uninitialized A B)) 0%Qc
             = product_coefficient a b k) /\
  ChebTools.coef (ChebTools.operator_times uninitialized A B)
    = ChebTools.coef (ChebTools.operator_times uninitialized B A).
Proof.
  cbv zeta. unfold ChebTools.operator_times, ChebTools.coef.
  cbn [ChebTools.m_c ChebTools.construct ChebTools.resize].
  destruct (product_coefficients_spec (ChebTools.m_c A) (ChebTools.m_c B)) as [L N].
  repeat split.
  - exact L.
  - exact N.
  - apply product_coefficients_comm.
Qed.

(** The product of the test "Product of expansions". *)
Lemma product_of_expansions_test :
  ChebTools.product_coefficients [of_Z 1; of_Z 2; of_Z 3; of_Z 4]
    [ratio 1 10; ratio 2 10; ratio 3 10]
  = [ratio 75 100; ratio 16 10; ratio 12 10; of_Z 1; ratio 85 100; ratio 6 10].
Proof. apply list_eqb_eq. vm_compute. reflexivity. Qed.

End Product.

(* ================================================================== *)
(** * The affine map in the evaluators and in the root finders *)

Section Rescaling.

Variable uninitialized : Z -> double.
Variable eigenvalues : MatrixXd -> list complex.

(** With at least two coefficients both evaluators return the
    canonical-basis sum at [xscaled = (2x - (xmax+xmin))/(xmax-xmin)], and
    with at least three [real_roots] maps each kept eigenvalue by
    [x = ((xmax-xmin)*lambda + (xmax+xmin))/2]. *)
Lemma rescaling_beyond_constants (c : VectorXd) (xmin xmax : double) :
  (2 <= size c)%Z ->
  (forall x, value_of (y (construct uninitialized c xmin xmax) x)
             = Ok (basis_sum c (to_xscaled xmin xmax x))) /\
  (forall x, value_of (y_vector uninitialized
                         (construct uninitialized c xmin xmax) x)
             = Ok (map (fun x_i => basis_sum c (to_xscaled xmin xmax x_i)) x)) /\
  ((3 <= size c)%Z ->
   forall only_in_domain x,
     (exists roots,
        real_roots eigenvalues (construct uninitialized c xmin xmax)
          only_in_domain = Ok roots /\ In x roots) ->
     exists lambda, x = to_realworld xmin xmax lambda).
Proof.
  intro H. repeat split.
  - intro x. destruct (@y_basis_sum uninitialized c xmin xmax x H) as [t [E _]].
    now rewrite E.
  - intro x.
    destruct (@y_vector_basis_sum uninitialized c xmin xmax x H) as [t [E _]].
    now rewrite E.
  - intros H3 b x [roots [E Hin]].
    destruct (@companion_matrix_entries (construct uninitialized c xmin xmax)
                (size c - 1)) as [A [EA _]]; [simpl; lia | lia |].
    rewrite (@real_roots_of_companion_matrix eigenvalues _ b A EA) in E.
    injection E as E. subst roots.
    apply in_roots_of_eigenvalues in Hin.
    destruct Hin as [ev [_ [_ [Hx _]]]]. now exists (real ev).
Qed.

(** C5 at the constant expansion [1.0] on [[0, 10]] and [x = 0.5], the
    input of the test "Constant value 1.0": the rescaled abscissa is [-0.9]
    and the canonical-basis sum there is [1], but neither the scalar nor
    the batched evaluation of main.cpp returns it: after the rescaling both
    address the [n = 1] term of a length-1 buffer. *)
Theorem rescaled_evaluation_of_constant :
  let c := [of_Z 1] in
  let C := construct uninitialized c (of_Z 0) (of_Z 10) in
  let x := ratio 1 2 in
  to_xscaled (m_xmin C) (m_xmax C) x = ratio (-9) 10 /\
  basis_sum c (to_xscaled (m_xmin C) (m_xmax C) x) = of_Z 1 /\
  y C x = Throw index_out_of_range /\
  y_vector uninitialized C [x] = Throw index_out_of_range.
Proof.
  cbv zeta. split; [apply Qc_eq; reflexivity|].
  split; [apply Qc_eq; reflexivity|].
  split; [apply y_constant|].
  unfold y_vector. apply y_xscaled_constant.
Qed.

End Rescaling.

(* ================================================================== *)
(** * More facts on loops and lists *)

(** A loop whose body fails at turn [k], after [k] turns that keep an
    invariant, fails in the same way. *)
Lemma for_loop_throws {St} (P : Z -> St -> Prop) (count k : nat) (lo : Z)
  (body : Z -> St -> result St) (s : St) (e : exn) :
  (k < count)%nat -> P lo s ->
  (forall i s, (lo <= i < lo + Z.of_nat k)%Z -> P i s ->
               exists s', body i s = Ok s' /\ P (i + 1)%Z s') ->
  (forall s, P (lo + Z.of_nat k)%Z s -> body (lo + Z.of_nat k)%Z s = Throw e) ->
  for_loop count lo body s = Throw e.
Proof.
  revert count lo s. induction k as [|k IH]; intros count lo s Hk H0 Hstep Hthrow.
  - destruct count as [|n]; [lia|]. simpl.
    replace (lo + Z.of_nat 0)%Z with lo in Hthrow by lia.
    now rewrite (Hthrow s H0).
  - destruct count as [|n]; [lia|]. simpl.
    destruct (Hstep lo s) as [s1 [E1 H1]]; [lia | exact H0 |].
    rewrite E1. cbn [bind]. apply IH.
    + lia.
    + exact H1.
    + intros i s2 Hi. apply Hstep. lia.
    + intros s2 H2.
      replace (lo + 1 + Z.of_nat k)%Z with (lo + Z.of_nat (Datatypes.S k))%Z by lia.
      apply Hthrow.
      now replace (lo + Z.of_nat (Datatypes.S k))%Z with (lo + 1 + Z.of_nat k)%Z by lia.
Qed.

Lemma for_loop_down_invariant {St} (P : Z -> St -> Prop) (count : nat) (hi : Z)
  (body : Z -> St -> result St) (s : St) :
  P hi s ->
  (forall k s, (hi - Z.of_nat count < k <= hi)%Z -> P k s ->
               exists s', body k s = Ok s' /\ P (k - 1)%Z s') ->
  exists s', for_loop_down count hi body s = Ok s' /\ P (hi - Z.of_nat count)%Z s'.
Proof.
  revert hi s. induction count as [|n IH]; intros hi s H0 Hstep.
  - exists s. split; [reflexivity|]. now replace (hi - Z.of_nat 0)%Z with hi by lia.
  - destruct (Hstep hi s) as [s1 [E1 H1]]; [lia | exact H0 |].
    destruct (IH (hi - 1)%Z s1 H1) as [s' [E' H']].
    { intros k s2 Hk. apply Hstep. lia. }
    exists s'. split.
    + simpl. rewrite E1. exact E'.
    + now replace (hi - Z.of_nat (Datatypes.S n))%Z
        with (hi - 1 - Z.of_nat n)%Z by lia.
Qed.

Lemma for_loop_down_first_throws {St} (count : nat) (hi : Z)
  (body : Z -> St -> result St) (s : St) (e : exn) :
  (0 < count)%nat -> body hi s = Throw e ->
  for_loop_down count hi body s = Throw e.
Proof.
  intros H E. destruct count as [|n]; [lia|]. simpl. now rewrite E.
Qed.

Lemma of_Z_plus (a b : Z) : of_Z (a + b) = (of_Z a + of_Z b)%Qc.
Proof.
  unfold of_Z, Qcplus. apply Q2Qc_eq_iff. rewrite inject_Z_plus.
  cbn [this Q2Qc]. now rewrite !Qred_correct.
Qed.

Lemma nth_map_in_range {A} (f : A -> double) (l : list A) (k : nat) (d : A) :
  (k < length l)%nat -> nth k (map f l) 0%Qc = f (nth k l d).
Proof.
  intro H. rewrite (nth_indep (map f l) 0%Qc (f d)) by (now rewrite length_map).
  apply map_nth.
Qed.

Lemma zrange_snoc (lo : Z) (n : nat) :
  zrange lo (Datatypes.S n) = zrange lo n ++ [(lo + Z.of_nat n)%Z].
Proof.
  revert lo. induction n as [|n IH]; intro lo.
  - simpl. f_equal. lia.
  - change (zrange lo (Datatypes.S (Datatypes.S n)))
      with (lo :: zrange (lo + 1) (Datatypes.S n)).
    rewrite IH. simpl. do 2 f_equal. f_equal. lia.
Qed.

Lemma filter_filter {A} (p q : A -> bool) (l : list A) :
  filter p (filter q l) = filter (fun a => q a && p a) l.
Proof.
  induction l as [|a l IH]; [reflexivity|]. simpl.
  destruct (q a); simpl; [destruct (p a)|]; now rewrite IH.
Qed.

Lemma repeat_map_zrange {A} (d : A) (lo : Z) (n : nat) :
  repeat d n = map (fun _ => d) (zrange lo n).
Proof.
  revert lo. induction n as [|m IH]; intro lo; [reflexivity|].
  simpl. f_equal. apply IH.
Qed.

(** A sum over the indices of a longer vector stops at the end of the
    shorter one. *)
Lemma qsum_pad (d : list double) (g : nat -> double) (n : nat) :
  (length d <= n)%nat ->
  qsum (map (fun k => nth k d 0 * g k)%Qc (seq 0 n))
  = qsum (map (fun k => nth k d 0 * g k)%Qc (seq 0 (length d))).
Proof.
  intro H. replace n with (length d + (n - length d))%nat by lia.
  rewrite seq_app, map_app, qsum_app.
  rewrite (@qsum_map_ext_in _ (fun k => nth k d 0 * g k)%Qc (fun _ => 0%Qc)
             (seq (0 + length d) (n - length d))), qsum_map_zero; [ring|].
  intros k Hk. apply in_seq in Hk. rewrite nth_overflow by lia. ring.
Qed.

Lemma basis_sum_pointwise (e c d : VectorXd) (t : double) :
  length e = length c -> (length d <= length c)%nat ->
  (forall k, nth k e 0%Qc = (nth k c 0 + nth k d 0)%Qc) ->
  basis_sum e t = (basis_sum c t + basis_sum d t)%Qc.
Proof.
  intros He Hd Hk. rewrite !basis_sum_as_qsum, He.
  rewrite <- (@qsum_pad d (fun k => chebyshev_T k t) (length c) Hd).
  rewrite <- qsum_map_plus. apply qsum_map_ext_in. intros k _.
  rewrite Hk. ring.
Qed.

Lemma combine_sum_swap (u v : list double) :
  map (fun p => (fst p + snd p)%Qc) (combine u v)
  = map (fun p => (fst p + snd p)%Qc) (combine v u).
Proof.
  revert v. induction u as [|a u IH]; intros [|b v]; simpl; auto.
  rewrite (Qcplus_comm a b). f_equal. apply IH.
Qed.

(* ================================================================== *)
(** * Sums of expansions as sums of functions *)

Section SumsOfFunctions.

Variable uninitialized : Z -> double.

(** X1, [operator+] of main.cpp on operands of one length: the result does
    not depend on the order of the operands, its canonical-basis sum is the
    sum of theirs at every abscissa, and it is built on the default domain
    [[-1, 1]] whatever the domains of the operands. *)
Theorem sum_of_equal_lengths (this ce2 : ChebyshevExpansion) :
  size (coef this) = size (coef ce2) ->
  exists e,
    operator_plus uninitialized this ce2 = Ok e /\
    operator_plus uninitialized ce2 this = Ok e /\
    size (coef e) = size (coef this) /\
    (forall t, basis_sum (coef e) t
               = (basis_sum (coef this) t + basis_sum (coef ce2) t)%Qc) /\
    m_xmin e = default_xmin /\ m_xmax e = default_xmax.
Proof.
  intro H.
  destruct (@operator_plus_same_length uninitialized this ce2 H)
    as [e [E [Hs [Hk [Hmin Hmax]]]]].
  exists e. split; [exact E|]. split.
  - rewrite <- E. unfold operator_plus, coef, plus in *.
    rewrite H, Z.eqb_refl. cbn [negb bind].
    now rewrite combine_sum_swap.
  - split; [exact Hs|]. split; [|split; assumption].
    intro t. unfold size in *. apply basis_sum_pointwise; [lia | lia |].
    intro k. destruct (Nat.lt_ge_cases k (length (coef this))) as [L|L].
    + rewrite Hk by exact L. ring.
    + rewrite !nth_overflow by lia. ring.
Qed.

(** X2, [operator+=] of main.cpp with a donor that is not longer than the
    object: the length, the domain and the recurrence buffer of the object
    stay, and its canonical-basis sum grows by that of the donor at every
    abscissa. *)
Theorem sum_into_longer_expansion (this donor : ChebyshevExpansion) :
  (size (coef donor) <= size (coef this))%Z ->
  exists e,
    operator_plus_assign uninitialized this donor = Ok e /\
    size (coef e) = size (coef this) /\
    (forall t, basis_sum (coef e) t
               = (basis_sum (coef this) t + basis_sum (coef donor) t)%Qc) /\
    m_xmin e = m_xmin this /\ m_xmax e = m_xmax this /\
    m_recurrence_buffer e = m_recurrence_buffer this.
Proof.
  intro H.
  destruct (@operator_plus_assign_not_longer uninitialized this donor H)
    as [e [E [Hs [Hlo [Hhi [Hmin Hmax]]]]]].
  exists e. split; [exact E|]. split; [exact Hs|].
  split; [|split; [exact Hmin|split; [exact Hmax|]]].
  - intro t. unfold size in *. apply basis_sum_pointwise; [lia | lia |].
    intro k. destruct (Nat.lt_ge_cases k (length (coef donor))) as [L|L].
    + now apply Hlo.
    + rewrite Hhi by exact L. rewrite (@nth_overflow _ (coef donor)) by lia. ring.
  - revert E. unfold operator_plus_assign.
    destruct (head _ _); cbn [bind]; [|discriminate].
    destruct (head _ _); cbn [bind]; [|discriminate].
    destruct (plus _ _); cbn [bind]; [|discriminate].
    destruct (set_head _ _ _); cbn [bind]; [|discriminate].
    replace (size (coef donor) >? size (m_c this))%Z with false.
    + intro E. injection E as E. subst e. reflexivity.
    + symmetry. rewrite Z.gtb_ltb. apply Z.ltb_ge. exact H.
Qed.

(** [operator+=] writes the coefficients only. *)
Lemma operator_plus_assign_frame (this donor e : ChebyshevExpansion) :
  operator_plus_assign uninitialized this donor = Ok e ->
  m_recurrence_buffer e = m_recurrence_buffer this /\
  m_xmin e = m_xmin this /\ m_xmax e = m_xmax this.
Proof.
  unfold operator_plus_assign.
  destruct (head _ _); cbn [bind]; [|discriminate].
  destruct (head _ _); cbn [bind]; [|discriminate].
  destruct (plus _ _); cbn [bind]; [|discriminate].
  destruct (set_head _ _ _); cbn [bind]; [|discriminate].
  destruct (_ >? _)%Z.
  - destruct (tail _ _); cbn [bind]; [|discriminate].
    destruct (set_tail _ _ _); cbn [bind]; [|discriminate].
    intro E. injection E as E. subst e. auto.
  - intro E. injection E as E. subst e. auto.
Qed.

(** With a recurrence buffer shorter than the coefficients the scalar
    evaluation leaves the buffer: at [o(0)], at [o(1)] or in the loop. *)
Lemma y_short_buffer (this : ChebyshevExpansion) (x : double) :
  (size (m_recurrence_buffer this) < size (m_c this))%Z ->
  y this x = Throw index_out_of_range.
Proof.
  intro H. unfold y.
  set (o := m_recurrence_buffer this) in *.
  set (xs := to_xscaled (m_xmin this) (m_xmax this) x).
  pose proof (size_nonneg o) as Ho.
  destruct (Z.eq_dec (size o) 0) as [E0|E0].
  { unfold coeffRef at 1. rewrite (proj2 (in_range_false 0 (size o))) by lia.
    reflexivity. }
  rewrite (@coeffRef_in_range o 0) by lia. cbn [bind].
  destruct (Z.eq_dec (size o) 1) as [E1|E1].
  { unfold coeffRef at 1.
    rewrite (proj2 (in_range_false 1 _)) by (rewrite size_update; lia).
    reflexivity. }
  rewrite coeffRef_in_range by (rewrite size_update; lia). cbn [bind].
  rewrite to_size_t_nonneg by lia.
  rewrite (@for_loop_throws _ (fun _ o' => size o' = size o)
             (Z.to_nat (size (m_c this) - 1 - 1)) (Z.to_nat (size o - 2)) 1%Z
             _ _ index_out_of_range); [reflexivity | lia | | |].
  - now rewrite !size_update.
  - intros i o' Hi Ho'. rewrite !coeff_in_range by lia. cbn [bind].
    rewrite coeffRef_in_range by lia. eexists. split; [reflexivity|].
    now rewrite size_update.
  - intros o' Ho'. rewrite !coeff_in_range by lia. cbn [bind].
    unfold coeffRef. rewrite (proj2 (in_range_false _ _)) by lia. reflexivity.
Qed.

(** X3, [operator+=] then [y] of main.cpp: a donor longer than the object
    makes the coefficients longer but not the recurrence buffer, which only
    the constructors size; from then on every scalar evaluation of the
    object ends in the range check of the buffer. *)
Theorem scalar_evaluation_after_growing_sum (c1 c2 : VectorXd)
  (xmin xmax xmin2 xmax2 : double) :
  (size c1 < size c2)%Z ->
  exists e,
    operator_plus_assign uninitialized (construct uninitialized c1 xmin xmax)
      (construct uninitialized c2 xmin2 xmax2) = Ok e /\
    size (coef e) = size c2 /\
    size (m_recurrence_buffer e) = size c1 /\
    forall x, y e x = Throw index_out_of_range.
Proof.
  intro H.
  destruct (@operator_plus_assign_longer uninitialized
              (construct uninitialized c1 xmin xmax)
              (construct uninitialized c2 xmin2 xmax2)) as [e [E [Hs _]]];
    [exact H|].
  destruct (operator_plus_assign_frame _ _ E) as [Hb _].
  destruct (construct_fields uninitialized c1 xmin xmax) as [_ [_ [_ Hb1]]].
  exists e. split; [exact E|]. split; [exact Hs|].
  split; [now rewrite Hb|].
  intro x. apply y_short_buffer. rewrite Hb, Hb1.
  unfold coef in Hs. rewrite Hs. exact H.
Qed.

End SumsOfFunctions.

Lemma sum_of_equal_lengths_witness :
  let A := construct Exact.uninitialized [of_Z 1; of_Z 2; of_Z 3]
             (of_Z 0) (of_Z 6) in
  let B := construct Exact.uninitialized [ratio 1 10; ratio 2 10; ratio 3 10]
             (of_Z 0) (of_Z 6) in
  size (coef A) = size (coef B) /\
  exists e,
    operator_plus Exact.uninitialized A B = Ok e /\
    operator_plus Exact.uninitialized B A = Ok e /\
    size (coef e) = size (coef A) /\
    (forall t, basis_sum (coef e) t
               = (basis_sum (coef A) t + basis_sum (coef B) t)%Qc) /\
    m_xmin e = default_xmin /\ m_xmax e = default_xmax.
Proof.
  cbv zeta. split; [reflexivity|].
  apply (@sum_of_equal_lengths Exact.uninitialized). reflexivity.
Defined.

Lemma sum_into_longer_expansion_witness :
  let A := construct Exact.uninitialized [of_Z 1; of_Z 2; of_Z 3; of_Z 4]
             (of_Z 0) (of_Z 6) in
  let B := construct Exact.uninitialized [ratio 1 10; ratio 2 10; ratio 3 10]
             (of_Z 0) (of_Z 6) in
  (size (coef B) <= size (coef A))%Z /\
  exists e,
    operator_plus_assign Exact.uninitialized A B = Ok e /\
    size (coef e) = size (coef A) /\
    (forall t, basis_sum (coef e) t
               = (basis_sum (coef A) t + basis_sum (coef B) t)%Qc) /\
    m_xmin e = m_xmin A /\ m_xmax e = m_xmax A /\
    m_recurrence_buffer e = m_recurrence_buffer A.
Proof.
  cbv zeta. split; [unfold size; simpl; lia|].
  apply (@sum_into_longer_expansion Exact.uninitialized).
  unfold size. simpl. lia.
Defined.

Lemma scalar_evaluation_after_growing_sum_witness :
  let c1 := [ratio 1 10; ratio 2 10; ratio 3 10] in
  let c2 := [of_Z 1; of_Z 2; of_Z 3; of_Z 4] in
  (size c1 < size c2)%Z /\
  exists e,
    operator_plus_assign Exact.uninitialized
      (construct Exact.uninitialized c1 (of_Z 0) (of_Z 6))
      (construct Exact.uninitialized c2 (of_Z 0) (of_Z 6)) = Ok e /\
    size (coef e) = size c2 /\
    size (m_recurrence_buffer e) = size c1 /\
    forall x, y e x = Throw index_out_of_range.
Proof.
  cbv zeta. split; [unfold size; simpl; lia|].
  apply (@scalar_evaluation_after_growing_sum Exact.uninitialized).
  unfold size. simpl. lia.
Defined.

(* ================================================================== *)
(** * The loops of [plus_by_inplace] and [mult_by_inplace] *)

Section InPlace.

Variable uninitialized : Z -> double.

Lemma scale_scale (c : VectorXd) (a b : double) :
  scale (scale c a) b = scale c (a * b)%Qc.
Proof.
  unfold scale. rewrite map_map. apply map_ext. intro x. ring.
Qed.

Lemma scale_one (c : VectorXd) : scale c 1%Qc = c.
Proof.
  unfold scale. rewrite <- (map_id c) at 2. apply map_ext. intro x. ring.
Qed.

Lemma set_m_c_same (ce : ChebyshevExpansion) : set_m_c ce (m_c ce) = ce.
Proof. destruct ce. reflexivity. Qed.

Lemma nth_scale (c : VectorXd) (a : double) (k : nat) :
  nth k (scale c a) 0%Qc = (nth k c 0 * a)%Qc.
Proof.
  unfold scale. destruct (Nat.lt_ge_cases k (length c)) as [L|L].
  - rewrite (nth_indep _ 0%Qc (0 * a)%Qc) by (now rewrite length_map).
    apply (map_nth (fun x => (x * a)%Qc)).
  - rewrite !nth_overflow; try ring; try rewrite length_map; lia.
Qed.

(** X4, [mult_by_inplace] of main.cpp: [N] turns of [ce *= val] multiply
    every coefficient by [val^N] and touch nothing else of the object; the
    value returned is the first coefficient, [c[0] * val^N]. *)
Theorem mult_by_inplace_power (ce : ChebyshevExpansion) (val : double) (N : Z) :
  (0 <= N)%Z -> (1 <= size (coef ce))%Z ->
  mult_by_inplace ce val N
  = Ok ((nth 0 (coef ce) 0 * val ^ Z.to_nat N)%Qc,
        set_m_c ce (scale (coef ce) (val ^ Z.to_nat N)%Qc)).
Proof.
  intros HN Hc. unfold mult_by_inplace. rewrite to_size_t_nonneg by exact HN.
  destruct (@for_loop_invariant ChebyshevExpansion
    (fun i e => e = set_m_c ce (scale (coef ce) (val ^ Z.to_nat i)%Qc))
    (Z.to_nat N) 0%Z (fun _ e => Ok (operator_times_assign e val)) ce)
    as [e [E He]].
  - change (Z.to_nat 0) with 0%nat. cbn [Qcpower].
    now rewrite scale_one, set_m_c_same.
  - intros i e Hi He. eexists. split; [reflexivity|]. subst e.
    unfold operator_times_assign, set_m_c, coef. cbn [m_c m_xmin m_xmax
      m_recurrence_buffer m_recurrence_buffer_matrix].
    rewrite scale_scale. do 3 f_equal.
    replace (Z.to_nat (i + 1)) with (Datatypes.S (Z.to_nat i)) by lia.
    cbn [Qcpower]. ring.
  - rewrite E. cbn [bind]. replace (0 + Z.of_nat (Z.to_nat N))%Z with N in He by lia.
    subst e. rewrite coeff_in_range.
    + cbn [bind]. change (Z.to_nat 0) with 0%nat. unfold set_m_c at 1, coef at 1.
      cbn [m_c]. now rewrite nth_scale.
    + unfold set_m_c, coef, size, scale in *. cbn [m_c]. rewrite length_map. lia.
Qed.

(** X5, [plus_by_inplace] of main.cpp with a donor that is another object
    and is not longer than [ce]: [N] turns of [ce += ce2] add [N] times each
    coefficient of the donor, keep the length and the domain of [ce], and
    the value returned is [c[0] + N * c2[0]]. *)
Theorem plus_by_inplace_multiple (ce ce2 : ChebyshevExpansion) (N : Z) :
  (0 <= N)%Z -> (size (coef ce2) <= size (coef ce))%Z ->
  (1 <= size (coef ce))%Z ->
  exists e,
    plus_by_inplace uninitialized ce ce2 N
    = Ok ((nth 0 (coef ce) 0 + of_Z N * nth 0 (coef ce2) 0)%Qc, e) /\
    size (coef e) = size (coef ce) /\
    (forall k, nth k (coef e) 0%Qc
               = (nth k (coef ce) 0 + of_Z N * nth k (coef ce2) 0)%Qc) /\
    m_xmin e = m_xmin ce /\ m_xmax e = m_xmax ce.
Proof.
  intros HN Hd Hc. unfold plus_by_inplace. rewrite to_size_t_nonneg by exact HN.
  destruct (@for_loop_invariant ChebyshevExpansion
    (fun i e => size (coef e) = size (coef ce) /\
       (forall k, nth k (coef e) 0%Qc
                  = (nth k (coef ce) 0 + of_Z i * nth k (coef ce2) 0)%Qc) /\
       m_xmin e = m_xmin ce /\ m_xmax e = m_xmax ce)
    (Z.to_nat N) 0%Z (fun _ e => operator_plus_assign uninitialized e ce2) ce)
    as [e [E [Hs [Hk [Hmin Hmax]]]]].
  - repeat split. intro k. change (of_Z 0) with 0%Qc. ring.
  - intros i e Hi [Hs [Hk [Hmin Hmax]]].
    destruct (@operator_plus_assign_not_longer uninitialized e ce2)
      as [e' [E' [Hs' [Hlo [Hhi [Hmin' Hmax']]]]]]; [lia|].
    exists e'. split; [exact E'|]. split; [congruence|].
    split; [|split; congruence].
    intro k. rewrite of_Z_plus. change (of_Z 1) with 1%Qc.
    destruct (Nat.lt_ge_cases k (length (coef ce2))) as [L|L].
    + rewrite Hlo by exact L. rewrite Hk. ring.
    + rewrite Hhi by exact L. rewrite Hk.
      rewrite (@nth_overflow _ (coef ce2)) by lia. ring.
  - exists e. replace (0 + Z.of_nat (Z.to_nat N))%Z with N in Hk by lia.
    split; [|repeat split; assumption].
    rewrite E. cbn [bind]. rewrite coeff_in_range by lia. cbn [bind].
    change (Z.to_nat 0) with 0%nat. now rewrite Hk.
Qed.

Lemma power_of_two_nonneg (n : nat) : (0 <= of_Z 2 ^ n)%Qc.
Proof.
  induction n as [|n IH]; cbn [Qcpower]; [discriminate|].
  apply Qcmult_nonneg; [discriminate|exact IH].
Qed.

(** X6, [plus_by_inplace(ce, ce, N)], the donor being the object itself, for
    [N >= 0], at least one coefficient, and coefficients whose absolute
    values times [2^N] do not exceed [DBL_MAX]: every turn doubles the
    coefficients, so they end multiplied by [2^N], none of them beyond
    [DBL_MAX], with the length and the domain kept, and the value returned
    is [c[0] * 2^N].  (Within the bound no doubling of a [double] rounds or
    overflows.) *)
Theorem plus_by_inplace_self_doubles (ce : ChebyshevExpansion) (N : Z) :
  (0 <= N)%Z -> (1 <= size (coef ce))%Z ->
  Forall (fun c_k => (Qcabs c_k * of_Z 2 ^ Z.to_nat N <= DBL_MAX)%Qc)
    (coef ce) ->
  exists e,
    plus_by_inplace_self uninitialized ce N
    = Ok ((nth 0 (coef ce) 0 * of_Z 2 ^ Z.to_nat N)%Qc, e) /\
    size (coef e) = size (coef ce) /\
    (forall k, nth k (coef e) 0%Qc
               = (nth k (coef ce) 0 * of_Z 2 ^ Z.to_nat N)%Qc) /\
    Forall (fun c_k => (Qcabs c_k <= DBL_MAX)%Qc) (coef e) /\
    m_xmin e = m_xmin ce /\ m_xmax e = m_xmax ce.
Proof.
  intros HN Hc Hmax. unfold plus_by_inplace_self.
  rewrite to_size_t_nonneg by exact HN.
  destruct (@for_loop_invariant ChebyshevExpansion
    (fun i e => size (coef e) = size (coef ce) /\
       (forall k, nth k (coef e) 0%Qc
                  = (nth k (coef ce) 0 * of_Z 2 ^ Z.to_nat i)%Qc) /\
       m_xmin e = m_xmin ce /\ m_xmax e = m_xmax ce)
    (Z.to_nat N) 0%Z (fun _ e => operator_plus_assign uninitialized e e) ce)
    as [e [E [Hs [Hk [Hmin Hmax']]]]].
  - repeat split. intro k. change (Z.to_nat 0) with 0%nat. cbn [Qcpower]. ring.
  - intros i e Hi [Hs [Hk [Hmin Hmax']]].
    destruct (@operator_plus_assign_not_longer uninitialized e e)
      as [e' [E' [Hs' [Hlo [Hhi [Hmin' Hmax'']]]]]]; [lia|].
    exists e'. split; [exact E'|]. split; [congruence|].
    split; [|split; congruence].
    intro k.
    replace (Z.to_nat (i + 1)) with (Datatypes.S (Z.to_nat i)) by lia.
    cbn [Qcpower]. rewrite of_Z_2.
    destruct (Nat.lt_ge_cases k (length (coef e))) as [L|L].
    + rewrite Hlo by exact L. rewrite Hk. rewrite of_Z_2. ring.
    + rewrite Hhi by exact L. rewrite Hk.
      unfold size in Hs. rewrite (@nth_overflow _ (coef ce)) by lia. ring.
  - exists e. replace (0 + Z.of_nat (Z.to_nat N))%Z with N in Hk by lia.
    split; [|split; [exact Hs|split; [exact Hk|split; [|split; assumption]]]].
    + rewrite E. cbn [bind]. rewrite coeff_in_range by lia. cbn [bind].
      change (Z.to_nat 0) with 0%nat. now rewrite Hk.
    + assert (Ee : coef e
                   = map (fun c_k => (c_k * of_Z 2 ^ Z.to_nat N)%Qc) (coef ce)).
      { unfold size in Hs. apply (nth_ext _ _ 0%Qc 0%Qc).
        - rewrite length_map. lia.
        - intros k Lk. rewrite Hk. symmetry.
          apply (@nth_map_in_range _ (fun c_k => (c_k * of_Z 2 ^ Z.to_nat N)%Qc)).
          lia. }
      rewrite Ee. apply Forall_map.
      apply (Forall_impl _ (P := fun c_k =>
               (Qcabs c_k * of_Z 2 ^ Z.to_nat N <= DBL_MAX)%Qc)); [|exact Hmax].
      intros c_k Hck. rewrite Qcabs_Qcmult.
      now rewrite (@Qcabs_pos _ (power_of_two_nonneg (Z.to_nat N))).
Qed.

End InPlace.

Lemma mult_by_inplace_power_witness :
  let ce := construct Exact.uninitialized [of_Z 1; of_Z 3] (of_Z 0) (of_Z 6) in
  mult_by_inplace ce (of_Z 2) 3
  = Ok ((nth 0 (coef ce) 0 * of_Z 2 ^ Z.to_nat 3)%Qc,
        set_m_c ce (scale (coef ce) (of_Z 2 ^ Z.to_nat 3)%Qc)).
Proof.
  cbv zeta. apply mult_by_inplace_power; [lia | unfold size; simpl; lia].
Defined.

Lemma plus_by_inplace_multiple_witness :
  let ce := construct Exact.uninitialized [of_Z 1; of_Z 3] (of_Z 0) (of_Z 6) in
  let ce2 := construct Exact.uninitialized [of_Z 5] (of_Z 0) (of_Z 6) in
  exists e,
    plus_by_inplace Exact.uninitialized ce ce2 3
    = Ok ((nth 0 (coef ce) 0 + of_Z 3 * nth 0 (coef ce2) 0)%Qc, e) /\
    size (coef e) = size (coef ce) /\
    (forall k, nth k (coef e) 0%Qc
               = (nth k (coef ce) 0 + of_Z 3 * nth k (coef ce2) 0)%Qc) /\
    m_xmin e = m_xmin ce /\ m_xmax e = m_xmax ce.
Proof.
  cbv zeta. apply (@plus_by_inplace_multiple Exact.uninitialized);
    [lia | unfold size; simpl; lia | unfold size; simpl; lia].
Defined.

Lemma plus_by_inplace_self_doubles_witness :
  let ce := construct Exact.uninitialized [of_Z 1; of_Z 3] (of_Z 0) (of_Z 6) in
  Forall (fun c_k => (Qcabs c_k * of_Z 2 ^ Z.to_nat 3 <= DBL_MAX)%Qc) (coef ce) /\
  exists e,
    plus_by_inplace_self Exact.uninitialized ce 3
    = Ok ((nth 0 (coef ce) 0 * of_Z 2 ^ Z.to_nat 3)%Qc, e) /\
    size (coef e) = size (coef ce) /\
    (forall k, nth k (coef e) 0%Qc
               = (nth k (coef ce) 0 * of_Z 2 ^ Z.to_nat 3)%Qc) /\
    Forall (fun c_k => (Qcabs c_k <= DBL_MAX)%Qc) (coef e) /\
    m_xmin e = m_xmin ce /\ m_xmax e = m_xmax ce.
Proof.
  cbv zeta.
  assert (H : Forall (fun c_k => (Qcabs c_k * of_Z 2 ^ Z.to_nat 3 <= DBL_MAX)%Qc)
                [of_Z 1; of_Z 3]).
  { repeat constructor; apply leb_le; vm_compute; reflexivity. }
  split; [exact H|].
  apply (@plus_by_inplace_self_doubles Exact.uninitialized);
    [lia | unfold size; simpl; lia | exact H].
Defined.

(* ================================================================== *)
(** * Evaluation: repeated, batched, and without coefficients *)

(** X10, [is_in_closed_range] of main.cpp: the bounds may come in either
    order; the answer is yes exactly when [x] lies between them, the bounds
    included. *)
Theorem is_in_closed_range_between (x1 x2 x : double) :
  is_in_closed_range x1 x2 x = true <->
  ((x1 <= x)%Qc /\ (x <= x2)%Qc) \/ ((x2 <= x)%Qc /\ (x <= x1)%Qc).
Proof.
  rewrite is_in_closed_range_spec. unfold std_min, std_max.
  destruct (ltb x2 x1) eqn:E21; destruct (ltb x1 x2) eqn:E12.
  - apply ltb_lt in E21. apply ltb_lt in E12.
    exfalso. apply (Qclt_not_le _ _ E21). now apply Qclt_le_weak.
  - apply ltb_lt in E21. split; [auto|].
    intros [[H1 H2]|H]; [|exact H].
    exfalso. apply (Qclt_not_le _ _ E21). now apply Qcle_trans with x.
  - apply ltb_lt in E12. split; [auto|].
    intros [H|[H1 H2]]; [exact H|].
    exfalso. apply (Qclt_not_le _ _ E12). now apply Qcle_trans with x.
  - assert (E : x1 = x2).
    { apply Qcle_antisym; apply Qcnot_lt_le; intro H; apply ltb_lt in H;
        congruence. }
    subst x2. tauto.
Qed.

Section EvaluationAgain.

Variable uninitialized : Z -> double.
Variable eigenvalues : MatrixXd -> list complex.

(** The scalar evaluation on any object whose buffer has the length of its
    coefficients. *)
Lemma y_sized_buffer (this : ChebyshevExpansion) (x : double) :
  size (m_recurrence_buffer this) = size (m_c this) ->
  (2 <= size (m_c this))%Z ->
  exists this',
    y this x = Ok (basis_sum (m_c this)
                     (to_xscaled (m_xmin this) (m_xmax this) x), this') /\
    m_c this' = m_c this /\ m_xmin this' = m_xmin this /\
    m_xmax this' = m_xmax this /\
    size (m_recurrence_buffer this') = size (m_c this).
Proof.
  intros Hb H. unfold y.
  set (o := m_recurrence_buffer this) in *.
  set (c := m_c this) in *.
  set (xs := to_xscaled (m_xmin this) (m_xmax this) x).
  rewrite to_size_t_nonneg by lia.
  destruct (@recurrence_buffer_filled o (size c - 1) xs)
    as [o1 [o2 [o' [Eo1 [Eo2 [E Ho']]]]]]; [lia | lia |].
  rewrite Eo1. cbn [bind]. rewrite Eo2. cbn [bind]. rewrite E. cbn [bind].
  unfold dot.
  assert (Hs : size o' = size c).
  { subst o'. unfold size in *. rewrite length_map, length_seq. lia. }
  rewrite Hs, Z.eqb_refl. cbn [bind].
  exists (set_m_recurrence_buffer this o'). split.
  - unfold basis_sum. subst o'.
    replace (length o) with (length c) by (unfold size in Hb; lia).
    reflexivity.
  - repeat split. exact Hs.
Qed.

(** X7, [y(double)] of main.cpp with at least two coefficients: the
    evaluation writes into the recurrence buffer of the object, yet what an
    earlier evaluation at [x1] left there does not show in the next one at
    [x2], which returns the canonical-basis sum at the rescaled [x2] and
    leaves the coefficients and the domain as constructed. *)
Theorem evaluation_is_repeatable (c : VectorXd) (xmin xmax x1 x2 : double) :
  (2 <= size c)%Z ->
  exists v1 C1 C2,
    y (construct uninitialized c xmin xmax) x1 = Ok (v1, C1) /\
    y C1 x2 = Ok (basis_sum c (to_xscaled xmin xmax x2), C2) /\
    coef C2 = c /\ m_xmin C2 = xmin /\ m_xmax C2 = xmax.
Proof.
  intro H.
  destruct (construct_fields uninitialized c xmin xmax) as [E1 [E2 [E3 E4]]].
  destruct (@y_sized_buffer (construct uninitialized c xmin xmax) x1)
    as [C1 [Ey1 [Hc1 [Hmin1 [Hmax1 Hb1]]]]]; [congruence | congruence |].
  destruct (@y_sized_buffer C1 x2)
    as [C2 [Ey2 [Hc2 [Hmin2 [Hmax2 Hb2]]]]]; [congruence | congruence |].
  eexists. exists C1, C2. split; [exact Ey1|].
  split; [rewrite Ey2; congruence|].
  unfold coef. repeat split; congruence.
Qed.

(** X8, [y(vectype)] against [y(double)] of main.cpp with at least two
    coefficients: the batched evaluation returns one value per abscissa,
    and each is the value the scalar evaluation returns there. *)
Theorem batched_evaluation_pointwise (c : VectorXd) (xmin xmax : double)
  (x : VectorXd) :
  (2 <= size c)%Z ->
  exists v this',
    y_vector uninitialized (construct uninitialized c xmin xmax) x
    = Ok (v, this') /\
    size v = size x /\
    forall i, (0 <= i < size x)%Z ->
      value_of (y (construct uninitialized c xmin xmax) (nth (Z.to_nat i) x 0%Qc))
      = Ok (nth (Z.to_nat i) v 0%Qc).
Proof.
  intro H.
  destruct (@y_vector_basis_sum uninitialized c xmin xmax x H) as [this' [E _]].
  eexists. exists this'. split; [exact E|].
  split; [unfold size; now rewrite length_map|].
  intros i Hi.
  destruct (@y_basis_sum uninitialized c xmin xmax (nth (Z.to_nat i) x 0%Qc) H)
    as [t [Ey _]].
  rewrite Ey. cbn [value_of fst]. f_equal. symmetry.
  apply (@nth_map_in_range _ (fun x_i => basis_sum c (to_xscaled xmin xmax x_i))).
  unfold size in Hi. lia.
Qed.

(** X9, an expansion without coefficients, on any domain: both evaluators
    end in a range check, [real_roots] ends in the request of a matrix of
    negative size, and [mult_by_inplace] ends in the range check of
    [coef()(0)] for every factor and every count. *)
Theorem empty_expansion (xmin xmax : double) :
  let C := construct uninitialized [] xmin xmax in
  (forall x, y C x = Throw index_out_of_range) /\
  (forall x, y_vector uninitialized C x = Throw index_out_of_range) /\
  (forall only_in_domain,
     real_roots eigenvalues C only_in_domain = Throw negative_size) /\
  (forall val N, mult_by_inplace C val N = Throw index_out_of_range).
Proof.
  cbv zeta. split; [reflexivity|]. split; [|split; [reflexivity|]].
  - intro x. unfold y_vector, y_xscaled. cbn [m_c construct resize
      set_m_recurrence_buffer size length Z.of_nat].
    unfold mresize. destruct (_ =? _)%Z; reflexivity.
  - intros val N. unfold mult_by_inplace.
    destruct (@for_loop_invariant ChebyshevExpansion
      (fun _ e => coef e = [])
      (Z.to_nat (to_size_t N)) 0%Z
      (fun _ e => Ok (operator_times_assign e val))
      (construct uninitialized [] xmin xmax)) as [e [E He]].
    + reflexivity.
    + intros i e _ He. eexists. split; [reflexivity|].
      unfold coef, operator_times_assign, set_m_c in *. cbn [m_c].
      now rewrite He.
    + rewrite E. cbn [bind]. rewrite He. reflexivity.
Qed.

End EvaluationAgain.

Lemma evaluation_is_repeatable_witness :
  let c := [of_Z 1; of_Z 2; of_Z 3] in
  exists v1 C1 C2,
    y (construct Exact.uninitialized c (of_Z 0) (of_Z 6)) (of_Z 1) = Ok (v1, C1) /\
    y C1 (of_Z 2) = Ok (basis_sum c (to_xscaled (of_Z 0) (of_Z 6) (of_Z 2)), C2) /\
    coef C2 = c /\ m_xmin C2 = of_Z 0 /\ m_xmax C2 = of_Z 6.
Proof.
  cbv zeta. apply (@evaluation_is_repeatable Exact.uninitialized).
  unfold size. simpl. lia.
Defined.

Lemma batched_evaluation_pointwise_witness :
  let c := [of_Z 1; of_Z 2; of_Z 3] in
  let x := [of_Z 1; of_Z 2; of_Z 5] in
  exists v this',
    y_vector Exact.uninitialized
      (construct Exact.uninitialized c (of_Z 0) (of_Z 6)) x = Ok (v, this') /\
    size v = size x /\
    forall i, (0 <= i < size x)%Z ->
      value_of (y (construct Exact.uninitialized c (of_Z 0) (of_Z 6))
                  (nth (Z.to_nat i) x 0%Qc))
      = Ok (nth (Z.to_nat i) v 0%Qc).
Proof.
  cbv zeta. apply (@batched_evaluation_pointwise Exact.uninitialized).
  unfold size. simpl. lia.
Defined.

(* ================================================================== *)
(** * The root finders: filter, round trip, count and short grids *)

Section Roots.

Variable uninitialized : Z -> double.
Variable eigenvalues : MatrixXd -> list complex.
Variable cos_pi : Z -> Z -> double.
Variable sqrt : double -> double.
Variable colPivHouseholderQr_solve : Matrix3d -> Vector3d -> Vector3d.

(** X11, [real_roots] of main.cpp: with [only_in_domain] the result is the
    result without it, in the same order, less the values outside
    [[xmin, xmax]]; where one call fails the other fails alike. *)
Theorem real_roots_domain_filter (this : ChebyshevExpansion) :
  real_roots eigenvalues this true
  = (roots <- real_roots eigenvalues this false ;;
     Ok (filter (fun x => leb (m_xmin this) x && leb x (m_xmax this)) roots)).
Proof.
  destruct (companion_matrix this) as [A|e] eqn:EA.
  - rewrite !(@real_roots_of_companion_matrix eigenvalues this _ A EA).
    cbn [bind]. unfold roots_of_eigenvalues. rewrite filter_filter.
    reflexivity.
  - unfold real_roots. rewrite EA. reflexivity.
Qed.

(** X12, [real_roots] then [y] of main.cpp, at least three coefficients on
    a domain with [xmin <> xmax]: the scalar evaluation at a returned root
    is the canonical-basis sum at the real part of the eigenvalue the root
    came from: the map of [y] into [[-1, 1]] undoes the map of [real_roots]
    out of it. *)
Theorem evaluation_at_a_root (c : VectorXd) (xmin xmax : double)
  (only_in_domain : bool) :
  (3 <= size c)%Z -> xmin <> xmax ->
  exists A roots,
    companion_matrix (construct uninitialized c xmin xmax) = Ok A /\
    real_roots eigenvalues (construct uninitialized c xmin xmax) only_in_domain
      = Ok roots /\
    forall x, In x roots ->
      exists ev, In ev (eigenvalues A) /\
        x = to_realworld xmin xmax (real ev) /\
        value_of (y (construct uninitialized c xmin xmax) x)
        = Ok (basis_sum c (real ev)).
Proof.
  intros Hc Hd.
  destruct (@companion_matrix_entries (construct uninitialized c xmin xmax)
              (size c - 1)) as [A [EA _]]; [simpl; lia | lia |].
  exists A. eexists. split; [exact EA|].
  split; [apply (@real_roots_of_companion_matrix eigenvalues _ _ A EA)|].
  intros x Hin. apply in_roots_of_eigenvalues in Hin.
  destruct Hin as [ev [Hev [_ [Hx _]]]]. exists ev.
  split; [exact Hev|]. split; [exact Hx|].
  destruct (@y_basis_sum uninitialized c xmin xmax x) as [t [E _]]; [lia|].
  rewrite E. cbn [value_of fst]. f_equal. f_equal.
  cbn [m_xmin m_xmax construct] in Hx. rewrite Hx.
  now apply to_xscaled_to_realworld.
Qed.

(** One turn of the loop of [real_roots_approx] pushes one value when the
    samples [i] and [i+1] differ in sign, none otherwise. *)
Lemma real_roots_approx_step_length (this : ChebyshevExpansion)
  (xpts_n11 ypts : VectorXd) (Npoints i : Z) (roots : list double) :
  size xpts_n11 = (Npoints + 1)%Z -> size ypts = (Npoints + 1)%Z ->
  (0 <= i < Npoints - 1)%Z ->
  exists roots',
    real_roots_approx_step sqrt colPivHouseholderQr_solve this xpts_n11 ypts i roots
      = Ok roots' /\
    length roots'
    = (length roots
       + if Bool.eqb (signbit (nth (Z.to_nat i) ypts 0%Qc))
                     (signbit (nth (Z.to_nat (i + 1)) ypts 0%Qc))
         then 0 else 1)%nat.
Proof.
  intros Hx Hy Hi. unfold real_roots_approx_step.
  rewrite !(@coeff_in_range ypts) by lia. cbn [bind].
  destruct (Bool.eqb (signbit (nth (Z.to_nat i) ypts 0%Qc))
              (signbit (nth (Z.to_nat (i + 1)) ypts 0%Qc))) eqn:Esign;
    cbn [negb].
  { exists roots. split; [reflexivity|lia]. }
  assert (H0 : (0 <= (if (1 <=? i)%Z then i - 1 else i)
                /\ (if (1 <=? i)%Z then i - 1 else i) + 2 < Npoints + 1)%Z).
  { destruct (Z.leb_spec 1 i); lia. }
  set (i0 := if (1 <=? i)%Z then (i - 1)%Z else i) in *.
  rewrite !(@coeff_in_range ypts) by lia. cbn [bind].
  rewrite !(@coeff_in_range xpts_n11) by lia. cbn [bind].
  destruct (colPivHouseholderQr_solve _ _) as [[a b] c]. cbn [bind].
  eexists. split; [reflexivity|]. rewrite length_app. reflexivity.
Qed.

(** X13, [real_roots_approx] of main.cpp with at least two coefficients and
    [Npoints >= 1]: the call returns one value for each [i] from [0] to
    [Npoints - 2] at which the samples [i] and [i+1] differ in sign, and no
    other: at most [Npoints - 1] values, and the last pair of samples,
    [Npoints - 1] and [Npoints], is never looked at. *)
Theorem real_roots_approx_count (c : VectorXd) (xmin xmax : double)
  (Npoints : Z) :
  (2 <= size c)%Z -> (1 <= Npoints)%Z ->
  exists roots this',
    real_roots_approx uninitialized cos_pi sqrt colPivHouseholderQr_solve
      (construct uninitialized c xmin xmax) Npoints = Ok (roots, this') /\
    length roots
    = length (filter (sign_change c cos_pi Npoints)
                (zrange 0 (Z.to_nat (Npoints - 1)))) /\
    (Z.of_nat (length roots) <= Npoints - 1)%Z.
Proof.
  intros Hc HN. unfold real_roots_approx.
  replace (Npoints + 1 <? 0)%Z with false by (symmetry; apply Z.ltb_ge; lia).
  set (this := construct uninitialized c xmin xmax).
  set (xpts := map (fun k => cos_pi k Npoints) (zrange 0 (Z.to_nat (Npoints + 1)))).
  assert (Hx : size xpts = (Npoints + 1)%Z).
  { unfold xpts, size. rewrite length_map, length_zrange. lia. }
  destruct (@y_xscaled_basis_sum uninitialized this xpts) as [this' [E _]];
    [exact Hc|].
  rewrite E. cbn [bind fst snd].
  set (ypts := map (basis_sum (m_c this)) xpts).
  assert (Hy : size ypts = (Npoints + 1)%Z).
  { unfold ypts, size. rewrite length_map. unfold size in Hx. exact Hx. }
  assert (Hnth : forall k, (0 <= k <= Npoints)%Z ->
            nth (Z.to_nat k) ypts 0%Qc = basis_sum c (cos_pi k Npoints)).
  { intros k Hk. unfold ypts, xpts. rewrite map_map.
    rewrite nth_map_zrange by lia. change (m_c this) with c.
    do 2 f_equal. lia. }
  rewrite to_size_t_nonneg by lia.
  destruct (@for_loop_invariant (list double)
              (fun i roots => length roots
                 = length (filter (sign_change c cos_pi Npoints)
                             (zrange 0 (Z.to_nat i))))
              (Z.to_nat (Npoints - 1)) 0%Z
              (real_roots_approx_step sqrt colPivHouseholderQr_solve this xpts ypts)
              []) as [roots [ER HR]].
  - reflexivity.
  - intros i roots Hi HQ.
    destruct (@real_roots_approx_step_length this xpts ypts Npoints i roots Hx Hy)
      as [roots' [E1 L1]]; [lia|].
    exists roots'. split; [exact E1|]. rewrite !Hnth in L1 by lia.
    rewrite L1, HQ.
    replace (Z.to_nat (i + 1)) with (Datatypes.S (Z.to_nat i)) by lia.
    rewrite zrange_snoc, filter_app, length_app. f_equal.
    cbn [filter]. replace (0 + Z.of_nat (Z.to_nat i))%Z with i by lia.
    unfold sign_change. destruct (Bool.eqb _ _); reflexivity.
  - exists roots, this'. split; [rewrite ER; reflexivity|].
    replace (0 + Z.of_nat (Z.to_nat (Npoints - 1)))%Z with (Npoints - 1)%Z in HR by lia.
    split; [exact HR|]. rewrite HR.
    pose proof (filter_length_le (sign_change c cos_pi Npoints)
                  (zrange 0 (Z.to_nat (Npoints - 1)))) as L.
    rewrite length_zrange in L. lia.
Qed.

(** X14, [real_roots_approx] of main.cpp with [Npoints] equal to [0] or
    [-1]: the counter of type [size_t] is compared with [Npoints - 1], a
    negative [long], so the loop is entered, and its first turn reads a
    sample that does not exist. *)
Theorem real_roots_approx_without_interval (c : VectorXd) (xmin xmax : double)
  (Npoints : Z) :
  (2 <= size c)%Z -> (-1 <= Npoints <= 0)%Z ->
  real_roots_approx uninitialized cos_pi sqrt colPivHouseholderQr_solve
    (construct uninitialized c xmin xmax) Npoints = Throw index_out_of_range.
Proof.
  intros Hc HN. unfold real_roots_approx.
  replace (Npoints + 1 <? 0)%Z with false by (symmetry; apply Z.ltb_ge; lia).
  set (this := construct uninitialized c xmin xmax).
  set (xpts := map (fun k => cos_pi k Npoints) (zrange 0 (Z.to_nat (Npoints + 1)))).
  assert (Hx : size xpts = (Npoints + 1)%Z).
  { unfold xpts, size. rewrite length_map, length_zrange. lia. }
  destruct (@y_xscaled_basis_sum uninitialized this xpts) as [this' [E _]];
    [exact Hc|].
  rewrite E. cbn [bind fst snd].
  set (ypts := map (basis_sum (m_c this)) xpts).
  assert (Hy : size ypts = (Npoints + 1)%Z).
  { unfold ypts, size. rewrite length_map. unfold size in Hx. exact Hx. }
  assert (Hcount : (0 < Z.to_nat (to_size_t (Npoints - 1)))%nat).
  { unfold to_size_t.
    replace (Npoints - 1 <? 0)%Z with true by (symmetry; apply Z.ltb_lt; lia).
    lia. }
  rewrite (@for_loop_throws _ (fun _ _ => True) _ 0 0%Z _ _ index_out_of_range);
    [reflexivity | exact Hcount | exact I | intros; lia |].
  intros roots _. unfold real_roots_approx_step. cbn [Z.of_nat Z.add].
  unfold coeff at 1. destruct (in_range 0 (size ypts)) eqn:R0; [|reflexivity].
  cbn [bind]. unfold coeff at 1.
  rewrite (proj2 (in_range_false _ _)) by lia. reflexivity.
Qed.

End Roots.

Lemma evaluation_at_a_root_witness :
  let c := [ratio 1 2; of_Z 0; of_Z 1] in
  let C := construct Exact.uninitialized c (of_Z 0) (of_Z 6) in
  exists A roots,
    companion_matrix C = Ok A /\
    real_roots Exact.eigenvalues C true = Ok roots /\
    forall x, In x roots ->
      exists ev, In ev (Exact.eigenvalues A) /\
        x = to_realworld (of_Z 0) (of_Z 6) (real ev) /\
        value_of (y C x) = Ok (basis_sum c (real ev)).
Proof.
  cbv zeta.
  apply (@evaluation_at_a_root Exact.uninitialized Exact.eigenvalues);
    [unfold size; simpl; lia | apply Qc_neq; reflexivity].
Defined.

Lemma real_roots_approx_count_witness :
  let c := [of_Z 0; of_Z 1] in
  exists roots this',
    real_roots_approx Exact.uninitialized Exact.cos_pi Exact.sqrt
      Exact.colPivHouseholderQr_solve
      (construct Exact.uninitialized c (of_Z 0) (of_Z 6)) 2 = Ok (roots, this') /\
    length roots
    = length (filter (sign_change c Exact.cos_pi 2) (zrange 0 (Z.to_nat (2 - 1)))) /\
    (Z.of_nat (length roots) <= 2 - 1)%Z.
Proof.
  cbv zeta.
  apply (@real_roots_approx_count Exact.uninitialized Exact.cos_pi Exact.sqrt
           Exact.colPivHouseholderQr_solve);
    [unfold size; simpl; lia | lia].
Defined.

Lemma real_roots_approx_without_interval_witness :
  real_roots_approx Exact.uninitialized Exact.cos_pi Exact.sqrt
    Exact.colPivHouseholderQr_solve
    (construct Exact.uninitialized [of_Z 0; of_Z 1] (of_Z 0) (of_Z 6)) 0
  = Throw index_out_of_range.
Proof.
  apply (@real_roots_approx_without_interval Exact.uninitialized Exact.cos_pi
           Exact.sqrt Exact.colPivHouseholderQr_solve);
    [unfold size; simpl; lia | lia].
Defined.

(* ================================================================== *)
(** * [generate_Chebyshev_expansion] *)

Section Generation.

Variable uninitialized : Z -> double.
Variable cos_pi : Z -> Z -> double.

Lemma grid_point_to_realworld (N : Z) (xmin xmax : double) (k : Z) :
  grid_point cos_pi N xmin xmax k = to_realworld xmin xmax (cos_pi k N).
Proof.
  unfold grid_point, to_realworld. rewrite of_Z_2. field.
  apply one_plus_one_neq_0.
Qed.

(** The first loop fills [f] with the function values at the grid points. *)
Lemma function_values_filled (N : Z) (func : double -> double)
  (xmin xmax : double) (f0 : VectorXd) :
  size f0 = (N + 1)%Z ->
  for_loop (Z.to_nat (N + 1)) 0
    (fun k f => coeffRef f k (func (grid_point cos_pi N xmin xmax k))) f0
  = Ok (map (fun k => func (grid_point cos_pi N xmin xmax k))
          (zrange 0 (Z.to_nat (N + 1)))).
Proof.
  intro H0.
  destruct (@for_loop_invariant VectorXd
    (fun k f => size f = (N + 1)%Z /\
       forall i, (0 <= i < k)%Z ->
         nth (Z.to_nat i) f 0%Qc = func (grid_point cos_pi N xmin xmax i))
    (Z.to_nat (N + 1)) 0%Z
    (fun k f => coeffRef f k (func (grid_point cos_pi N xmin xmax k))) f0)
    as [f [E [Hs Hf]]].
  - split; [exact H0|]. intros i Hi. lia.
  - intros k f Hk [Hs Hf]. rewrite coeffRef_in_range by lia.
    eexists. split; [reflexivity|]. split; [now rewrite size_update|].
    intros i Hi. unfold size in Hs. rewrite nth_update by lia.
    destruct (Nat.eqb_spec (Z.to_nat i) (Z.to_nat k)) as [Eq|Ne].
    + do 2 f_equal. lia.
    + apply Hf. lia.
  - rewrite E. f_equal. unfold size in Hs.
    apply (nth_ext _ _ 0%Qc 0%Qc).
    + rewrite length_map, length_zrange. lia.
    + intros n Hn. rewrite nth_map_zrange by lia.
      rewrite <- (Hf (Z.of_nat n)) by lia. now rewrite Nat2Z.id.
Qed.

(** The two nested loops fill every entry of [L]. *)
Lemma L_filled (N : Z) (L0 : MatrixXd) :
  rows L0 = (N + 1)%Z -> cols L0 = (N + 1)%Z ->
  exists L,
    for_loop (Z.to_nat (N + 1)) 0
      (fun j L =>
         for_loop (Z.to_nat (N + 1)) 0
           (fun k L => mcoeffRef L j k (L_entry cos_pi N j k)) L) L0 = Ok L /\
    rows L = (N + 1)%Z /\ cols L = (N + 1)%Z /\
    forall j k, (0 <= j <= N)%Z -> (0 <= k <= N)%Z ->
      at_ L j k = L_entry cos_pi N j k.
Proof.
  intros Hr Hc.
  destruct (@for_loop_invariant MatrixXd
    (fun j L => rows L = (N + 1)%Z /\ cols L = (N + 1)%Z /\
       forall i k, (0 <= i < j)%Z -> (0 <= k <= N)%Z ->
         at_ L i k = L_entry cos_pi N i k)
    (Z.to_nat (N + 1)) 0%Z
    (fun j L =>
       for_loop (Z.to_nat (N + 1)) 0
         (fun k L => mcoeffRef L j k (L_entry cos_pi N j k)) L) L0)
    as [L [E [HLr [HLc HL]]]].
  - repeat split; try assumption. intros i k Hi. lia.
  - intros j L Hj [HLr [HLc HL]].
    destruct (@for_loop_invariant MatrixXd
      (fun k L' => rows L' = (N + 1)%Z /\ cols L' = (N + 1)%Z /\
         (forall i k', (0 <= i < j)%Z -> (0 <= k' <= N)%Z ->
            at_ L' i k' = L_entry cos_pi N i k') /\
         (forall k', (0 <= k' < k)%Z -> at_ L' j k' = L_entry cos_pi N j k'))
      (Z.to_nat (N + 1)) 0%Z
      (fun k L => mcoeffRef L j k (L_entry cos_pi N j k)) L)
      as [L' [E' [Hr' [Hc' [Hprev Hrow]]]]].
    + repeat split; try assumption. intros k' Hk'. lia.
    + intros k L' Hk [Hr' [Hc' [Hprev Hrow]]].
      rewrite mcoeffRef_in_range by lia.
      eexists. split; [reflexivity|]. cbn [rows cols at_].
      repeat split; try assumption.
      * intros i k' Hi Hk'. replace (i =? j)%Z with false
          by (symmetry; apply Z.eqb_neq; lia). cbn [andb]. now apply Hprev.
      * intros k' Hk'. rewrite Z.eqb_refl. cbn [andb].
        destruct (Z.eqb_spec k' k) as [Ek|Nk]; [now subst|]. apply Hrow. lia.
    + exists L'. split; [exact E'|]. repeat split; try assumption.
      intros i k Hi Hk. destruct (Z.eq_dec i j) as [Ei|Ni].
      * subst i. apply Hrow. lia.
      * apply Hprev; lia.
  - exists L. split; [exact E|]. repeat split; try assumption.
    intros j k Hj Hk. apply HL; lia.
Qed.

Lemma generate_Chebyshev_expansion_closed_form (N : Z)
  (func : double -> double) (xmin xmax : double) :
  (0 <= N)%Z ->
  generate_Chebyshev_expansion uninitialized cos_pi N func xmin xmax
  = Ok (construct uninitialized
          (map (generated_coefficient cos_pi N func xmin xmax)
             (zrange 0 (Z.to_nat (N + 1)))) xmin xmax).
Proof.
  intro HN. unfold generate_Chebyshev_expansion.
  replace (N + 1 <? 0)%Z with false by (symmetry; apply Z.ltb_ge; lia).
  rewrite function_values_filled.
  2:{ unfold Eigen.resize, empty_vector, size. cbn [length Z.of_nat].
      replace (N + 1 =? 0)%Z with false by (symmetry; apply Z.eqb_neq; lia).
      rewrite length_map, length_zrange. lia. }
  cbn [bind]. unfold Zero.
  replace (0 <=? N + 1)%Z with true by (symmetry; apply Z.leb_le; lia).
  cbn [andb bind].
  destruct (@L_filled N (Matrix (N + 1) (N + 1) (fun _ _ => 0%Qc)))
    as [L [E [Hr [Hc HL]]]]; [reflexivity | reflexivity |].
  rewrite E. cbn [bind]. unfold times_vector, size.
  rewrite Hc, Hr, length_map, length_zrange.
  replace (N + 1 =? Z.of_nat (Z.to_nat (N + 1)))%Z with true
    by (symmetry; apply Z.eqb_eq; lia).
  cbn [bind]. do 2 f_equal. apply map_ext_in. intros j Hj.
  apply in_zrange in Hj. unfold generated_coefficient.
  rewrite fold_left_qsum. unfold row. rewrite Hc.
  rewrite combine_map_map, map_map. cbn [fst snd].
  rewrite Qcplus_0_l. apply qsum_map_ext_in. intros k Hk.
  apply in_zrange in Hk. rewrite HL by lia. reflexivity.
Qed.

Lemma nth_generated (N : Z) (func : double -> double) (xmin xmax : double)
  (j : nat) :
  nth j (map (generated_coefficient cos_pi N func xmin xmax)
           (zrange 0 (Z.to_nat (N + 1)))) 0%Qc
  = if (Z.of_nat j <=? N)%Z
    then generated_coefficient cos_pi N func xmin xmax (Z.of_nat j)
    else 0%Qc.
Proof.
  destruct (Z.leb_spec (Z.of_nat j) N) as [L|L].
  - now rewrite nth_map_zrange by lia.
  - apply nth_overflow. rewrite length_map, length_zrange. lia.
Qed.

(** X15, [generate_Chebyshev_expansion] of main.cpp for [N >= 1]: the call
    returns an expansion of [N + 1] coefficients on [[xmin, xmax]], and
    coefficient [j] is the sum over [k = 0..N] of
    [2/(p_j p_k N) cos(j k pi/N) func(x_k)], where [x_k] is the image of
    [cos(k pi/N)] under the map from [[-1, 1]] onto the domain and [p] is
    [2] at the indices [0] and [N] and [1] between them. *)
Theorem generated_expansion (N : Z) (func : double -> double)
  (xmin xmax : double) :
  (1 <= N)%Z ->
  exists e,
    generate_Chebyshev_expansion uninitialized cos_pi N func xmin xmax = Ok e /\
    size (coef e) = (N + 1)%Z /\
    m_xmin e = xmin /\ m_xmax e = xmax /\
    forall j, (0 <= j <= N)%Z ->
      nth (Z.to_nat j) (coef e) 0%Qc
      = qsum (map (fun k =>
                (of_Z 2 / of_Z (p_i j N * p_i k N * N) * cos_pi (j * k) N
                 * func (to_realworld xmin xmax (cos_pi k N)))%Qc)
             (zrange 0 (Z.to_nat (N + 1)))).
Proof.
  intro HN. eexists.
  split; [apply generate_Chebyshev_expansion_closed_form; lia|].
  unfold coef. simpl m_c. simpl m_xmin. simpl m_xmax.
  split; [unfold size; rewrite length_map, length_zrange; lia|].
  split; [reflexivity|]. split; [reflexivity|].
  intros j Hj. rewrite nth_generated, Z2Nat.id by lia.
  replace (j <=? N)%Z with true by (symmetry; apply Z.leb_le; lia).
  unfold generated_coefficient. apply qsum_map_ext_in. intros k _.
  now rewrite grid_point_to_realworld.
Qed.

(** X16, [generate_Chebyshev_expansion] of main.cpp is linear in the
    function: on one grid and one domain the coefficients generated for
    [a*f + b*g] are [a] times those for [f] plus [b] times those for [g]. *)
Theorem generated_expansion_linear (N : Z) (f g : double -> double)
  (a b xmin xmax : double) :
  (1 <= N)%Z ->
  exists ef eg e,
    generate_Chebyshev_expansion uninitialized cos_pi N f xmin xmax = Ok ef /\
    generate_Chebyshev_expansion uninitialized cos_pi N g xmin xmax = Ok eg /\
    generate_Chebyshev_expansion uninitialized cos_pi N
      (fun x => (a * f x + b * g x)%Qc) xmin xmax = Ok e /\
    size (coef e) = size (coef ef) /\ size (coef e) = size (coef eg) /\
    forall j, nth j (coef e) 0%Qc
              = (a * nth j (coef ef) 0 + b * nth j (coef eg) 0)%Qc.
Proof.
  intro HN. do 3 eexists.
  split; [apply generate_Chebyshev_expansion_closed_form; lia|].
  split; [apply generate_Chebyshev_expansion_closed_form; lia|].
  split; [apply generate_Chebyshev_expansion_closed_form; lia|].
  unfold coef. simpl m_c.
  split; [unfold size; now rewrite !length_map|].
  split; [unfold size; now rewrite !length_map|].
  intro j. rewrite !nth_generated.
  destruct (Z.of_nat j <=? N)%Z; [|ring].
  unfold generated_coefficient.
  rewrite <- !qsum_map_mult_l, <- qsum_map_plus.
  apply qsum_map_ext_in. intros k _. ring.
Qed.

(** X17, [generate_Chebyshev_expansion] then [y] of main.cpp for [N >= 1]
    and [xmin <> xmax]: the scalar evaluation of the generated expansion at
    the grid point [x_k] is its canonical-basis sum at [cos(k pi/N)]: the
    map of [y] into [[-1, 1]] undoes the placement of the grid points. *)
Theorem generated_expansion_at_grid_point (N : Z) (func : double -> double)
  (xmin xmax : double) :
  (1 <= N)%Z -> xmin <> xmax ->
  exists e,
    generate_Chebyshev_expansion uninitialized cos_pi N func xmin xmax = Ok e /\
    forall k,
      value_of (y e (((xmax - xmin) / of_Z 2 * cos_pi k N
                      + (xmax + xmin) / of_Z 2)%Qc))
      = Ok (basis_sum (coef e) (cos_pi k N)).
Proof.
  intros HN Hd. eexists.
  split; [apply generate_Chebyshev_expansion_closed_form; lia|].
  intro k.
  set (c := map (generated_coefficient cos_pi N func xmin xmax)
              (zrange 0 (Z.to_nat (N + 1)))).
  destruct (@y_basis_sum uninitialized c xmin xmax
              ((xmax - xmin) / of_Z 2 * cos_pi k N + (xmax + xmin) / of_Z 2)%Qc)
    as [t [E _]].
  { unfold c, size. rewrite length_map, length_zrange. lia. }
  rewrite E. cbn [value_of fst]. do 2 f_equal.
  change ((xmax - xmin) / of_Z 2 * cos_pi k N + (xmax + xmin) / of_Z 2)%Qc
    with (grid_point cos_pi N xmin xmax k).
  rewrite grid_point_to_realworld. now apply to_xscaled_to_realworld.
Qed.

End Generation.

Lemma generated_expansion_witness :
  let func := fun x : Qc => (x * x)%Qc in
  exists e,
    generate_Chebyshev_expansion Exact.uninitialized Exact.cos_pi 1 func
      (of_Z 0) (of_Z 6) = Ok e /\
    size (coef e) = (1 + 1)%Z /\
    m_xmin e = of_Z 0 /\ m_xmax e = of_Z 6 /\
    forall j, (0 <= j <= 1)%Z ->
      nth (Z.to_nat j) (coef e) 0%Qc
      = qsum (map (fun k =>
                (of_Z 2 / of_Z (p_i j 1 * p_i k 1 * 1) * Exact.cos_pi (j * k) 1
                 * func (to_realworld (of_Z 0) (of_Z 6) (Exact.cos_pi k 1)))%Qc)
             (zrange 0 (Z.to_nat (1 + 1)))).
Proof.
  cbv zeta.
  apply (@generated_expansion Exact.uninitialized Exact.cos_pi). lia.
Defined.

Lemma generated_expansion_linear_witness :
  let f := fun x : Qc => (x * x)%Qc in
  let g := fun x : Qc => x in
  exists ef eg e,
    generate_Chebyshev_expansion Exact.uninitialized Exact.cos_pi 1 f
      (of_Z 0) (of_Z 6) = Ok ef /\
    generate_Chebyshev_expansion Exact.uninitialized Exact.cos_pi 1 g
      (of_Z 0) (of_Z 6) = Ok eg /\
    generate_Chebyshev_expansion Exact.uninitialized Exact.cos_pi 1
      (fun x => (of_Z 2 * f x + of_Z 3 * g x)%Qc) (of_Z 0) (of_Z 6) = Ok e /\
    size (coef e) = size (coef ef) /\ size (coef e) = size (coef eg) /\
    forall j, nth j (coef e) 0%Qc
              = (of_Z 2 * nth j (coef ef) 0 + of_Z 3 * nth j (coef eg) 0)%Qc.
Proof.
  cbv zeta.
  apply (@generated_expansion_linear Exact.uninitialized Exact.cos_pi). lia.
Defined.

Lemma generated_expansion_at_grid_point_witness :
  let func := fun x : Qc => (x * x)%Qc in
  exists e,
    generate_Chebyshev_expansion Exact.uninitialized Exact.cos_pi 1 func
      (of_Z 0) (of_Z 6) = Ok e /\
    forall k,
      value_of (y e (((of_Z 6 - of_Z 0) / of_Z 2 * Exact.cos_pi k 1
                      + (of_Z 6 + of_Z 0) / of_Z 2)%Qc))
      = Ok (basis_sum (coef e) (Exact.cos_pi k 1)).
Proof.
  cbv zeta.
  apply (@generated_expansion_at_grid_point Exact.uninitialized Exact.cos_pi);
    [lia | apply Qc_neq; reflexivity].
Defined.

(* ================================================================== *)
(** * The Clenshaw evaluators of the Python module *)

Lemma shifted_sum_basis (c : VectorXd) (x : double) :
  basis_sum c x = shifted_sum c 0 x.
Proof.
  rewrite basis_sum_as_qsum.
  assert (G : forall (l : list Qc) m,
    qsum (map (fun k => nth k l 0 * chebyshev_T (m + k) x)%Qc (seq 0 (length l)))
    = shifted_sum l m x).
  { induction l as [|a l IH]; intro m; [reflexivity|].
    cbn [length]. rewrite <- cons_seq, <- seq_shift, map_cons, map_map.
    cbn [qsum fold_right shifted_sum nth]. rewrite Nat.add_0_r. f_equal.
    rewrite <- IH. apply qsum_map_ext_in. intros k _. cbn [nth].
    now replace (m + Datatypes.S k)%nat with (Datatypes.S m + k)%nat by lia. }
  apply (G c 0%nat).
Qed.

(** Clenshaw's identity: the sum of [l[j] T_{m+1+j}(x)] from the two
    leading values of the recurrence. *)
Lemma clenshaw_shifted_sum (l : list double) (x : double) (m : nat) :
  (shifted_sum l (Datatypes.S m) x
   = fst (clenshaw_b l x) * chebyshev_T (Datatypes.S m) x
     - snd (clenshaw_b l x) * chebyshev_T m x)%Qc.
Proof.
  revert m. induction l as [|c l IH]; intro m.
  - simpl. ring.
  - cbn [shifted_sum clenshaw_b fst snd]. rewrite IH, chebyshev_T_step. ring.
Qed.

Lemma snd_clenshaw_b (l : list double) (x : double) :
  snd (clenshaw_b l x) = fst (clenshaw_b (tl l) x).
Proof. destruct l; reflexivity. Qed.

Lemma clenshaw_halved_first_sum (c : VectorXd) (x : double) :
  ((fst (clenshaw_b c x) - snd (clenshaw_b (tl c) x)) / of_Z 2)%Qc
  = halved_first_sum c x.
Proof.
  unfold halved_first_sum. rewrite shifted_sum_basis.
  destruct c as [|c0 l].
  - simpl. rewrite of_Z_2. field. apply one_plus_one_neq_0.
  - cbn [shifted_sum clenshaw_b fst snd tl nth chebyshev_T].
    rewrite clenshaw_shifted_sum. cbn [chebyshev_T].
    rewrite of_Z_2. field. apply one_plus_one_neq_0.
Qed.

Lemma skipn_cons_nth {A} (l : list A) (k : nat) (d : A) :
  (k < length l)%nat -> skipn k l = nth k l d :: skipn (Datatypes.S k) l.
Proof.
  revert k. induction l as [|a l IH]; intros k H; simpl in H; [lia|].
  destruct k as [|k]; [reflexivity|]. simpl. apply IH. lia.
Qed.

Lemma clenshaw_u_step (c : VectorXd) (x : double) (k : Z) :
  (0 <= k < size c)%Z ->
  clenshaw_u c x k
  = (of_Z 2 * x * clenshaw_u c x (k + 1) - clenshaw_u c x (k + 2)
     + nth (Z.to_nat k) c 0)%Qc.
Proof.
  intro H. unfold clenshaw_u, size in *.
  rewrite (skipn_cons_nth c 0%Qc (k := Z.to_nat k)) by lia.
  cbn [clenshaw_b fst]. rewrite snd_clenshaw_b.
  replace (Z.to_nat (k + 1)) with (Datatypes.S (Z.to_nat k)) by lia.
  replace (Z.to_nat (k + 2)) with (Datatypes.S (Datatypes.S (Z.to_nat k))) by lia.
  do 3 f_equal.
  destruct (Nat.lt_ge_cases (Datatypes.S (Z.to_nat k)) (length c)) as [L|L].
  - rewrite (skipn_cons_nth c 0%Qc L). reflexivity.
  - rewrite !skipn_all2 by lia. reflexivity.
Qed.

Lemma clenshaw_u_beyond (c : VectorXd) (x : double) (k : Z) :
  (size c <= Z.max k 0)%Z -> clenshaw_u c x k = 0%Qc.
Proof.
  intro H. unfold clenshaw_u, size in *. rewrite skipn_all2 by lia. reflexivity.
Qed.

Lemma clenshaw_u_halved_first_sum (c : VectorXd) (x : double) :
  ((clenshaw_u c x 0 - clenshaw_u c x 2) / of_Z 2)%Qc = halved_first_sum c x.
Proof.
  rewrite <- clenshaw_halved_first_sum, snd_clenshaw_b. unfold clenshaw_u.
  change (Z.to_nat 0) with 0%nat. change (Z.to_nat 2) with 2%nat.
  destruct c as [|a [|b l]]; reflexivity.
Qed.

(** The loop of [Clenshaw1D] runs the recurrence from the last coefficient
    down and leaves [u_k = b_0] and [u_kp2 = b_2]. *)
Lemma Clenshaw1D_recurrence (c : VectorXd) (ind : double) :
  Clenshaw1D c ind
  = Ok ((clenshaw_u c ind 0 - clenshaw_u c ind 2) / of_Z 2)%Qc.
Proof.
  unfold Clenshaw1D.
  match goal with |- context [for_loop_down _ _ ?b _] => set (body := b) end.
  destruct (@for_loop_down_invariant _
    (fun k s => fst (fst s) = clenshaw_u c ind (k + 1) /\
                snd (fst s) = clenshaw_u c ind (Z.max (k + 1) 1) /\
                snd s = clenshaw_u c ind (Z.max (k + 2) 2))
    (Z.to_nat (size c - 1 + 1)) (size c - 1)%Z body (0%Qc, 0%Qc, 0%Qc))
    as [[[u_k u_kp1] u_kp2] [E [H1 [H2 H3]]]].
  - cbn [fst snd]. rewrite !clenshaw_u_beyond by lia. auto.
  - intros k [[u_k u_kp1] u_kp2] Hk [H1 [H2 H3]]. cbn [fst snd] in *.
    pose proof (size_nonneg c).
    unfold body. rewrite coeff_in_range by lia. cbn [bind].
    replace (Z.max (k + 1) 1) with (k + 1)%Z in H2 by lia.
    replace (Z.max (k + 2) 2) with (k + 2)%Z in H3 by lia.
    subst u_kp1 u_kp2. rewrite <- clenshaw_u_step by lia.
    destruct (Z.gtb_spec k 0) as [G|G]; eexists; (split; [reflexivity|]);
      cbn [fst snd]; repeat split; f_equal; lia.
  - rewrite E. cbn [bind fst snd] in *. pose proof (size_nonneg c).
    replace (size c - 1 - Z.of_nat (Z.to_nat (size c - 1 + 1)) + 1)%Z with 0%Z in H1 by lia.
    replace (Z.max (size c - 1 - Z.of_nat (Z.to_nat (size c - 1 + 1)) + 2) 2)%Z with 2%Z in H3 by lia.
    subst. reflexivity.
Qed.

(** X18, [Clenshaw1D] of pybind11_wrapper.cpp, for every coefficient vector
    (the empty one included) and every abscissa: the call returns
    [c[0]/2 + c[1] T_1(x) + ... + c[N] T_N(x)], the canonical-basis sum that
    [ChebyshevExpansion::y] computes less half of the first coefficient. *)
Theorem Clenshaw1D_halved_first_sum (c : VectorXd) (ind : double) :
  Clenshaw1D c ind = Ok (basis_sum c ind - nth 0 c 0 / of_Z 2)%Qc.
Proof.
  rewrite Clenshaw1D_recurrence. f_equal. apply clenshaw_u_halved_first_sum.
Qed.

Lemma array_minus_map {A} (f g : A -> double) (l : list A) :
  array_minus (map f l) (map g l) = Ok (map (fun j => (f j - g j)%Qc) l).
Proof.
  unfold array_minus, size. rewrite !length_map, Z.eqb_refl.
  now rewrite combine_map_map, map_map.
Qed.

Lemma plus_map {A} (f g : A -> double) (l : list A) :
  plus (map f l) (map g l) = Ok (map (fun j => (f j + g j)%Qc) l).
Proof.
  unfold plus, size. rewrite !length_map, Z.eqb_refl.
  now rewrite combine_map_map, map_map.
Qed.

Lemma setZero_map (n : Z) :
  setZero n = map (fun _ => 0%Qc) (zrange 0 (Z.to_nat n)).
Proof. apply repeat_map_zrange. Qed.

Lemma size_column (a : MatrixXd) (j : Z) :
  size (column a j) = Z.of_nat (Z.to_nat (rows a)).
Proof. unfold size, column. now rewrite length_map, length_zrange. Qed.

(** On a square matrix [Clenshaw1DByRow] runs the recurrence of
    [Clenshaw1D] in every column. *)
Lemma Clenshaw1DByRow_square (a : MatrixXd) (ind : double) :
  rows a = cols a ->
  Clenshaw1DByRow a ind
  = Ok (map (fun j => halved_first_sum (column a j) ind)
          (zrange 0 (Z.to_nat (cols a)))).
Proof.
  intro Hsq. unfold Clenshaw1DByRow. cbv zeta.
  match goal with |- context [for_loop_down _ _ ?b _] => set (body := b) end.
  set (js := zrange 0 (Z.to_nat (cols a))).
  set (u := fun k j => clenshaw_u (column a j) ind k).
  destruct (@for_loop_down_invariant _
    (fun k s => fst (fst s) = map (u (k + 1)%Z) js /\
                snd (fst s) = map (u (Z.max (k + 1) 1)) js /\
                snd s = map (u (Z.max (k + 2) 2)) js)
    (Z.to_nat (rows a - 1 + 1)) (rows a - 1)%Z body
    (setZero (rows a), setZero (rows a), setZero (rows a)))
    as [[[u_k u_kp1] u_kp2] [E [H1 [H2 H3]]]].
  - cbn [fst snd]. rewrite setZero_map, Hsq. fold js.
    repeat split; apply map_ext; intro j; unfold u;
      rewrite clenshaw_u_beyond; try reflexivity; rewrite size_column; lia.
  - intros k [[u_k u_kp1] u_kp2] Hk [H1 [H2 H3]]. cbn [fst snd] in *.
    replace (Z.max (k + 1) 1) with (k + 1)%Z in H2 by lia.
    replace (Z.max (k + 2) 2) with (k + 2)%Z in H3 by lia.
    subst u_kp1 u_kp2. unfold body.
    rewrite map_map, array_minus_map. cbn [bind].
    unfold row_block. rewrite (proj2 (in_range_true k (rows a))) by lia.
    cbn [bind]. unfold row. fold js. rewrite plus_map. cbn [bind].
    assert (Eu : map (fun j => (of_Z 2 * ind * u (k + 1)%Z j - u (k + 2)%Z j
                                + at_ a k j)%Qc) js = map (u k) js).
    { apply map_ext. intro j. unfold u. rewrite (@clenshaw_u_step _ _ k).
      - f_equal. unfold column.
        rewrite nth_map_zrange by lia. f_equal. lia.
      - rewrite size_column. lia. }
    rewrite Eu.
    destruct (Z.gtb_spec k 0) as [G|G]; eexists; (split; [reflexivity|]);
      cbn [fst snd]; repeat split; f_equal; f_equal; lia.
  - unfold VectorXd in *. rewrite E. cbn [bind fst snd] in *.
    assert (R : (0 <= rows a)%Z \/ (rows a < 0)%Z) by lia.
    replace (rows a - 1 - Z.of_nat (Z.to_nat (rows a - 1 + 1)) + 1)%Z
      with (Z.min (rows a) 0) in H1 by lia.
    replace (Z.max (rows a - 1 - Z.of_nat (Z.to_nat (rows a - 1 + 1)) + 2) 2)
      with 2%Z in H3 by lia.
    subst u_k u_kp2. rewrite array_minus_map. cbn [bind]. rewrite map_map.
    f_equal. apply map_ext. intro j. unfold u.
    rewrite <- clenshaw_u_halved_first_sum. do 2 f_equal.
    unfold clenshaw_u.
    now replace (Z.to_nat (Z.min (rows a) 0)) with (Z.to_nat 0) by lia.
Qed.

(** X19, [Clenshaw2DEigen] of pybind11_wrapper.cpp on a square matrix of
    coefficients: the call returns the double sum of
    [a(i, j) T_i(y) T_j(x)] in which the terms with [i = 0] and those with
    [j = 0] are halved: column by column the sum in [y] with the first
    coefficient halved, then the same sum in [x] over the columns. *)
Theorem Clenshaw2DEigen_square (a : MatrixXd) (x y : double) :
  rows a = cols a ->
  Clenshaw2DEigen a x y
  = Ok (halved_first_sum
          (map (fun j => halved_first_sum (column a j) y)
             (zrange 0 (Z.to_nat (cols a)))) x).
Proof.
  intro H. unfold Clenshaw2DEigen. rewrite (@Clenshaw1DByRow_square a y H).
  cbn [bind]. rewrite Clenshaw1D_recurrence. f_equal.
  apply clenshaw_u_halved_first_sum.
Qed.

(** X20, [Clenshaw2DEigen] of pybind11_wrapper.cpp on a matrix that is not
    square: [Clenshaw1DByRow] sizes its three arrays by the number of rows
    and adds a row of the matrix to them, so with at least one row the
    first turn of its loop ends in Eigen's check of the two sizes; without
    rows no turn is taken and the value is [0]. *)
Theorem Clenshaw2DEigen_not_square (a : MatrixXd) (x y : double) :
  rows a <> cols a ->
  Clenshaw2DEigen a x y
  = if (rows a <=? 0)%Z then Ok 0%Qc else Throw size_mismatch.
Proof.
  intro H. unfold Clenshaw2DEigen, Clenshaw1DByRow.
  destruct (Z.leb_spec (rows a) 0) as [L|L].
  - replace (Z.to_nat (rows a - 1 + 1)) with 0%nat by lia.
    cbn [for_loop_down bind]. unfold setZero.
    replace (Z.to_nat (rows a)) with 0%nat by lia.
    cbn [repeat array_minus size length Z.of_nat Z.eqb combine map bind].
    rewrite Clenshaw1D_recurrence. f_equal.
    rewrite !clenshaw_u_beyond by (unfold size; simpl; lia).
    rewrite of_Z_2. field. apply one_plus_one_neq_0.
  - rewrite for_loop_down_first_throws with (e := size_mismatch);
      [reflexivity | lia |].
    rewrite !setZero_map, map_map, array_minus_map. cbn [bind].
    unfold row_block. rewrite (proj2 (in_range_true _ (rows a))) by lia.
    cbn [bind]. unfold plus, size, row.
    rewrite !length_map, !length_zrange.
    destruct (Z.eqb_spec (Z.of_nat (Z.to_nat (rows a)))
                (Z.of_nat (Z.to_nat (cols a)))) as [E|E]; [lia|reflexivity].
Qed.

Lemma Clenshaw2DEigen_square_witness :
  let a := Matrix 2 2 (fun i j => of_Z (1 + i + 2 * j)) in
  rows a = cols a /\
  Clenshaw2DEigen a (ratio 1 2) (ratio 1 3)
  = Ok (halved_first_sum
          (map (fun j => halved_first_sum (column a j) (ratio 1 3))
             (zrange 0 (Z.to_nat (cols a)))) (ratio 1 2)).
Proof.
  cbv zeta. split; [reflexivity|].
  apply Clenshaw2DEigen_square. reflexivity.
Defined.

Lemma Clenshaw2DEigen_not_square_witness :
  let a := Matrix 2 3 (fun i j => of_Z (1 + i + 2 * j)) in
  rows a <> cols a /\
  Clenshaw2DEigen a (ratio 1 2) (ratio 1 3)
  = if (rows a <=? 0)%Z then Ok 0%Qc else Throw size_mismatch.
Proof.
  cbv zeta. split; [simpl; lia|].
  apply Clenshaw2DEigen_not_square. simpl. lia.
Defined.

(* ================================================================== *)
(** * [ChebyshevMixture]: the orders of the expansions in [delta] *)

Section MixtureAllocation.

Variable uninitialized : Z -> double.

Lemma fold_max_bounds (t : list Z) (x : Z) :
  (x <= fold_left Z.max t x)%Z /\
  (forall z, In z t -> (z <= fold_left Z.max t x)%Z).
Proof.
  revert x. induction t as [|a t IH]; intro x; simpl.
  - split; [lia|]. intros z [].
  - destruct (IH (Z.max x a)) as [H1 H2]. split; [lia|].
    intros z [Hz|Hz]; [subst; lia|]. now apply H2.
Qed.

Lemma fold_min_bounds (t : list Z) (x : Z) :
  (fold_left Z.min t x <= x)%Z /\
  (forall z, In z t -> (fold_left Z.min t x <= z)%Z).
Proof.
  revert x. induction t as [|a t IH]; intro x; simpl.
  - split; [lia|]. intros z [].
  - destruct (IH (Z.min x a)) as [H1 H2]. split; [lia|].
    intros z [Hz|Hz]; [subst; lia|]. now apply H2.
Qed.

Lemma maxCoeff_minCoeff (v : list Z) (z : Z) :
  In z v ->
  exists hi lo, Mixture.maxCoeff v = Some hi /\ Mixture.minCoeff v = Some lo /\
    (lo <= z <= hi)%Z.
Proof.
  destruct v as [|x t]; [intros []|]. intro Hz.
  exists (fold_left Z.max t x), (fold_left Z.min t x).
  split; [reflexivity|]. split; [reflexivity|].
  destruct (fold_max_bounds t x) as [M1 M2].
  destruct (fold_min_bounds t x) as [m1 m2].
  destruct Hz as [Hz|Hz]; [subst; lia|].
  specialize (M2 z Hz). specialize (m2 z Hz). lia.
Qed.

Lemma in_Nrows (m : Mixture.ChebyshevMixture)
  (interval : list Mixture.ChebyshevSummation)
  (fluid : Mixture.ChebyshevSummation) (term : Mixture.SumElement) :
  In interval (Mixture.interval_expansions m) -> In fluid interval ->
  In term (Mixture.get_terms fluid) ->
  In (size (ChebTools.coef (Mixture.G term))) (Mixture.Nrows m).
Proof.
  intros Hi Hf Ht. unfold Mixture.Nrows.
  apply in_flat_map. exists interval. split; [exact Hi|].
  apply in_flat_map. exists fluid. split; [exact Hf|].
  apply in_map_iff. exists term. split; [reflexivity|exact Ht].
Qed.

(** X21, the constructors of [ChebyshevMixture] in ChebTools.h, through
    [allocate()]: a mixture that is constructed keeps the intervals it was
    given and has at least one term; the expansion [G] of every term of
    every fluid of every interval has as many coefficients as the matrix
    [A] has rows; [A] has one column per fluid of the first interval, and
    [previous_tau] is [1e20]. *)
Theorem mixture_of_one_order
  (intervals : list (list Mixture.ChebyshevSummation))
  (m : Mixture.ChebyshevMixture) :
  Mixture.construct uninitialized intervals = Mixture.Returned m ->
  Mixture.interval_expansions m = intervals /\
  (forall interval fluid term,
     In interval intervals -> In fluid interval ->
     In term (Mixture.get_terms fluid) ->
     size (ChebTools.coef (Mixture.G term)) = rows (Mixture.get_A m)) /\
  cols (Mixture.get_A m) = Z.of_nat (length (nth 0 intervals [])) /\
  Mixture.previous_tau m = of_Z (10 ^ 20) /\
  (exists interval fluid term,
     In interval intervals /\ In fluid interval /\
     In term (Mixture.get_terms fluid)).
Proof.
  unfold Mixture.construct, Mixture.allocate.
  set (m0 := {| Mixture.interval_expansions := intervals |}).
  destruct (Mixture.maxCoeff (Mixture.Nrows m0)) as [hi|] eqn:Emax;
    [|discriminate].
  destruct (Mixture.minCoeff (Mixture.Nrows m0)) as [lo|] eqn:Emin;
    [|discriminate].
  destruct (Z.eqb_spec hi lo) as [Eq|Ne]; cbn [negb]; [|discriminate].
  intro E. injection E as E. subst m. cbn.
  split; [reflexivity|]. split; [|split; [|split; [reflexivity|]]].
  - intros interval fluid term Hi Hf Ht.
    destruct (@maxCoeff_minCoeff (Mixture.Nrows m0)
                (size (ChebTools.coef (Mixture.G term))))
      as [hi' [lo' [E1 [E2 Hb]]]].
    { now apply (@in_Nrows m0 interval fluid term). }
    rewrite Emax in E1. rewrite Emin in E2.
    injection E1 as E1. injection E2 as E2. subst hi' lo'.
    destruct (mresize_dims uninitialized empty_matrix hi
                (Z.of_nat (length (nth 0 intervals [])))) as [Hr _].
    rewrite Hr. lia.
  - apply mresize_dims.
  - destruct (Mixture.Nrows m0) as [|z v] eqn:EN; [discriminate|].
    assert (Hz : In z (Mixture.Nrows m0)) by (rewrite EN; now left).
    unfold Mixture.Nrows in Hz. apply in_flat_map in Hz.
    destruct Hz as [interval [Hi Hz]]. apply in_flat_map in Hz.
    destruct Hz as [fluid [Hf Hz]]. apply in_map_iff in Hz.
    destruct Hz as [term [_ Ht]]. now exists interval, fluid, term.
Qed.

(** X22, the constructors of [ChebyshevMixture] in ChebTools.h: as soon as
    two terms, of whichever fluids and intervals, have expansions [G] of
    different numbers of coefficients, the construction ends in the
    [std::range_error] "All delta expansions are not of the same order". *)
Theorem mixture_of_different_orders
  (intervals : list (list Mixture.ChebyshevSummation))
  (interval1 interval2 : list Mixture.ChebyshevSummation)
  (fluid1 fluid2 : Mixture.ChebyshevSummation)
  (term1 term2 : Mixture.SumElement) :
  In interval1 intervals -> In fluid1 interval1 ->
  In term1 (Mixture.get_terms fluid1) ->
  In interval2 intervals -> In fluid2 interval2 ->
  In term2 (Mixture.get_terms fluid2) ->
  size (ChebTools.coef (Mixture.G term1))
    <> size (ChebTools.coef (Mixture.G term2)) ->
  Mixture.construct uninitialized intervals
  = Mixture.range_error "All delta expansions are not of the same order".
Proof.
  intros Hi1 Hf1 Ht1 Hi2 Hf2 Ht2 Hne.
  unfold Mixture.construct, Mixture.allocate.
  set (m0 := {| Mixture.interval_expansions := intervals |}).
  destruct (@maxCoeff_minCoeff (Mixture.Nrows m0)
              (size (ChebTools.coef (Mixture.G term1))))
    as [hi [lo [E1 [E2 Hb1]]]].
  { now apply (@in_Nrows m0 interval1 fluid1 term1). }
  destruct (@maxCoeff_minCoeff (Mixture.Nrows m0)
              (size (ChebTools.coef (Mixture.G term2))))
    as [hi' [lo' [E1' [E2' Hb2]]]].
  { now apply (@in_Nrows m0 interval2 fluid2 term2). }
  rewrite E1 in E1'. rewrite E2 in E2'.
  injection E1' as E1'. injection E2' as E2'. subst hi' lo'.
  rewrite E1, E2.
  destruct (Z.eqb_spec hi lo) as [Eq|Ne]; cbn [negb]; [lia|reflexivity].
Qed.

End MixtureAllocation.

Lemma mixture_of_one_order_witness :
  let G2 := ChebTools.construct Exact.uninitialized [of_Z 1; of_Z 2]
              (of_Z 0) (of_Z 1) in
  let term := {| Mixture.n_i := of_Z 1; Mixture.F := G2; Mixture.G := G2 |} in
  let fluid := {| Mixture.TAUmat := empty_matrix;
                  Mixture.DELTAmat := empty_matrix;
                  Mixture.N := [];
                  Mixture.terms := [term; term];
                  Mixture.givenvec := [];
                  Mixture.F_SPECIFIED := true;
                  Mixture.matrix_indep_built := false;
                  Mixture.matrix_dep_built := false;
                  Mixture.m_xmin := of_Z 0;
                  Mixture.m_xmax := of_Z 1 |} in
  let intervals := [[fluid; fluid; fluid]] in
  exists m,
    Mixture.construct Exact.uninitialized intervals = Mixture.Returned m /\
    Mixture.interval_expansions m = intervals /\
    (forall interval fluid term,
       In interval intervals -> In fluid interval ->
       In term (Mixture.get_terms fluid) ->
       size (ChebTools.coef (Mixture.G term)) = rows (Mixture.get_A m)) /\
    cols (Mixture.get_A m) = Z.of_nat (length (nth 0 intervals [])) /\
    Mixture.previous_tau m = of_Z (10 ^ 20) /\
    (exists interval fluid term,
       In interval intervals /\ In fluid interval /\
       In term (Mixture.get_terms fluid)).
Proof.
  cbv zeta. eexists. split; [reflexivity|].
  apply (@mixture_of_one_order Exact.uninitialized). reflexivity.
Defined.

Lemma mixture_of_different_orders_witness :
  let G2 := ChebTools.construct Exact.uninitialized [of_Z 1; of_Z 2]
              (of_Z 0) (of_Z 1) in
  let G3 := ChebTools.construct Exact.uninitialized [of_Z 1; of_Z 2; of_Z 3]
              (of_Z 0) (of_Z 1) in
  let term2 := {| Mixture.n_i := of_Z 1; Mixture.F := G2; Mixture.G := G2 |} in
  let term3 := {| Mixture.n_i := of_Z 1; Mixture.F := G2; Mixture.G := G3 |} in
  let fluid := {| Mixture.TAUmat := empty_matrix;
                  Mixture.DELTAmat := empty_matrix;
                  Mixture.N := [];
                  Mixture.terms := [term2; term3];
                  Mixture.givenvec := [];
                  Mixture.F_SPECIFIED := true;
                  Mixture.matrix_indep_built := false;
                  Mixture.matrix_dep_built := false;
                  Mixture.m_xmin := of_Z 0;
                  Mixture.m_xmax := of_Z 1 |} in
  Mixture.construct Exact.uninitialized [[fluid]]
  = Mixture.range_error "All delta expansions are not of the same order".
Proof.
  cbv zeta.
  eapply (@mixture_of_different_orders Exact.uninitialized _ _ _ _ _ _ _).
  - left. reflexivity.
  - left. reflexivity.
  - left. reflexivity.
  - left. reflexivity.
  - left. reflexivity.
  - right. left. reflexivity.
  - unfold size. simpl. lia.
Defined.
